(** * tilemaker: geometry store, sorted-array stores, multipolygon assembly

    A shallow embedding of [indexed_array.cpp], [osm_store.cpp] and of the
    parent-tile remapping of [tilemaker.cpp], with the properties the
    specification states about them.

    Conventions.
    - Unsigned identifiers ([NodeID], [WayID], template keys) are [Z]; where
      the source converts between integer types the wrap-around is written
      out.
    - A [std::vector] is a [list]; an index or an iterator offset is a [nat]
      (or a [Z] where the source subtracts from it).
    - A [std::unordered_map] is a [gmap].
    - A C++ exception is a constructor of [res]; a member function that
      mutates [*this] and may throw returns the exception (if any) together
      with the state of the object when control leaves the function. *)

From Stdlib Require Import ZArith QArith Qround Qpower Qminmax Lia.
From stdpp Require Import base option list sorting gmap.

Close Scope Q_scope.
Local Open Scope Z_scope.

(** ** Exceptions *)

Inductive exn : Type :=
  | out_of_range.   (* std::out_of_range, thrown by the sorted arrays and by
                       std::unordered_map::at *)

Inductive res (A : Type) : Type :=
  | Ret (a : A)
  | Throw (e : exn).
Arguments Ret {A} a.
Arguments Throw {A} e.

(** ** indexed_array.cpp *)

Module IndexedArray.

(** [std::lower_bound(keys.cbegin(), keys.cend(), k)] by bisection, as the
    standard library computes it: [first] and [len] delimit the range still
    to search, and every round halves [len].  The result is the offset of
    the returned iterator from [keys.cbegin()].  [len] rounds always
    suffice, so [lower_bound] starts the loop with [length keys] of them. *)
Fixpoint lower_bound_loop (rounds : nat) (keys : list Z) (first len : nat)
    (k : Z) : nat :=
  match rounds with
  | O => first
  | S rounds' =>
      if (len =? 0)%nat then first
      else
        let half := (len / 2)%nat in
        let mid := (first + half)%nat in
        match keys !! mid with
        | Some x =>
            if x <? k
            then lower_bound_loop rounds' keys (mid + 1) (len - half - 1) k
            else lower_bound_loop rounds' keys first half k
        | None => first
        end
  end.

Definition lower_bound (keys : list Z) (k : Z) : nat :=
  lower_bound_loop (length keys) keys 0 (length keys) k.

(** [std::binary_search]: [lower_bound], then
    [it != last && !(k < *it)]. *)
Definition binary_search (keys : list Z) (k : Z) : bool :=
  match keys !! lower_bound keys k with
  | Some x => negb (k <? x)
  | None => false
  end.

(** Conversion of the [bool] that [binary_search] returns to the [size_t]
    that [count] returns. *)
Definition size_t_of_bool (b : bool) : nat := if b then 1%nat else 0%nat.

Section Arrays.
Context {ValT : Type}.

(** *** KeyValArrays *)

Record KeyValArrays : Type := mkKeyValArrays {
  keys : list Z;
  values : list ValT
}.

Definition empty : KeyValArrays := mkKeyValArrays [] [].

Definition at_ (a : KeyValArrays) (k : Z) : res ValT :=
  let idx := lower_bound (keys a) k in
  match keys a !! idx with
  | None => Throw out_of_range                    (* keyIt == keys.cend() *)
  | Some x =>
      if negb (x =? k) then Throw out_of_range    (* *keyIt != k *)
      else
        match values a !! idx with
        | Some v => Ret v
        | None => Throw out_of_range              (* values[idx] out of bounds;
                                                     excluded by the invariant *)
        end
  end.

Definition count (a : KeyValArrays) (k : Z) : nat :=
  size_t_of_bool (binary_search (keys a) k).

(** [keys.size() > 0 && k <= keys.back()] *)
Definition smaller_key (ks : list Z) (k : Z) : bool :=
  match last ks with
  | Some b => k <=? b
  | None => false
  end.

Definition insert_back (k : Z) (v : ValT) (a : KeyValArrays)
    : option exn * KeyValArrays :=
  if smaller_key (keys a) k then (Some out_of_range, a)
  else (None, mkKeyValArrays (keys a ++ [k]) (values a ++ [v])).

Definition clear (a : KeyValArrays) : KeyValArrays := empty.

(** *** IndexedKeyValArrays *)

Record IndexedKeyValArrays : Type := mkIndexedKeyValArrays {
  ikeys : list Z;
  indexes : list nat;
  ivalues : list ValT
}.

(** The constructor: [indexes({0})]. *)
Definition iempty : IndexedKeyValArrays := mkIndexedKeyValArrays [] [0%nat] [].

(** [at] returns a pair of iterators into [values]; they are modelled by
    their offsets from [values.cbegin()]. *)
Definition iat (a : IndexedKeyValArrays) (k : Z) : res (nat * nat) :=
  let rank := lower_bound (ikeys a) k in
  match ikeys a !! rank with
  | None => Throw out_of_range
  | Some x =>
      if negb (x =? k) then Throw out_of_range
      else
        match indexes a !! rank, indexes a !! (rank + 1)%nat with
        | Some b, Some e => Ret (b, e)
        | _, _ => Throw out_of_range              (* indexes[rank+1] out of
                                                     bounds; excluded by the
                                                     invariant *)
        end
  end.

Definition icount (a : IndexedKeyValArrays) (k : Z) : nat :=
  size_t_of_bool (binary_search (ikeys a) k).

Definition iinsert_back (k : Z) (vs : list ValT) (a : IndexedKeyValArrays)
    : option exn * IndexedKeyValArrays :=
  if smaller_key (ikeys a) k then (Some out_of_range, a)
  else
    let values' := ivalues a ++ vs in
    (None, mkIndexedKeyValArrays (ikeys a ++ [k])
                                 (indexes a ++ [length values'])
                                 values').

Definition iclear (a : IndexedKeyValArrays) : IndexedKeyValArrays := iempty.

(** The half-open range of [values] that a pair of offsets denotes. *)
Definition range (vs : list ValT) (be : nat * nat) : list ValT :=
  take (snd be - fst be) (drop (fst be) vs).

(** The states a [KeyValArrays] can be in: only [insert_back] and [clear]
    change it. *)
Inductive reachable : KeyValArrays -> Prop :=
  | reach_empty : reachable empty
  | reach_insert k v a : reachable a -> reachable (snd (insert_back k v a))
  | reach_clear a : reachable a -> reachable (clear a).

Inductive ireachable : IndexedKeyValArrays -> Prop :=
  | ireach_empty : ireachable iempty
  | ireach_insert k vs a :
      ireachable a -> ireachable (snd (iinsert_back k vs a))
  | ireach_clear a : ireachable a -> ireachable (iclear a).

(** The structural invariant of [IndexedKeyValArrays]. *)
Record iinv (a : IndexedKeyValArrays) : Prop := mkIinv {
  iinv_first : indexes a !! 0%nat = Some 0%nat;
  iinv_last : last (indexes a) = Some (length (ivalues a));
  iinv_length : length (indexes a) = S (length (ikeys a));
  iinv_mono : StronglySorted le (indexes a);
  iinv_keys : StronglySorted Z.lt (ikeys a)
}.

(** The invariant of [KeyValArrays]. *)
Record inv (a : KeyValArrays) : Prop := mkInv {
  inv_length : length (values a) = length (keys a);
  inv_keys : StronglySorted Z.lt (keys a)
}.

End Arrays.
Arguments KeyValArrays : clear implicits.
Arguments IndexedKeyValArrays : clear implicits.

End IndexedArray.

(** ** osm_store.cpp *)

Module OsmStore.

(** The result of a computation of the store: besides returning or
    throwing, the source can read past the end of a vector ([Undefined]),
    it can swap through an iterator formed before the beginning of an
    empty vector ([Underrun], in [fillPoints]), and a loop of the model can
    use up the rounds it was given ([Timeout]); the theorems below show
    that the latter never happens. *)
Inductive run (A : Type) : Type :=
  | Done (a : A)
  | Raise (e : exn)
  | Undefined
  | Underrun
  | Timeout.
Arguments Done {A} a.
Arguments Raise {A} e.
Arguments Undefined {A}.
Arguments Underrun {A}.
Arguments Timeout {A}.

Definition bind {A B} (r : run A) (f : A -> run B) : run B :=
  match r with
  | Done a => f a
  | Raise e => Raise e
  | Undefined => Undefined
  | Underrun => Underrun
  | Timeout => Timeout
  end.

Notation "x <- r ;; k" := (bind r (fun x => k))
  (at level 100, r at next level, right associativity).

Definition lift {A} (r : res A) : run A :=
  match r with
  | Ret a => Done a
  | Throw e => Raise e
  end.

(** [for (size_t i = 0; i < n; i++) body]: the body maps the loop state to
    the next one and may fail. *)
Fixpoint for_range_from {St} (i n : nat) (body : nat -> St -> run St)
    (s : St) : run St :=
  match n with
  | O => Done s
  | S n' => s' <- body i s ;; for_range_from (S i) n' body s'
  end.

Definition for_range {St} (n : nat) (body : nat -> St -> run St) (s : St)
    : run St :=
  for_range_from 0 n body s.

(** *** Identifiers and coordinates *)

Abbreviation NodeID := Z (only parsing).
Abbreviation WayID := Z (only parsing).
Abbreviation NodeVec := (list Z) (only parsing).
Abbreviation WayVec := (list Z) (only parsing).

(** [static_cast<WayID>(-1)] and its two predecessors, [WayID] being
    [uint32_t]. *)
Definition PSEUDO_WAY_OUTER_MARK : WayID := 4294967295.
Definition PSEUDO_WAY_INNER_MARK : WayID := 4294967295 - 1.
Definition PSEUDO_WAY_REVERSE_MARK : WayID := 4294967295 - 2.

(** Conversions between [uint32_t] and [int], both 32 bits wide. *)
Definition to_uint32 (z : Z) : Z := z mod 4294967296.
Definition to_int (z : Z) : Z := (z + 2147483648) mod 4294967296 - 2147483648.

(** Modelled from the spec: [coordinates.cpp], which declares [LatpLon] and
    [sqDist], is not among the sources.  A [LatpLon] is a pair of
    fixed-point integers, [latp] first; [sqDist] is the squared Euclidean
    distance over them.  The two fields hold [int]s, as where the nodes are
    read ([LatpLon node = { int(...), lon }] with [int lon] in
    tilemaker.cpp): [latp] and [lon] give the 32-bit value of a field. *)
Record LatpLon : Type := mkLatpLon { latp_field : Z; lon_field : Z }.

Definition latp (ll : LatpLon) : Z := to_int (latp_field ll).
Definition lon (ll : LatpLon) : Z := to_int (lon_field ll).

Definition sqDist (a b : LatpLon) : Z :=
  (latp a - latp b) * (latp a - latp b) + (lon a - lon b) * (lon a - lon b).

(** *** Geometry

    A [double] is modelled by the rational it stands for.  On the range of
    the stored coordinates the rounding of [x / 10000000.0] keeps distinct
    integers well apart, so the library's comparison of two translated
    points agrees with equality of the rationals. *)
Record Point : Type := mkPoint { px : Q; py : Q }.

Abbreviation Ring := (list Point) (only parsing).
Abbreviation Linestring := (list Point) (only parsing).

Record Polygon : Type := mkPolygon { outer : Ring; inners : list Ring }.

Abbreviation MultiPolygon := (list Polygon) (only parsing).

(** [geom::equals] on two points. *)
Definition geom_equals (p q : Point) : bool :=
  Qeq_bool (px p) (px q) && Qeq_bool (py p) (py q).

(** [geom::make<Point>(ll.lon/10000000.0, ll.latp/10000000.0)] *)
Definition make_point (ll : LatpLon) : Point :=
  mkPoint (inject_Z (lon ll) / inject_Z 10000000)%Q
          (inject_Z (latp ll) / inject_Z 10000000)%Q.

(** [Point(123456789.0, 123456789.0)] *)
Definition dummy : Point := mkPoint (inject_Z 123456789) (inject_Z 123456789).

(** The operations of the geometry library that the store relies on.  They
    are parameters of the development.  [correct] repairs a geometry ring
    by ring (orientation and closing point), so it is given by what it does
    to an exterior ring and to an interior ring. *)
Class Geometry : Type := {
  correct_ring : Ring -> Ring;        (* geom::correct on a Ring, and on the
                                         exterior ring of a polygon *)
  correct_interior : Ring -> Ring;    (* geom::correct on an interior ring *)
  is_valid_ring : Ring -> bool;       (* geom::is_valid on a Ring *)
  within : Ring -> Ring -> bool       (* geom::within on two Rings *)
}.

Definition correct_polygon `{Geometry} (p : Polygon) : Polygon :=
  mkPolygon (correct_ring (outer p)) (map correct_interior (inners p)).

Definition correct_multipolygon `{Geometry} (mp : MultiPolygon)
    : MultiPolygon :=
  map correct_polygon mp.

(** *** NodeStore, WayStore, RelationStore *)

(** [std::unordered_map::emplace]: no insertion when the key is present. *)
Definition emplace {V} (k : Z) (v : V) (m : gmap Z V) : gmap Z V :=
  match m !! k with
  | Some _ => m
  | None => <[k:=v]> m
  end.

(** [std::unordered_map::at] *)
Definition map_at {V} (m : gmap Z V) (k : Z) : res V :=
  match m !! k with
  | Some v => Ret v
  | None => Throw out_of_range
  end.

(** [std::unordered_map::count] *)
Definition map_count {V} (m : gmap Z V) (k : Z) : nat :=
  match m !! k with
  | Some _ => 1%nat
  | None => 0%nat
  end.

Module NodeStore.
Record t : Type := mk { mLatpLons : gmap Z LatpLon }.
Definition at_ (s : t) (i : NodeID) : res LatpLon := map_at (mLatpLons s) i.
Definition count (s : t) (i : NodeID) : nat := map_count (mLatpLons s) i.
Definition insert_back (i : NodeID) (coord : LatpLon) (s : t) : t :=
  mk (emplace i coord (mLatpLons s)).
Definition clear (s : t) : t := mk ∅.
End NodeStore.

Module WayStore.
Record t : Type := mk { mNodeLists : gmap Z NodeVec }.
(** The pair of iterators that [at] returns is modelled by the sequence
    they delimit. *)
Definition at_ (s : t) (i : WayID) : res NodeVec := map_at (mNodeLists s) i.
Definition count (s : t) (i : WayID) : nat := map_count (mNodeLists s) i.
(** The parameter is declared [int i]: the caller's [WayID] is converted
    to [int], and back to [WayID] as the key. *)
Definition insert_back (i : WayID) (nodeVec : NodeVec) (s : t) : t :=
  mk (emplace (to_uint32 (to_int i)) nodeVec (mNodeLists s)).
Definition clear (s : t) : t := mk ∅.
End WayStore.

Module RelationStore.
Record t : Type := mk { mWayLists : gmap Z WayVec }.
Definition at_ (s : t) (i : WayID) : res WayVec := map_at (mWayLists s) i.
Definition count (s : t) (i : WayID) : nat := map_count (mWayLists s) i.
Definition insert_back (i : WayID) (wayVec : WayVec) (s : t) : t :=
  mk (emplace i wayVec (mWayLists s)).
Definition clear (s : t) : t := mk ∅.
End RelationStore.

Record OSMStore : Type := mkOSMStore {
  nodes : NodeStore.t;
  ways : WayStore.t;
  relations : RelationStore.t
}.

(** *** fillPoints *)

(** The [for] loop of [fillPoints].  [points] is the sink, passed by
    reference: the result carries the exception, if [nodes.at] threw one,
    and the sink and [nodeCnt] at that moment. *)
Fixpoint fill_loop (ns : NodeStore.t) (nodeList : NodeVec)
    (points : list Point) (lastP : Point) (nodeCnt : nat)
    : option exn * (list Point * nat) :=
  match nodeList with
  | [] => (None, (points, nodeCnt))
  | n :: nodeList' =>
      match NodeStore.at_ ns n with
      | Throw e => (Some e, (points, nodeCnt))
      | Ret ll =>
          let p := make_point ll in
          if negb (geom_equals p lastP)
          then fill_loop ns nodeList' (points ++ [p]) p (S nodeCnt)
          else fill_loop ns nodeList' points p nodeCnt
      end
  end.

(** [iter_swap] on two positions of the sink. *)
Definition iter_swap (points : list Point) (i j : nat) : list Point :=
  match points !! i, points !! j with
  | Some a, Some b => <[j:=a]> (<[i:=b]> points)
  | _, _ => points
  end.

(** [while (frontIt < backIt) iter_swap(frontIt++, backIt--)], the
    iterators being offsets from [boost::begin(points)].  Every round
    brings them two closer. *)
Fixpoint reverse_loop (rounds : nat) (points : list Point)
    (frontIt backIt : Z) : list Point :=
  match rounds with
  | O => points
  | S rounds' =>
      if frontIt <? backIt
      then reverse_loop rounds'
             (iter_swap points (Z.to_nat frontIt) (Z.to_nat backIt))
             (frontIt + 1) (backIt - 1)
      else points
  end.

(** The initial [lastP]: the last point of the sink, or the dummy. *)
Definition last_point (points : list Point) : Point :=
  match last points with
  | Some p => p
  | None => dummy
  end.

(** [rev] is the parameter [reverse].  The result is [Done] with the sink
    and the exception, if [nodes.at] threw one.  When the sink is empty
    after the loop, [backIt = boost::end(points)-1] lies before
    [boost::begin(points)]: nothing reads it unless [reverse] is set, and
    then the swap loop goes through it ([Underrun]).  Otherwise the
    iterators are offsets into the sink, and the swap loop gets [nodeCnt]
    rounds, of which it needs half. *)
Definition fillPoints (s : OSMStore) (points : list Point)
    (nodeList : NodeVec) (rev : bool) : run (option exn * list Point) :=
  let lastP := last_point points in
  match fill_loop (nodes s) nodeList points lastP 0 with
  | (Some e, (points', _)) => Done (Some e, points')
  | (None, (points', nodeCnt)) =>
      let frontIt := Z.of_nat (length points') - Z.of_nat nodeCnt in
      let backIt := Z.of_nat (length points') - 1 in
      if rev
      then match points' with
           | [] => Underrun
           | _ :: _ => Done (None, reverse_loop nodeCnt points' frontIt backIt)
           end
      else Done (None, points')
  end.

(** A call of [fillPoints] on a sink that is local to the caller: an
    exception unwinds the caller too. *)
Definition fill (s : OSMStore) (points : list Point) (nodeList : NodeVec)
    (rev : bool) : run (list Point) :=
  r <- fillPoints s points nodeList rev ;;
  match r with
  | (None, points') => Done points'
  | (Some e, _) => Raise e
  end.

(** *** Way -> Polygon, Way -> Linestring *)

Definition nodeListPolygon `{Geometry} (s : OSMStore) (nodeList : NodeVec)
    : run Polygon :=
  ring <- fill s [] nodeList false ;;
  Done (correct_polygon (mkPolygon ring [])).

Definition nodeListLinestring (s : OSMStore) (nodeList : NodeVec)
    : run Linestring :=
  fill s [] nodeList false.

(** *** Relation -> MultiPolygon *)

Definition is_ring_end (w : WayID) : bool :=
  (w =? PSEUDO_WAY_OUTER_MARK) || (w =? PSEUDO_WAY_INNER_MARK).

(** The inner [for] loop of [wayListMultiPolygon]: [it] is the part of the
    way list from the iterator to [wayList.end]; the loop returns the ring
    and the iterator it stopped at. *)
Fixpoint ring_loop (s : OSMStore) (it : WayVec) (ring : Ring)
    : run (Ring * WayVec) :=
  match it with
  | [] => Done (ring, it)
  | w :: it1 =>
      if is_ring_end w then Done (ring, it)
      else if w =? PSEUDO_WAY_REVERSE_MARK then
        match it1 with
        | [] => Undefined                         (* *it at wayList.end *)
        | w' :: it2 =>
            nodeList <- lift (WayStore.at_ (ways s) w') ;;
            ring' <- fill s ring nodeList true ;;
            ring_loop s it2 ring'
        end
      else
        nodeList <- lift (WayStore.at_ (ways s) w) ;;
        ring' <- fill s ring nodeList false ;;
        ring_loop s it1 ring'
  end.

(** [mp.back().inners().emplace_back(ring)] *)
Definition add_inner (mp : MultiPolygon) (ring : Ring) : run MultiPolygon :=
  match last mp with
  | Some poly =>
      Done (<[pred (length mp) :=
               mkPolygon (outer poly) (inners poly ++ [ring])]> mp)
  | None => Undefined
  end.

(** The [do ... while (it != wayList.end)] loop.  In
    [isOuter || *it++ == PSEUDO_WAY_OUTER_MARK] the right operand, and with
    it the increment, is evaluated only when [isOuter] is false. *)
Fixpoint mp_loop (rounds : nat) (s : OSMStore) (it : WayVec) (isOuter : bool)
    (mp : MultiPolygon) : run MultiPolygon :=
  match rounds with
  | O => Timeout
  | S rounds' =>
      st <- (if isOuter then Done (true, it)
             else match it with
                  | [] => Undefined
                  | w :: it' => Done (w =? PSEUDO_WAY_OUTER_MARK, it')
                  end) ;;
      r <- ring_loop s (snd st) [] ;;
      mp' <- (if fst st then Done (mp ++ [mkPolygon (fst r) []])
              else add_inner mp (fst r)) ;;
      match snd r with
      | [] => Done mp'
      | _ :: _ => mp_loop rounds' s (snd r) false mp'
      end
  end.

(** The multipolygon before [geom::correct]. *)
Definition wayListRings (s : OSMStore) (wayList : WayVec)
    : run MultiPolygon :=
  match wayList with
  | [] => Done []
  | _ :: _ => mp_loop (S (length wayList)) s wayList true []
  end.

Definition wayListMultiPolygon `{Geometry} (s : OSMStore) (wayList : WayVec)
    : run MultiPolygon :=
  match wayList with
  | [] => Done []
  | _ :: _ =>
      mp <- wayListRings s wayList ;;
      Done (correct_multipolygon mp)
  end.

Definition wayListMultiPolygon_rel `{Geometry} (s : OSMStore) (relId : WayID)
    : run MultiPolygon :=
  wayList <- lift (RelationStore.at_ (relations s) relId) ;;
  wayListMultiPolygon s wayList.

(** *** correctMultiPolygonRelation

    The diagnostics written to [cerr] are not part of the model. *)

Abbreviation EndCoords := (LatpLon * LatpLon)%type (only parsing).

(** A value-initialised element of [endCoordsVec]. *)
Definition no_coords : EndCoords := (mkLatpLon 0 0, mkLatpLon 0 0).

(** The body of the loop that remembers the begin and end coordinates of
    each way; the state is [(matched, endCoordsVec)]. *)
Definition remember_ends (s : OSMStore) (wayVec : WayVec) (i : nat)
    (st : list bool * list EndCoords) : run (list bool * list EndCoords) :=
  match wayVec !! i with
  | None => Undefined
  | Some w =>
      if (WayStore.count (ways s) w =? 0)%nat
      then Done (<[i:=true]> (fst st), snd st)
      else
        nodeList <- lift (WayStore.at_ (ways s) w) ;;
        match nodeList, last nodeList with
        | itFront :: _, Some itBack =>
            cf <- lift (NodeStore.at_ (nodes s) itFront) ;;
            cb <- lift (NodeStore.at_ (nodes s) itBack) ;;
            Done (fst st, <[i:=(cf, cb)]> (snd st))
        | _, _ => Done (<[i:=true]> (fst st), snd st)
        end
  end.

(** The variables that the search for the nearest way updates. *)
Record search : Type := mkSearch {
  minSqd : Z;
  s_nextIdx : nat;
  s_reverse : bool
}.

(** One round of [for (bool isFirst : {true, false})]. *)
Definition try_end (currentCoord targetCoord : LatpLon) (i : nat)
    (isFirst : bool) (st : search) : search :=
  let sqd := sqDist currentCoord targetCoord in
  if sqd <? minSqd st then mkSearch sqd i (negb isFirst) else st.

(** The body of [for (size_t i = 0; i < wayVec.size(); i++)] inside the
    walk. *)
Definition search_body (matched : list bool) (endCoordsVec : list EndCoords)
    (currentCoord : LatpLon) (i : nat) (st : search) : run search :=
  match matched !! i, endCoordsVec !! i with
  | Some m, Some ends =>
      if m : bool then Done st
      else Done (try_end currentCoord (snd ends) i false
                   (try_end currentCoord (fst ends) i true st))
  | _, _ => Undefined
  end.

(** The variables of the ring walk. *)
Record walk_state : Type := mkWalk {
  matched : list bool;
  currentWayVec : WayVec;
  nextIdx : nat;
  w_reverse : bool
}.

(** The body of the [do ... while (nextIdx != startIdx)] loop. *)
Definition walk_body (wayVec : WayVec) (endCoordsVec : list EndCoords)
    (startIdx : nat) (startCoord : LatpLon) (st : walk_state)
    : run walk_state :=
  match wayVec !! nextIdx st, endCoordsVec !! nextIdx st with
  | Some w, Some ends =>
      let matched' := <[nextIdx st := true]> (matched st) in
      let currentWayVec' :=
        currentWayVec st
        ++ (if w_reverse st then [PSEUDO_WAY_REVERSE_MARK] else [])
        ++ [w] in
      let currentCoord := if w_reverse st then fst ends else snd ends in
      found <- for_range (length wayVec)
                 (search_body matched' endCoordsVec currentCoord)
                 (mkSearch (sqDist currentCoord startCoord) startIdx
                           (w_reverse st)) ;;
      Done (mkWalk matched' currentWayVec' (s_nextIdx found)
                   (s_reverse found))
  | _, _ => Undefined
  end.

Fixpoint walk (rounds : nat) (wayVec : WayVec) (endCoordsVec : list EndCoords)
    (startIdx : nat) (startCoord : LatpLon) (st : walk_state)
    : run walk_state :=
  match rounds with
  | O => Timeout
  | S rounds' =>
      st' <- walk_body wayVec endCoordsVec startIdx startCoord st ;;
      if (nextIdx st' =? startIdx)%nat then Done st'
      else walk rounds' wayVec endCoordsVec startIdx startCoord st'
  end.

(** The loop that creates a ring from the ways of a walk. *)
Fixpoint ways_ring (s : OSMStore) (it : WayVec) (ring : Ring) : run Ring :=
  match it with
  | [] => Done ring
  | w :: it1 =>
      if w =? PSEUDO_WAY_REVERSE_MARK then
        match it1 with
        | [] => Undefined                      (* *it at currentWayVec.cend() *)
        | w' :: it2 =>
            nodeList <- lift (WayStore.at_ (ways s) w') ;;
            ring' <- fill s ring nodeList true ;;
            ways_ring s it2 ring'
        end
      else
        nodeList <- lift (WayStore.at_ (ways s) w) ;;
        ring' <- fill s ring nodeList false ;;
        ways_ring s it1 ring'
  end.

(** The rings of one role and the ways that constitute each. *)
Record rings : Type := mkRings {
  wayVecVec : list WayVec;
  ringVec : list Ring
}.

(** The body of [for (size_t startIdx = 0; ...)]; the state is [matched]
    and the rings found so far.  The walk gets one round per way. *)
Definition construct_ring `{Geometry} (s : OSMStore) (wayVec : WayVec)
    (endCoordsVec : list EndCoords) (startIdx : nat)
    (st : list bool * rings) : run (list bool * rings) :=
  match fst st !! startIdx, endCoordsVec !! startIdx with
  | Some m, Some ends =>
      if m : bool then Done st
      else
        st' <- walk (length wayVec) wayVec endCoordsVec startIdx (fst ends)
                 (mkWalk (fst st) [] startIdx false) ;;
        ring <- ways_ring s (currentWayVec st') [] ;;
        let currentRing := correct_ring ring in
        if negb (is_valid_ring currentRing) then Done (matched st', snd st)
        else Done (matched st',
                   mkRings (wayVecVec (snd st) ++ [currentWayVec st'])
                           (ringVec (snd st) ++ [currentRing]))
  | _, _ => Undefined
  end.

(** One round of [for (bool isOuter : {true, false})]. *)
Definition construct_rings `{Geometry} (s : OSMStore) (wayVec : WayVec)
    : run rings :=
  let n := length wayVec in
  st <- for_range n (remember_ends s wayVec)
          (replicate n false, replicate n no_coords) ;;
  st' <- for_range n (construct_ring s wayVec (snd st))
           (fst st, mkRings [] []) ;;
  Done (snd st').

(** The body of the search for the parent of an inner ring; [SIZE_MAX],
    which no index reaches, is [None]. *)
Definition parent_body `{Geometry} (innerRing : Ring)
    (outerRingVec : list Ring) (j : nat) (parent : option nat)
    : run (option nat) :=
  match outerRingVec !! j with
  | None => Undefined
  | Some o =>
      if within innerRing o then
        match parent with
        | None => Done (Some j)
        | Some p =>
            match outerRingVec !! p with
            | Some op => if within o op then Done (Some j) else Done parent
            | None => Undefined
            end
        end
      else Done parent
  end.

Definition find_parent `{Geometry} (innerRing : Ring)
    (outerRingVec : list Ring) : run (option nat) :=
  for_range (length outerRingVec) (parent_body innerRing outerRingVec) None.

(** The body of [for (size_t k = 0; k < innerRingVec.size(); k++)]; the
    state is [innerWayVecForOuter]. *)
Definition assign_inner `{Geometry} (inner : rings)
    (outerRingVec : list Ring) (k : nat) (innerWayVecForOuter : list WayVec)
    : run (list WayVec) :=
  match ringVec inner !! k, wayVecVec inner !! k with
  | Some r, Some wv =>
      parent <- find_parent r outerRingVec ;;
      match parent with
      | None => Done innerWayVecForOuter
      | Some p =>
          match innerWayVecForOuter !! p with
          | Some cur =>
              Done (<[p := cur ++ PSEUDO_WAY_INNER_MARK :: wv]>
                      innerWayVecForOuter)
          | None => Undefined
          end
      end
  | _, _ => Undefined
  end.

(** The body of the loop that concatenates the outer rings. *)
Definition flatten_body (outerWayVecVec innerWayVecForOuter : list WayVec)
    (j : nat) (result : WayVec) : run WayVec :=
  match outerWayVecVec !! j, innerWayVecForOuter !! j with
  | Some o, Some i =>
      Done (result
            ++ (if (0 <? j)%nat then [PSEUDO_WAY_OUTER_MARK] else [])
            ++ o ++ i)
  | _, _ => Undefined
  end.

(** The part of [correctMultiPolygonRelation] that follows the
    construction of the rings. *)
Definition encode_rings `{Geometry} (outers inners : rings) : run WayVec :=
  innerWayVecForOuter <-
    for_range (length (ringVec inners))
      (assign_inner inners (ringVec outers))
      (replicate (length (wayVecVec outers)) []) ;;
  for_range (length (wayVecVec outers))
    (flatten_body (wayVecVec outers) innerWayVecForOuter) [].

Definition correctMultiPolygonRelation `{Geometry} (s : OSMStore)
    (outerWayVec innerWayVec : WayVec) : run WayVec :=
  outers <- construct_rings s outerWayVec ;;
  inners <- construct_rings s innerWayVec ;;
  result <- encode_rings outers inners ;;
  (* check validity: the multipolygon is built, and may throw *)
  _ <- wayListMultiPolygon s result ;;
  Done result.

End OsmStore.

(** ** tilemaker.cpp: tiles of a parent zoom *)

Module Tilemaker.

(** Arithmetic on [uint], 32 bits wide. *)
Definition uint (z : Z) : Z := z mod 4294967296.

(** Conversion of a [double] to an integer: the fraction is dropped. *)
Definition truncate (q : Q) : Z :=
  if Qle_bool 0 q then Qfloor q else Qceiling q.

(** [pow(2, baseZoom-zoom)]; the difference is computed on [uint]. *)
Definition pow2 (baseZoom zoom : Z) : Q :=
  Qpower (inject_Z 2) (uint (baseZoom - zoom)).

(** The index of the tile at [zoom] that holds the tile [index] of
    [baseZoom]:
      uint tilex = (index >> 16  ) / pow(2, baseZoom-zoom);
      uint tiley = (index & 65535) / pow(2, baseZoom-zoom);
      uint newIndex = (tilex << 16) + tiley;
    The quotients are computed on [double]; dividing an integer below 2^32
    by a power of two is exact there. *)
Definition parent_index (baseZoom zoom index : Z) : Z :=
  let tilex :=
    uint (truncate (inject_Z (Z.shiftr index 16) / pow2 baseZoom zoom)%Q) in
  let tiley :=
    uint (truncate (inject_Z (Z.land index 65535) / pow2 baseZoom zoom)%Q) in
  uint (uint (Z.shiftl tilex 16) + tiley).

(** The packing of a tile: [tileX * 65536 + tileY]. *)
Definition pack (tileX tileY : Z) : Z := uint (tileX * 65536 + tileY).

(** The fields of a packed tile index, as the emitter reads them:
    [index >> 16] and [index & 65535]. *)
Definition tile_x (index : Z) : Z := Z.shiftr index 16.
Definition tile_y (index : Z) : Z := Z.land index 65535.

Section Remap.
Context {OutputObject : Type}.

(** The [push_back] into [generatedIndex[newIndex]] of every object of a
    bucket; [operator[]] creates the bucket, empty, when it is missing. *)
Definition push_all (newIndex : Z) (ooset : list OutputObject)
    (generatedIndex : gmap Z (list OutputObject))
    : gmap Z (list OutputObject) :=
  foldl (fun g o => <[newIndex := default [] (g !! newIndex) ++ [o]]> g)
        generatedIndex ooset.

(** The loop that assigns the objects of the base zoom to the tiles of
    [zoom].  [tileIndex], a [std::map], is given by its entries in the
    order of iteration, that of the keys.  The sorting of the new buckets
    that follows needs the order of [OutputObject], which is declared
    elsewhere, and is not part of the model. *)
Definition remap (baseZoom zoom : Z)
    (tileIndex : list (Z * list OutputObject))
    : gmap Z (list OutputObject) :=
  foldl (fun g kv => push_all (parent_index baseZoom zoom (fst kv)) (snd kv) g)
        ∅ tileIndex.

End Remap.

(** *** Reading ways and relations

    The identifiers of a PBF block are delta coded: every element of
    [refs] and [memids] is the difference to the element before it. *)

(** Whether an [int64_t] holds the integer; a sum that it does not hold
    is undefined. *)
Definition int64_ok (z : Z) : bool :=
  (-9223372036854775808 <=? z) && (z <? 9223372036854775808).

(** [static_cast<NodeID>], [NodeID] being [uint64_t]. *)
Definition to_NodeID (z : Z) : Z := z mod 18446744073709551616.

(** The loop that assembles the node list of a way:
      nodeId += pbfWay.refs(k);
      nodeVec.push_back(static_cast<NodeID>(nodeId)); *)
Fixpoint decode_refs (nodeId : Z) (refs : list Z) (nodeVec : list Z)
    : OsmStore.run (list Z) :=
  match refs with
  | [] => OsmStore.Done nodeVec
  | r :: refs' =>
      let nodeId' := nodeId + r in
      if int64_ok nodeId'
      then decode_refs nodeId' refs' (nodeVec ++ [to_NodeID nodeId'])
      else OsmStore.Undefined
  end.

(** [Relation_MemberType] *)
Inductive MemberType : Type := NODE | WAY | RELATION.

(** The variables of the loop over the members of a relation. *)
Record members : Type := mkMembers {
  lastID : Z;
  outerWayVec : list Z;
  innerWayVec : list Z
}.

(** The body of the loop that reads the members of a relation; [memids],
    [types] and [roles_sid] are the repeated fields of the relation:
      lastID += pbfRelation.memids(n);
      if (pbfRelation.types(n) != Relation_MemberType_WAY) { continue; }
      int32_t role = pbfRelation.roles_sid(n);
      WayID wayId = static_cast<WayID>(lastID);
      (role == innerKey ? innerWayVec : outerWayVec).push_back(wayId); *)
Definition member_body (memids : list Z) (types : list MemberType)
    (roles_sid : list Z) (innerKey : Z) (n : nat) (st : members)
    : OsmStore.run members :=
  match memids !! n with
  | None => OsmStore.Undefined
  | Some d =>
      let lastID' := lastID st + d in
      if negb (int64_ok lastID') then OsmStore.Undefined
      else
        match types !! n with
        | None => OsmStore.Undefined
        | Some WAY =>
            match roles_sid !! n with
            | None => OsmStore.Undefined
            | Some role =>
                let wayId := OsmStore.to_uint32 lastID' in
                if role =? innerKey
                then OsmStore.Done
                       (mkMembers lastID' (outerWayVec st)
                          (innerWayVec st ++ [wayId]))
                else OsmStore.Done
                       (mkMembers lastID' (outerWayVec st ++ [wayId])
                          (innerWayVec st))
            end
        | Some _ => OsmStore.Done
                      (mkMembers lastID' (outerWayVec st) (innerWayVec st))
        end
  end.

Definition read_members (memids : list Z) (types : list MemberType)
    (roles_sid : list Z) (innerKey : Z) : OsmStore.run members :=
  OsmStore.for_range (length memids)
    (member_body memids types roles_sid innerKey) (mkMembers 0 [] []).

End Tilemaker.

(** ** Sample data

    A store with two overlapping squares, a square around both, a
    triangle inside all three, a triangle far from them, and a square cut
    into two fragments. *)

Module Sample.
Import OsmStore.

(** The bounding box of a ring: [(min x, max x, min y, max y)]. *)
Fixpoint bbox (r : Ring) : option (Q * Q * Q * Q) :=
  match r with
  | [] => None
  | p :: r' =>
      match bbox r' with
      | None => Some (px p, px p, py p, py p)
      | Some (x0, x1, y0, y1) =>
          Some (Qmin x0 (px p), Qmax x1 (px p),
                Qmin y0 (py p), Qmax y1 (py p))
      end
  end.

(** Containment of bounding boxes, which is containment for rectangles
    with sides along the axes. *)
Definition bbox_within (a b : Ring) : bool :=
  match bbox a, bbox b with
  | Some (ax0, ax1, ay0, ay1), Some (bx0, bx1, by0, by1) =>
      Qle_bool bx0 ax0 && Qle_bool ax1 bx1
      && Qle_bool by0 ay0 && Qle_bool ay1 by1
  | _, _ => false
  end.

(** A geometry that leaves rings as they are and accepts them all. *)
Definition box_geometry : Geometry :=
  {| correct_ring := fun r => r;
     correct_interior := fun r => r;
     is_valid_ring := fun _ => true;
     within := bbox_within |}.

Definition ll (la lo : Z) : LatpLon := mkLatpLon la lo.

Definition sample_nodes : NodeStore.t :=
  foldr (fun kv => NodeStore.insert_back (fst kv) (snd kv)) (NodeStore.mk ∅)
    [ (1, ll 0 0); (2, ll 0 20); (3, ll 20 20); (4, ll 20 0);
      (11, ll 10 10); (12, ll 10 30); (13, ll 30 30); (14, ll 30 10);
      (21, ll 12 12); (22, ll 12 18); (23, ll 18 18);
      (31, ll (-10) (-10)); (32, ll (-10) 40); (33, ll 40 40);
      (34, ll 40 (-10));
      (100, ll 500 500); (101, ll 500 510); (102, ll 510 510) ].

Definition sample_ways : WayStore.t :=
  foldr (fun kv => WayStore.insert_back (fst kv) (snd kv)) (WayStore.mk ∅)
    [ (10, [1; 2; 3; 4; 1]);
      (11, [11; 12; 13; 14; 11]);
      (12, [31; 32; 33; 34; 31]);
      (20, [21; 22; 23; 21]);
      (30, [100; 101; 102; 100]);
      (40, [1; 2; 3]);
      (41, [1; 4; 3]) ].

Definition sample_store : OSMStore :=
  mkOSMStore sample_nodes sample_ways (RelationStore.mk ∅).

Definition pt (x y : Z) : Point := make_point (ll y x).

(** The rings of the ways 10, 11, 12 and 20. *)
Definition square_a : Ring :=
  [pt 0 0; pt 20 0; pt 20 20; pt 0 20; pt 0 0].
Definition square_b : Ring :=
  [pt 10 10; pt 30 10; pt 30 30; pt 10 30; pt 10 10].
Definition square_big : Ring :=
  [pt (-10) (-10); pt 40 (-10); pt 40 40; pt (-10) 40; pt (-10) (-10)].
Definition triangle : Ring :=
  [pt 12 12; pt 18 12; pt 18 18; pt 12 12].

(** The sample store with one more way, 50, whose second node is not in
    the store. *)
Definition broken_store : OSMStore :=
  mkOSMStore sample_nodes (WayStore.insert_back 50 [1; 999] sample_ways)
    (RelationStore.mk ∅).

End Sample.

(** ** Vocabulary of the properties *)

Module Spec.
Import OsmStore.

(** The keys before [lo] are below [k], the keys from [hi] on are not:
    what the bisection maintains. *)
Definition bisected (keys : list Z) (k : Z) (lo hi : nat) : Prop :=
  (forall i x, (i < lo)%nat -> keys !! i = Some x -> x < k) /\
  (forall i x, (hi <= i)%nat -> keys !! i = Some x -> k <= x).

(** Whether two neighbours of a point sequence are equal. *)
Fixpoint adjacent_equal (l : list Point) : bool :=
  match l with
  | [] => false
  | p :: l' =>
      match l' with
      | [] => false
      | q :: _ => geom_equals p q || adjacent_equal l'
      end
  end.

(** Every node of the sequence is in the store. *)
Definition resolvable (s : OSMStore) (nodeList : NodeVec) : Prop :=
  Forall (fun n => NodeStore.count (nodes s) n = 1%nat) nodeList.

(** The points that the loop of [fillPoints] pushes onto a sink whose last
    point is [lastP]. *)
Definition pushed (s : OSMStore) (nodeList : NodeVec) (lastP : Point)
    : list Point :=
  fst (snd (fill_loop (nodes s) nodeList [] lastP 0)).

(** The exception, if any, that ends the loop. *)
Definition thrown (s : OSMStore) (nodeList : NodeVec) (lastP : Point)
    : option exn :=
  fst (fill_loop (nodes s) nodeList [] lastP 0).

(** **** The encoded way sequence, ring by ring

    The reading of the specification: the sequence is a first ring
    followed by groups, each a mark and the ways of a ring. *)

Definition mark (isOuter : bool) : WayID :=
  if isOuter then PSEUDO_WAY_OUTER_MARK else PSEUDO_WAY_INNER_MARK.

Definition join_rings (seg0 : WayVec) (groups : list (bool * WayVec)) : WayVec :=
  seg0 ++ flat_map (fun g => mark (fst g) :: snd g) groups.

(** The sequence cut at its marks, from left to right. *)
Fixpoint split_rings (W : WayVec) : WayVec * list (bool * WayVec) :=
  match W with
  | [] => ([], [])
  | w :: W' =>
      let r := split_rings W' in
      if w =? PSEUDO_WAY_OUTER_MARK then ([], (true, fst r) :: snd r)
      else if w =? PSEUDO_WAY_INNER_MARK then ([], (false, fst r) :: snd r)
      else (w :: fst r, snd r)
  end.

(** The rings placed one after the other: a ring that follows an outer
    mark starts a new polygon, as its outer ring; a ring that follows an
    inner mark joins the inner rings of the current polygon. *)
Fixpoint place_groups (s : OSMStore) (mp : MultiPolygon)
    (groups : list (bool * WayVec)) : run MultiPolygon :=
  match groups with
  | [] => Done mp
  | g :: groups' =>
      ring <- ways_ring s (snd g) [] ;;
      mp' <- (if fst g then Done (mp ++ [mkPolygon ring []])
              else add_inner mp ring) ;;
      place_groups s mp' groups'
  end.

(** No mark ends a ring inside a part that [split_rings] cuts out. *)
Definition mark_free (seg : WayVec) : Prop :=
  Forall (fun w => is_ring_end w = false) seg.

(** The rest of a way list at which the loop of a ring stops. *)
Definition ring_stop (rest : WayVec) : Prop :=
  match rest with
  | [] => True
  | w :: _ => is_ring_end w = true
  end.

(** The first ring is placed as if an outer mark came before it. *)
Definition place_rings (s : OSMStore) (W : WayVec) : run MultiPolygon :=
  place_groups s [] ((true, fst (split_rings W)) :: snd (split_rings W)).

(** **** The ring walk *)

(** The number of ways that are not yet consumed. *)
Fixpoint unmatched (m : list bool) : nat :=
  match m with
  | [] => 0
  | b :: m' => (if b then 0 else 1) + unmatched m'
  end.

(** **** The parents of the inner rings *)

(** The body of the loop that assigns the inner rings, for the ring [r]
    and the ways [wv] that the loop reads at its index. *)
Definition assign_one `{Geometry} (outerRingVec : list Ring) (r : Ring)
    (wv : WayVec) (innerWayVecForOuter : list WayVec) : run (list WayVec) :=
  parent <- find_parent r outerRingVec ;;
  match parent with
  | None => Done innerWayVecForOuter
  | Some p =>
      match innerWayVecForOuter !! p with
      | Some cur =>
          Done (<[p := cur ++ PSEUDO_WAY_INNER_MARK :: wv]>
                  innerWayVecForOuter)
      | None => Undefined
      end
  end.

(** The loop over the inner rings, given as pairs of a ring and its
    ways. *)
Fixpoint assign_all `{Geometry} (outerRingVec : list Ring)
    (pairs : list (Ring * WayVec)) (innerWayVecForOuter : list WayVec)
    : run (list WayVec) :=
  match pairs with
  | [] => Done innerWayVecForOuter
  | p :: pairs' =>
      iw <- assign_one outerRingVec (fst p) (snd p) innerWayVecForOuter ;;
      assign_all outerRingVec pairs' iw
  end.

(** The inner rings, each with its ways, as the two vectors that hold
    them. *)
Definition rings_of (pairs : list (Ring * WayVec)) : rings :=
  mkRings (map snd pairs) (map fst pairs).

(** No outer ring contains the ring. *)
Definition orphan `{Geometry} (outerRingVec : list Ring) (r : Ring) : Prop :=
  forall j o, outerRingVec !! j = Some o -> within r o = false.

(** [geom::within] is transitive on the outer rings that contain the
    ring. *)
Definition within_transitive `{Geometry} (outerRingVec : list Ring)
    (r : Ring) : Prop :=
  forall i j k oi oj ok,
    outerRingVec !! i = Some oi -> outerRingVec !! j = Some oj ->
    outerRingVec !! k = Some ok ->
    within r oi = true -> within r oj = true -> within r ok = true ->
    within oi oj = true -> within oj ok = true -> within oi ok = true.

(** The outer ring [m] is a smallest enclosing candidate: it contains the
    ring and is within every other outer ring that contains the ring. *)
Definition smallest `{Geometry} (outerRingVec : list Ring) (r : Ring)
    (m : nat) : Prop :=
  exists om, outerRingVec !! m = Some om /\ within r om = true /\
    forall j oj, j <> m -> outerRingVec !! j = Some oj ->
      within r oj = true -> within om oj = true.

(** What the search has established before it looks at the outer ring
    [j]: the parent contains the ring, and it is a smallest enclosing
    candidate once the search has passed one. *)
Definition parent_inv `{Geometry} (innerRing : Ring)
    (outerRingVec : list Ring) (j : nat) (parent : option nat)
    : Prop :=
  match parent with
  | None =>
      forall i o, (i < j)%nat -> outerRingVec !! i = Some o ->
                  within innerRing o = false
  | Some p =>
      (p < j)%nat /\
      exists op, outerRingVec !! p = Some op /\
        within innerRing op = true /\
        (within_transitive outerRingVec innerRing ->
         forall m, (m < j)%nat -> smallest outerRingVec innerRing m ->
           smallest outerRingVec innerRing p)
  end.

(** **** Well-formed stores and sequences *)

Definition is_mark (w : WayID) : bool :=
  is_ring_end w || (w =? PSEUDO_WAY_REVERSE_MARK).

(** The invariants of the data model: no way is stored under a mark, and
    every node of a stored way resolves. *)
Definition store_ok (s : OSMStore) : Prop :=
  forall w nodeList,
    WayStore.at_ (ways s) w = Ret nodeList ->
    is_mark w = false /\ resolvable s nodeList.

(** The ways of a ring: stored ways, each possibly after a
    [PSEUDO_WAY_REVERSE_MARK]. *)
Inductive ways_ok (s : OSMStore) : WayVec -> Prop :=
  | ways_ok_nil : ways_ok s []
  | ways_ok_way w nodeList rest :
      WayStore.at_ (ways s) w = Ret nodeList ->
      ways_ok s rest -> ways_ok s (w :: rest)
  | ways_ok_rev w nodeList rest :
      WayStore.at_ (ways s) w = Ret nodeList ->
      ways_ok s rest -> ways_ok s (PSEUDO_WAY_REVERSE_MARK :: w :: rest).

(** The ways of a ring begin with a stored way that has a node: the walk
    starts at such a way and does not join it in reverse, so it gives the
    ring its first point. *)
Definition starts_forward (s : OSMStore) (wv : WayVec) : Prop :=
  match wv with
  | [] => True
  | w :: _ =>
      exists nodeList,
        WayStore.at_ (ways s) w = Ret nodeList /\ nodeList <> []
  end.

(** Rings that follow the first one: each a mark and the ways of the
    ring. *)
Inductive tail_ok (s : OSMStore) : WayVec -> Prop :=
  | tail_ok_nil : tail_ok s []
  | tail_ok_group b seg rest :
      ways_ok s seg -> starts_forward s seg -> tail_ok s rest ->
      tail_ok s (mark b :: seg ++ rest).

(** An encoded way sequence. *)
Definition encoded_ok (s : OSMStore) (W : WayVec) : Prop :=
  exists seg rest,
    W = seg ++ rest /\ ways_ok s seg /\ starts_forward s seg /\
    tail_ok s rest.

(** The way at every index that is not consumed is stored. *)
Definition unmatched_stored (s : OSMStore) (wayVec : WayVec)
    (m : list bool) : Prop :=
  forall i, m !! i = Some false ->
    exists w nodeList,
      wayVec !! i = Some w /\ WayStore.at_ (ways s) w = Ret nodeList.

(** The way at every index that is not consumed is stored with at least
    one node: the loop that remembers the ends consumes the others. *)
Definition unmatched_filled (s : OSMStore) (wayVec : WayVec)
    (m : list bool) : Prop :=
  forall i, m !! i = Some false ->
    exists w nodeList,
      wayVec !! i = Some w /\ WayStore.at_ (ways s) w = Ret nodeList /\
      nodeList <> [].

(** What holds of the ways collected by a walk between two rounds, besides
    [walk_ok]: the first way is one at which a walk starts. *)
Definition walk_started (s : OSMStore) (wayVec : WayVec) (st : walk_state)
    : Prop :=
  unmatched_filled s wayVec (matched st) /\
  starts_forward s (currentWayVec st) /\
  (currentWayVec st = [] -> w_reverse st = false).

(** What holds of the variables of a walk between two rounds. *)
Record walk_ok (s : OSMStore) (wayVec : WayVec) (st : walk_state) : Prop :=
  mkWalkOk {
    wo_length : length (matched st) = length wayVec;
    wo_next : (nextIdx st < length wayVec)%nat;
    wo_stored : unmatched_stored s wayVec (matched st);
    wo_ways : ways_ok s (currentWayVec st)
  }.

(** What holds of [matched] and of the rings found so far. *)
Definition rings_ok (s : OSMStore) (wayVec : WayVec)
    (st : list bool * rings) : Prop :=
  length (fst st) = length wayVec /\
  unmatched_stored s wayVec (fst st) /\
  Forall (ways_ok s) (wayVecVec (snd st)) /\
  length (wayVecVec (snd st)) = length (ringVec (snd st)).

(** **** Further vocabulary *)

(** The buckets of the base tiles whose tile at [zoom] is [p], one after
    the other. *)
Definition children_of {OutputObject : Type} (baseZoom zoom : Z)
    (tileIndex : list (Z * list OutputObject)) (p : Z) : list OutputObject :=
  concat (map snd
            (filter (fun kv => Tilemaker.parent_index baseZoom zoom (fst kv) = p)
                    tileIndex)).

(** The finite map that a [KeyValArrays] stands for. *)
Definition contents {ValT : Type} (a : IndexedArray.KeyValArrays ValT)
    : gmap Z ValT :=
  list_to_map (zip (IndexedArray.keys a) (IndexedArray.values a)).

(** The value lists of an [IndexedKeyValArrays], by rank: the ranges of
    [values] between consecutive [indexes]. *)
Definition segments {ValT : Type} (ia : IndexedArray.IndexedKeyValArrays ValT)
    : list (list ValT) :=
  (fun i => IndexedArray.range (IndexedArray.ivalues ia)
              (nth i (IndexedArray.indexes ia) 0%nat,
               nth (S i) (IndexedArray.indexes ia) 0%nat))
  <$> seq 0 (length (IndexedArray.ikeys ia)).

(** The finite map that an [IndexedKeyValArrays] stands for. *)
Definition icontents {ValT : Type}
    (ia : IndexedArray.IndexedKeyValArrays ValT) : gmap Z (list ValT) :=
  list_to_map (zip (IndexedArray.ikeys ia) (segments ia)).

(** The value of the first pair of a sequence under the key. *)
Fixpoint first_value {V : Type} (l : list (Z * V)) (k : Z) : option V :=
  match l with
  | [] => None
  | p :: l' => if fst p =? k then Some (snd p) else first_value l' k
  end.

(** What [at] gives for a key with the value [o], if any. *)
Definition found {V : Type} (o : option V) : res V :=
  match o with
  | Some v => Ret v
  | None => Throw out_of_range
  end.

(** No way is stored under one of the three marks. *)
Definition marks_unused (s : OSMStore) : Prop :=
  forall w, is_mark w = true -> WayStore.count (ways s) w = 0%nat.

(** The number of inner rings of a multipolygon. *)
Definition inner_rings (mp : MultiPolygon) : nat :=
  sum_list_with (fun p => length (inners p)) mp.

(** The number of occurrences of a way ID in a way list. *)
Fixpoint occurrences (w : WayID) (W : WayVec) : nat :=
  match W with
  | [] => 0
  | x :: W' => (if x =? w then 1 else 0) + occurrences w W'
  end.

(** The coordinates of the nodes of a sequence, as the store has them. *)
Definition located (s : OSMStore) (nodeList : NodeVec) (lls : list LatpLon)
    : Prop :=
  Forall2 (fun n ll => NodeStore.at_ (nodes s) n = Ret ll) nodeList lls.

(** The index of the parent that the search gives an inner ring, if it
    gives one. *)
Definition parent_of `{Geometry} (outerRingVec : list Ring) (r : Ring)
    : option nat :=
  match find_parent r outerRingVec with
  | Done parent => parent
  | _ => None
  end.

(** The ways of the inner rings whose parent is the outer ring [j]; the
    inner rings are given as pairs of a ring and its ways. *)
Definition kids `{Geometry} (outerRingVec : list Ring)
    (pairs : list (Ring * WayVec)) (j : nat) : list WayVec :=
  map snd
    (filter (fun p => parent_of outerRingVec (fst p) = Some j) pairs).

(** The outer rings in their order, each with the inner rings it is the
    parent of, all given by their ways. *)
Definition blocks `{Geometry} (outers : rings)
    (pairs : list (Ring * WayVec)) : list (WayVec * list WayVec) :=
  imap (fun j o => (o, kids (ringVec outers) pairs j)) (wayVecVec outers).

(** The way sequence that stands for a list of blocks: an outer mark
    before every block but the first, then the ways of the outer ring,
    then every inner ring after an inner mark. *)
Definition encode_blocks (bl : list (WayVec * list WayVec)) : WayVec :=
  concat
    (imap (fun j b =>
             (if (0 <? j)%nat then [PSEUDO_WAY_OUTER_MARK] else [])
             ++ fst b
             ++ flat_map (fun wv => PSEUDO_WAY_INNER_MARK :: wv) (snd b))
          bl).

(** The ring that the ways of a ring give on an empty sink, before
    [geom::correct]. *)
Definition raw_ring (s : OSMStore) (wv : WayVec) : Ring :=
  match ways_ring s wv [] with
  | Done r => r
  | _ => []
  end.

(** The polygons of a list of blocks, before [geom::correct]. *)
Definition polygons_of (s : OSMStore) (bl : list (WayVec * list WayVec))
    : MultiPolygon :=
  map (fun b => mkPolygon (raw_ring s (fst b)) (map (raw_ring s) (snd b))) bl.

(** The rings of a role as pairs of a ring and its ways. *)
Definition pairs_of (rs : rings) : list (Ring * WayVec) :=
  zip (ringVec rs) (wayVecVec rs).

(** The rings of a list of blocks in their order, each with the kind of
    mark that stands before it. *)
Definition ring_groups (bl : list (WayVec * list WayVec))
    : list (bool * WayVec) :=
  flat_map (fun b => (true, fst b) :: map (fun wv => (false, wv)) (snd b)) bl.

(** A block whose rings are made of stored ways, the outer ring of at
    least one. *)
Definition block_ok (s : OSMStore) (b : WayVec * list WayVec) : Prop :=
  ways_ok s (fst b) /\ fst b <> [] /\ Forall (ways_ok s) (snd b) /\
  starts_forward s (fst b) /\ Forall (starts_forward s) (snd b).

(** What the construction of the rings of a bag establishes for a ring
    and its ways. *)
Definition ring_ok `{Geometry} (s : OSMStore) (wayVec : WayVec)
    (wv : WayVec) (r : Ring) : Prop :=
  wv <> [] /\ r = correct_ring (raw_ring s wv) /\ is_valid_ring r = true /\
  forall w, w ∈ wv -> w = PSEUDO_WAY_REVERSE_MARK \/ w ∈ wayVec.


(** The run returns a value that satisfies [P], or it throws: it reads no
    element outside a vector, swaps through no iterator outside one and
    does not run out of rounds. *)
Definition returns_or_throws {A : Type} (P : A -> Prop) (r : run A) : Prop :=
  match r with
  | Done a => P a
  | Raise _ => True
  | Undefined => False
  | Underrun => False
  | Timeout => False
  end.

(** The number of ways with the ID [w] that are consumed: the indices at
    which [matched] is set and the bag holds [w]. *)
Fixpoint consumed (w : WayID) (wayVec : WayVec) (m : list bool) : nat :=
  match wayVec, m with
  | x :: wayVec', b :: m' =>
      (if b && (x =? w) then 1 else 0) + consumed w wayVec' m'
  | _, _ => 0
  end.

(** The delta coding of a sequence of identifiers, [prev] being the
    identifier before the first. *)
Fixpoint deltas (prev : Z) (ids : list Z) : list Z :=
  match ids with
  | [] => []
  | i :: ids' => (i - prev) :: deltas i ids'
  end.

(** A member of a relation: its identifier, its type and the string index
    of its role. *)
Record member : Type := mkMember {
  m_id : Z;
  m_type : Tilemaker.MemberType;
  m_role : Z
}.

(** Whether a member is a way, with the role [inner] or with another
    role. *)
Definition is_way (m : member) : bool :=
  match m_type m with
  | Tilemaker.WAY => true
  | _ => false
  end.

Definition ways_with (inner : bool) (innerKey : Z) (ms : list member)
    : list Z :=
  map m_id
    (List.filter (fun m => is_way m && eqb (m_role m =? innerKey) inner) ms).

End Spec.

(** * Properties *)

(** ** Bisection *)

Section Bisection.
Import IndexedArray Spec.

Lemma sorted_lookup {A} (R : relation A) (l : list A) (i j : nat) (x y : A) :
  StronglySorted R l -> l !! i = Some x -> l !! j = Some y ->
  (i < j)%nat -> R x y.
Proof.
  intros Hs Hi Hj Hij.
  rewrite <- (take_drop j l) in Hs.
  eapply StronglySorted_app_1_elem_of; [exact Hs | |].
  - apply elem_of_take. eauto.
  - apply list_elem_of_lookup. exists 0%nat.
    rewrite lookup_drop, Nat.add_0_r. exact Hj.
Qed.

Lemma lower_bound_loop_spec (keys : list Z) (k : Z) :
  StronglySorted Z.lt keys ->
  forall rounds first len,
    (len <= rounds)%nat -> (first + len <= length keys)%nat ->
    bisected keys k first (first + len) ->
    let r := lower_bound_loop rounds keys first len k in
    (first <= r <= first + len)%nat /\ bisected keys k r r.
Proof.
  intros Hs. induction rounds as [|rounds IH]; intros first len Hr Hlen Hb.
  - assert (len = 0%nat) by lia. subst len. simpl.
    rewrite Nat.add_0_r in Hb. split; [lia | exact Hb].
  - cbn [lower_bound_loop]. destruct (Nat.eqb_spec len 0) as [->|Hne].
    + rewrite Nat.add_0_r in Hb. split; [lia | exact Hb].
    + assert (Hhalf : (len / 2 < len)%nat) by (apply Nat.div_lt; lia).
      destruct (lookup_lt_is_Some_2 keys (first + len / 2)) as [x Hx];
        [lia |].
      rewrite Hx. destruct Hb as [Hlo Hhi].
      destruct (Z.ltb_spec x k) as [Hlt|Hge].
      * destruct (IH (first + len / 2 + 1)%nat (len - len / 2 - 1)%nat)
          as [Hrange Hres]; [lia | lia | | split; [lia | exact Hres]].
        split.
        -- intros i y Hi Hy.
           destruct (decide (i = (first + len / 2)%nat)) as [->|Hneq].
           ++ congruence.
           ++ assert (y < x); [| lia].
              eapply (sorted_lookup Z.lt keys i (first + len / 2));
                eauto; lia.
        -- intros i y Hi Hy. apply (Hhi i); [lia | exact Hy].
      * destruct (IH first (len / 2)%nat)
          as [Hrange Hres]; [lia | lia | | split; [lia | exact Hres]].
        split; [exact Hlo |].
        intros i y Hi Hy.
        destruct (decide (i = (first + len / 2)%nat)) as [->|Hneq].
        -- assert (y = x) by congruence. lia.
        -- assert (x < y); [| lia].
           eapply (sorted_lookup Z.lt keys (first + len / 2) i);
             eauto; lia.
Qed.

Lemma lower_bound_spec (keys : list Z) (k : Z) :
  StronglySorted Z.lt keys ->
  (lower_bound keys k <= length keys)%nat /\
  bisected keys k (lower_bound keys k) (lower_bound keys k).
Proof.
  intros Hs. unfold lower_bound.
  destruct (lower_bound_loop_spec keys k Hs (length keys) 0 (length keys))
    as [Hr Hb]; [lia | lia | | split; [lia | exact Hb]].
  split.
  - intros i x Hi. lia.
  - intros i x Hi Hx. apply lookup_lt_Some in Hx. simpl in Hi. lia.
Qed.

(** On sorted keys the bisection finds the position of a stored key. *)
Lemma lower_bound_found (keys : list Z) (k : Z) (i : nat) :
  StronglySorted Z.lt keys -> keys !! i = Some k -> lower_bound keys k = i.
Proof.
  intros Hs Hi. destruct (lower_bound_spec keys k Hs) as [Hlen [Hlo Hhi]].
  destruct (Nat.lt_trichotomy (lower_bound keys k) i) as [Hlt|[Heq|Hgt]].
  - destruct (lookup_lt_is_Some_2 keys (lower_bound keys k)) as [x Hx].
    { apply lookup_lt_Some in Hi. lia. }
    assert (k <= x) by (eapply Hhi; [reflexivity | exact Hx]).
    assert (x < k) by (eapply (sorted_lookup Z.lt keys); eauto).
    lia.
  - exact Heq.
  - assert (k < k) by (eapply Hlo; eauto). lia.
Qed.

Lemma binary_search_found (keys : list Z) (k : Z) (i : nat) :
  StronglySorted Z.lt keys -> keys !! i = Some k ->
  binary_search keys k = true.
Proof.
  intros Hs Hi. unfold binary_search.
  rewrite (lower_bound_found keys k i Hs Hi), Hi.
  rewrite Z.ltb_irrefl. reflexivity.
Qed.

Lemma binary_search_absent (keys : list Z) (k : Z) :
  StronglySorted Z.lt keys -> k ∉ keys -> binary_search keys k = false.
Proof.
  intros Hs Hk. unfold binary_search.
  destruct (keys !! lower_bound keys k) as [x|] eqn:Hx; [| reflexivity].
  destruct (lower_bound_spec keys k Hs) as [_ [_ Hhi]].
  assert (k <= x) by (eapply Hhi; [reflexivity | exact Hx]).
  assert (x <> k).
  { intros ->. apply Hk. eapply list_elem_of_lookup_2; eauto. }
  destruct (Z.ltb_spec k x); [reflexivity | lia].
Qed.

(** The guard of [insert_back] on sorted keys. *)
Lemma smaller_key_false (ks : list Z) (k : Z) :
  StronglySorted Z.lt ks -> smaller_key ks k = false ->
  Forall (fun x => x < k) ks.
Proof.
  intros Hs Hg. unfold smaller_key in Hg.
  destruct (last ks) as [b|] eqn:Hlast.
  - apply last_Some in Hlast as [l' ->].
    apply Z.leb_gt in Hg.
    apply StronglySorted_app in Hs as (Hlt & _ & _).
    apply Forall_app. split.
    + apply Forall_forall. intros x Hx.
      assert (x < b) by (apply Hlt; [exact Hx | set_solver]). lia.
    + repeat constructor. exact Hg.
  - apply last_None in Hlast. subst. constructor.
Qed.

Lemma smaller_key_true (ks : list Z) (k : Z) :
  StronglySorted Z.lt ks -> k ∈ ks -> smaller_key ks k = true.
Proof.
  intros Hs Hk. unfold smaller_key.
  destruct (last ks) as [b|] eqn:Hlast.
  - apply last_Some in Hlast as [l' ->].
    apply Z.leb_le. apply elem_of_app in Hk as [Hk|Hk].
    + apply StronglySorted_app in Hs as (Hlt & _ & _).
      assert (k < b) by (apply Hlt; [exact Hk | set_solver]). lia.
    + apply list_elem_of_singleton in Hk. lia.
  - apply last_None in Hlast. subst. inversion Hk.
Qed.

Lemma sorted_snoc (ks : list Z) (k : Z) :
  StronglySorted Z.lt ks -> smaller_key ks k = false ->
  StronglySorted Z.lt (ks ++ [k]).
Proof.
  intros Hs Hg. apply StronglySorted_app_2; [| exact Hs | repeat constructor].
  intros x1 x2 H1 H2. apply list_elem_of_singleton in H2. subst x2.
  pose proof (smaller_key_false ks k Hs Hg) as Hall.
  rewrite Forall_forall in Hall. auto.
Qed.

Lemma lower_bound_snoc (ks : list Z) (k : Z) :
  StronglySorted Z.lt ks -> smaller_key ks k = false ->
  lower_bound (ks ++ [k]) k = length ks.
Proof.
  intros Hs Hg. apply lower_bound_found.
  - apply sorted_snoc; assumption.
  - apply list_lookup_middle. reflexivity.
Qed.

End Bisection.

(** ** The sorted-array stores *)

Section ArrayFacts.
Import IndexedArray.
Context {ValT : Type}.
Implicit Types (a : KeyValArrays ValT) (ia : IndexedKeyValArrays ValT).

Lemma insert_back_throws a k v :
  smaller_key (keys a) k = true ->
  insert_back k v a = (Some out_of_range, a).
Proof. intros Hg. unfold insert_back. rewrite Hg. reflexivity. Qed.

Lemma insert_back_appends a k v :
  smaller_key (keys a) k = false ->
  insert_back k v a
  = (None, mkKeyValArrays (keys a ++ [k]) (values a ++ [v])).
Proof. intros Hg. unfold insert_back. rewrite Hg. reflexivity. Qed.

Lemma inv_empty : inv (@empty ValT).
Proof. split; [reflexivity | constructor]. Qed.

Lemma inv_insert_back a k v : inv a -> inv (snd (insert_back k v a)).
Proof.
  intros [Hlen Hs]. unfold insert_back.
  destruct (smaller_key (keys a) k) eqn:Hg; simpl.
  - split; assumption.
  - split; simpl.
    + rewrite !length_app, Hlen. reflexivity.
    + apply sorted_snoc; assumption.
Qed.

Lemma reachable_inv a : reachable a -> inv a.
Proof.
  induction 1 as [|k v a _ IH|a _ _].
  - apply inv_empty.
  - apply inv_insert_back, IH.
  - apply inv_empty.
Qed.

Lemma at_stored a k v i :
  inv a -> keys a !! i = Some k -> values a !! i = Some v ->
  at_ a k = Ret v.
Proof.
  intros [_ Hs] Hk Hv. unfold at_.
  rewrite (lower_bound_found _ _ _ Hs Hk), Hk, Z.eqb_refl, Hv. reflexivity.
Qed.

Lemma count_stored a k i :
  inv a -> keys a !! i = Some k -> count a k = 1%nat.
Proof.
  intros [_ Hs] Hk. unfold count.
  rewrite (binary_search_found _ _ _ Hs Hk). reflexivity.
Qed.

Lemma count_absent a k : inv a -> k ∉ keys a -> count a k = 0%nat.
Proof.
  intros [_ Hs] Hk. unfold count.
  rewrite (binary_search_absent _ _ Hs Hk). reflexivity.
Qed.

(** [count] tells whether the key is among the stored ones. *)
Lemma count_1_stored a k : inv a -> count a k = 1%nat -> k ∈ keys a.
Proof.
  intros Hinv Hc. destruct (decide (k ∈ keys a)) as [Hin|Hout]; [exact Hin |].
  rewrite (count_absent a k Hinv Hout) in Hc. discriminate.
Qed.

Lemma at_Ret_stored a k v : at_ a k = Ret v -> k ∈ keys a.
Proof.
  unfold at_. destruct (keys a !! lower_bound (keys a) k) as [x|] eqn:Hx;
    [| discriminate].
  destruct (Z.eqb_spec x k) as [->|]; [| discriminate].
  intros _. eapply list_elem_of_lookup_2; eauto.
Qed.

Lemma insert_back_fresh a k v :
  inv a -> smaller_key (keys a) k = false ->
  let a' := snd (insert_back k v a) in
  fst (insert_back k v a) = None /\
  keys a' = keys a ++ [k] /\ values a' = values a ++ [v] /\
  at_ a' k = Ret v /\ count a' k = 1%nat.
Proof.
  intros Hinv Hg.
  pose proof (inv_insert_back a k v Hinv) as Hinv'.
  rewrite insert_back_appends in * by exact Hg. simpl in *.
  repeat split.
  - eapply (at_stored _ k v (length (keys a))); [exact Hinv' | |]; simpl.
    + apply list_lookup_middle. reflexivity.
    + apply list_lookup_middle. symmetry. apply Hinv.
  - eapply (count_stored _ k (length (keys a))); [exact Hinv' |]; simpl.
    apply list_lookup_middle. reflexivity.
Qed.

(** *** IndexedKeyValArrays *)

Lemma iinsert_back_throws ia k vs :
  smaller_key (ikeys ia) k = true ->
  iinsert_back k vs ia = (Some out_of_range, ia).
Proof. intros Hg. unfold iinsert_back. rewrite Hg. reflexivity. Qed.

Lemma iinsert_back_appends ia k vs :
  smaller_key (ikeys ia) k = false ->
  iinsert_back k vs ia
  = (None, mkIndexedKeyValArrays (ikeys ia ++ [k])
             (indexes ia ++ [length (ivalues ia ++ vs)])
             (ivalues ia ++ vs)).
Proof. intros Hg. unfold iinsert_back. rewrite Hg. reflexivity. Qed.

Lemma iinv_empty : iinv (@iempty ValT).
Proof. split; simpl; try reflexivity; repeat constructor. Qed.

Lemma iinv_insert_back ia k vs : iinv ia -> iinv (snd (iinsert_back k vs ia)).
Proof.
  intros Hinv. unfold iinsert_back.
  destruct (smaller_key (ikeys ia) k) eqn:Hg; simpl; [exact Hinv |].
  destruct Hinv as [Hfirst Hlast Hlen Hmono Hkeys].
  split; simpl.
  - apply lookup_app_l_Some. exact Hfirst.
  - apply last_snoc.
  - rewrite !length_app, Hlen. simpl. lia.
  - apply StronglySorted_app_2; [| exact Hmono | repeat constructor].
    intros x1 x2 H1 H2. apply list_elem_of_singleton in H2. subst x2.
    rewrite length_app.
    apply last_Some in Hlast as [l' Hl']. rewrite Hl' in H1, Hmono.
    apply elem_of_app in H1 as [H1|H1].
    + apply StronglySorted_app in Hmono as (Hle & _ & _).
      assert (x1 <= length (ivalues ia))%nat; [| lia].
      apply Hle; [exact H1 | set_solver].
    + apply list_elem_of_singleton in H1. lia.
  - apply sorted_snoc; assumption.
Qed.

Lemma ireachable_iinv ia : ireachable ia -> iinv ia.
Proof.
  induction 1 as [|k vs ia _ IH|ia _ _].
  - apply iinv_empty.
  - apply iinv_insert_back, IH.
  - apply iinv_empty.
Qed.

Lemma icount_stored ia k i :
  iinv ia -> ikeys ia !! i = Some k -> icount ia k = 1%nat.
Proof.
  intros Hinv Hk. unfold icount.
  rewrite (binary_search_found _ _ _ (iinv_keys ia Hinv) Hk). reflexivity.
Qed.

Lemma icount_absent ia k : iinv ia -> k ∉ ikeys ia -> icount ia k = 0%nat.
Proof.
  intros Hinv Hk. unfold icount.
  rewrite (binary_search_absent _ _ (iinv_keys ia Hinv) Hk). reflexivity.
Qed.

Lemma icount_1_stored ia k : iinv ia -> icount ia k = 1%nat -> k ∈ ikeys ia.
Proof.
  intros Hinv Hc. destruct (decide (k ∈ ikeys ia)) as [Hin|Hout];
    [exact Hin |].
  rewrite (icount_absent ia k Hinv Hout) in Hc. discriminate.
Qed.

(** The range that [at] returns for the key of rank [i]. *)
Lemma iat_stored ia k i :
  iinv ia -> ikeys ia !! i = Some k ->
  exists b e, iat ia k = Ret (b, e) /\
    indexes ia !! i = Some b /\ indexes ia !! S i = Some e /\
    (b <= e <= length (ivalues ia))%nat.
Proof.
  intros Hinv Hk. pose proof Hinv as [Hfirst Hlast Hlen Hmono Hkeys].
  pose proof (lookup_lt_Some _ _ _ Hk) as Hi.
  destruct (lookup_lt_is_Some_2 (indexes ia) i) as [b Hb]; [lia |].
  destruct (lookup_lt_is_Some_2 (indexes ia) (S i)) as [e He]; [lia |].
  exists b, e. unfold iat.
  rewrite (lower_bound_found _ _ _ Hkeys Hk), Hk, Z.eqb_refl. simpl.
  rewrite Nat.add_1_r, Hb, He. repeat split; try reflexivity.
  - eapply (sorted_lookup le (indexes ia) i (S i)); eauto.
  - rewrite last_lookup, Hlen in Hlast. simpl in Hlast.
    destruct (decide (S i = length (ikeys ia))) as [Heq|Hne].
    + rewrite Heq in He. assert (e = length (ivalues ia)) by congruence. lia.
    + eapply (sorted_lookup le (indexes ia) (S i) (length (ikeys ia)));
        eauto; lia.
Qed.

Lemma range_appended (vs0 vs : list ValT) :
  range (vs0 ++ vs) (length vs0, length (vs0 ++ vs)) = vs.
Proof.
  unfold range. simpl. rewrite drop_app_length, length_app.
  replace (length vs0 + length vs - length vs0)%nat with (length vs) by lia.
  apply firstn_all.
Qed.

Lemma iinsert_back_fresh ia k vs :
  iinv ia -> smaller_key (ikeys ia) k = false ->
  let ia' := snd (iinsert_back k vs ia) in
  fst (iinsert_back k vs ia) = None /\
  ikeys ia' = ikeys ia ++ [k] /\ ivalues ia' = ivalues ia ++ vs /\
  (exists be, iat ia' k = Ret be /\ range (ivalues ia') be = vs) /\
  icount ia' k = 1%nat.
Proof.
  intros Hinv Hg.
  pose proof (iinv_insert_back ia k vs Hinv) as Hinv'.
  rewrite iinsert_back_appends in * by exact Hg. simpl in *.
  assert (Hk : (ikeys ia ++ [k]) !! length (ikeys ia) = Some k)
    by (apply list_lookup_middle; reflexivity).
  repeat split.
  - destruct (iat_stored _ k _ Hinv' Hk) as (b & e & Hat & Hb & He & _).
    simpl in *. exists (b, e). split; [exact Hat |].
    pose proof Hinv as [_ Hlast Hlen _ _].
    rewrite lookup_app_l in Hb by lia.
    rewrite last_lookup, Hlen in Hlast. simpl in Hlast.
    rewrite <- Hlen, list_lookup_middle in He by reflexivity.
    assert (b = length (ivalues ia)) by congruence.
    assert (e = length (ivalues ia ++ vs)) by congruence.
    subst b e. apply range_appended.
  - eapply icount_stored; [exact Hinv' | exact Hk].
Qed.

End ArrayFacts.

Section ArrayClaims.
Import IndexedArray.

Lemma greater_key (ks : list Z) (k : Z) :
  Forall (fun x => x < k) ks -> smaller_key ks k = false.
Proof.
  intros Hall. unfold smaller_key.
  destruct (last ks) as [b|] eqn:Hlast; [| reflexivity].
  apply last_Some_elem_of in Hlast. rewrite Forall_forall in Hall.
  apply Z.leb_gt. auto.
Qed.

Lemma not_greater_key (ks : list Z) (k b : Z) :
  last ks = Some b -> k <= b -> smaller_key ks k = true.
Proof.
  intros Hlast Hle. unfold smaller_key. rewrite Hlast.
  apply Z.leb_le. exact Hle.
Qed.

(** C9. On [KeyValArrays] and on [IndexedKeyValArrays], [insert_back] with
    a key that is not greater than [keys.back()] throws [out_of_range] and
    leaves the container as it was: no key, value or index is appended.
    With a key greater than all the keys the container holds, it appends
    the key and the value(s); afterwards [at] of that key returns the
    inserted value (for the indexed variant: the range of [values] that
    holds exactly the inserted values) and [count] of that key is 1. *)
Theorem C9_insert_back_ordered {ValT : Type} :
  (forall (a : KeyValArrays ValT) k v b,
     last (keys a) = Some b -> k <= b ->
     insert_back k v a = (Some out_of_range, a)) /\
  (forall (a : KeyValArrays ValT) k v,
     reachable a -> Forall (fun x => x < k) (keys a) ->
     exists a', insert_back k v a = (None, a') /\
       keys a' = keys a ++ [k] /\ values a' = values a ++ [v] /\
       at_ a' k = Ret v /\ count a' k = 1%nat) /\
  (forall (ia : IndexedKeyValArrays ValT) k vs b,
     last (ikeys ia) = Some b -> k <= b ->
     iinsert_back k vs ia = (Some out_of_range, ia)) /\
  (forall (ia : IndexedKeyValArrays ValT) k vs,
     ireachable ia -> Forall (fun x => x < k) (ikeys ia) ->
     exists ia', iinsert_back k vs ia = (None, ia') /\
       ikeys ia' = ikeys ia ++ [k] /\ ivalues ia' = ivalues ia ++ vs /\
       indexes ia' = indexes ia ++ [length (ivalues ia')] /\
       (exists be, iat ia' k = Ret be /\ range (ivalues ia') be = vs) /\
       icount ia' k = 1%nat).
Proof.
  repeat split.
  - intros a k v b Hlast Hle.
    apply insert_back_throws. eapply not_greater_key; eauto.
  - intros a k v Hreach Hall.
    pose proof (greater_key _ _ Hall) as Hg.
    destruct (insert_back_fresh a k v (reachable_inv a Hreach) Hg)
      as (_ & Hk & Hv & Hat & Hc).
    exists (snd (insert_back k v a)).
    repeat split; try assumption.
    rewrite insert_back_appends by exact Hg. reflexivity.
  - intros ia k vs b Hlast Hle.
    apply iinsert_back_throws. eapply not_greater_key; eauto.
  - intros ia k vs Hreach Hall.
    pose proof (greater_key _ _ Hall) as Hg.
    destruct (iinsert_back_fresh ia k vs (ireachable_iinv ia Hreach) Hg)
      as (_ & Hk & Hv & Hat & Hc).
    exists (snd (iinsert_back k vs ia)).
    repeat split; try assumption.
    + rewrite iinsert_back_appends by exact Hg. reflexivity.
    + rewrite iinsert_back_appends by exact Hg. reflexivity.
Qed.

Lemma C9_insert_back_ordered_witness :
  insert_back 3 30 (snd (insert_back 5 50 empty))
  = (Some out_of_range, snd (insert_back 5 50 empty)) /\
  (exists a', insert_back 7 70 (snd (insert_back 5 50 empty)) = (None, a') /\
     keys a' = [5; 7] /\ values a' = [50; 70] /\
     at_ a' 7 = Ret 70 /\ count a' 7 = 1%nat) /\
  iinsert_back 5 [1; 2] (snd (iinsert_back 5 [50; 51] iempty))
  = (Some out_of_range, snd (iinsert_back 5 [50; 51] iempty)) /\
  (exists ia',
     iinsert_back 7 [70; 71; 72] (snd (iinsert_back 5 [50; 51] iempty))
     = (None, ia') /\
     ikeys ia' = [5; 7] /\ ivalues ia' = [50; 51; 70; 71; 72] /\
     indexes ia' = [0; 2; length (ivalues ia')]%nat /\
     (exists be, iat ia' 7 = Ret be /\ range (ivalues ia') be = [70; 71; 72])
     /\ icount ia' 7 = 1%nat).
Proof.
  destruct (@C9_insert_back_ordered Z) as (H1 & H2 & H3 & H4).
  split; [| split; [| split]].
  - apply (H1 _ 3 30 5); [reflexivity | lia].
  - refine (H2 (snd (insert_back 5 50 empty)) 7 70 _ _).
    + apply reach_insert, reach_empty.
    + repeat constructor.
  - apply (H3 _ 5 [1; 2] 5); [reflexivity | lia].
  - refine (H4 (snd (iinsert_back 5 [50; 51] iempty)) 7 [70; 71; 72] _ _).
    + apply ireach_insert, ireach_empty.
    + repeat constructor.
Defined.

(** C10. The constructor, [insert_back] and [clear] of
    [IndexedKeyValArrays] establish, respectively preserve, the invariant:
    [indexes] starts with 0 (so it is not empty), ends with
    [values.size()], is one longer than [keys] and does not decrease, and
    [keys] increases strictly.  So every container that these operations
    produce satisfies it, and [at] of a stored key returns offsets
    [begin <= end <= values.size()]. *)
Theorem C10_indexed_invariant {ValT : Type} :
  iinv (@iempty ValT) /\
  (forall (ia : IndexedKeyValArrays ValT) k vs,
     iinv ia -> iinv (snd (iinsert_back k vs ia))) /\
  (forall ia : IndexedKeyValArrays ValT, iinv ia -> iinv (iclear ia)) /\
  (forall ia : IndexedKeyValArrays ValT, ireachable ia -> iinv ia) /\
  (forall (ia : IndexedKeyValArrays ValT) k,
     ireachable ia -> k ∈ ikeys ia ->
     exists b e, iat ia k = Ret (b, e) /\
       (b <= e)%nat /\ (e <= length (ivalues ia))%nat).
Proof.
  split; [apply iinv_empty |].
  split; [intros; apply iinv_insert_back; assumption |].
  split; [intros; apply iinv_empty |].
  split; [apply ireachable_iinv |].
  intros ia k Hreach Hk.
  apply list_elem_of_lookup in Hk as [i Hi].
  destruct (iat_stored ia k i (ireachable_iinv ia Hreach) Hi)
    as (b & e & Hat & _ & _ & Hbe).
  exists b, e. repeat split; [exact Hat | lia | lia].
Qed.

Lemma C10_indexed_invariant_witness :
  let ia := snd (iinsert_back 7 [70]
                   (snd (iinsert_back 6 []
                      (snd (iinsert_back 5 [50; 51] iempty))))) in
  iinv ia /\ iinv (snd (iinsert_back 9 [90; 91] ia)) /\ iinv (iclear ia) /\
  exists b e, iat ia 6 = Ret (b, e) /\
    (b <= e)%nat /\ (e <= length (ivalues ia))%nat.
Proof.
  intros ia.
  destruct (@C10_indexed_invariant Z) as (_ & Hins & Hclr & Hreach & Hat).
  assert (Hr : ireachable ia)
    by (repeat apply ireach_insert; apply ireach_empty).
  split; [apply Hreach, Hr |].
  split; [apply Hins, Hreach, Hr |].
  split; [apply Hclr, Hreach, Hr |].
  apply Hat; [exact Hr |]. vm_compute. set_solver.
Defined.

End ArrayClaims.

(** ** The hash-map stores *)

Section StoreFacts.
Import OsmStore.

Lemma emplace_fresh {V} (m : gmap Z V) (k : Z) (v : V) :
  m !! k = None -> emplace k v m !! k = Some v.
Proof. intros Hk. unfold emplace. rewrite Hk. apply lookup_insert_eq. Qed.

Lemma emplace_present {V} (m : gmap Z V) (k : Z) (v v0 : V) :
  m !! k = Some v0 -> emplace k v m = m.
Proof. intros Hk. unfold emplace. rewrite Hk. reflexivity. Qed.

Lemma emplace_other {V} (m : gmap Z V) (k k' : Z) (v : V) :
  k <> k' -> emplace k v m !! k' = m !! k'.
Proof.
  intros Hne. unfold emplace.
  destruct (m !! k); [reflexivity | apply lookup_insert_ne; exact Hne].
Qed.

Lemma map_count_0 {V} (m : gmap Z V) (k : Z) :
  map_count m k = 0%nat -> m !! k = None.
Proof. unfold map_count. destruct (m !! k); [discriminate | reflexivity]. Qed.

Lemma map_at_Ret {V} (m : gmap Z V) (k : Z) (v : V) :
  map_at m k = Ret v -> m !! k = Some v.
Proof. unfold map_at. destruct (m !! k); congruence. Qed.

Lemma map_insert_fresh {V} (m : gmap Z V) (k : Z) (v : V) :
  map_count m k = 0%nat ->
  map_count (emplace k v m) k = 1%nat /\ map_at (emplace k v m) k = Ret v.
Proof.
  intros Hc. apply map_count_0 in Hc.
  unfold map_count, map_at. rewrite (emplace_fresh m k v Hc). auto.
Qed.

Lemma map_insert_present {V} (m : gmap Z V) (k : Z) (v v0 : V) :
  map_at m k = Ret v0 -> emplace k v m = m.
Proof. intros Hat. eapply emplace_present, map_at_Ret, Hat. Qed.

(** A [WayID] survives the conversion to [int] and back. *)
Lemma to_uint32_to_int (i : Z) :
  0 <= i < 4294967296 -> to_uint32 (to_int i) = i.
Proof. intros Hi. unfold to_uint32, to_int. Z.div_mod_to_equations. lia. Qed.

End StoreFacts.

Section StoreClaims.
Import OsmStore IndexedArray.

(** Not every key that is absent from a sorted array can be inserted: 3 is
    absent from the array that holds 5, [insert_back] of 3 throws, and 3 is
    as absent as before. *)
Lemma C1_sorted_array_rejects_smaller_key :
  ~ (forall (a : KeyValArrays Z) (k v : Z),
       reachable a -> count a k = 0%nat ->
       count (snd (insert_back k v a)) k = 1%nat /\
       at_ (snd (insert_back k v a)) k = Ret v).
Proof.
  intros H.
  destruct (H (snd (insert_back 5 50 empty)) 3 30) as [Hc _].
  - apply reach_insert, reach_empty.
  - reflexivity.
  - vm_compute in Hc. discriminate.
Qed.

(** C1 (amended).  For [NodeStore], [WayStore] and [RelationStore]: after
    [insert_back] of a key that the store does not contain, [count] of the
    key is 1 and [at] returns the inserted value; [insert_back] under a key
    that is present leaves the store as it was, so the first value stays.
    For [KeyValArrays] and [IndexedKeyValArrays] the first part holds for a
    key greater than all stored keys; [insert_back] of a present key throws
    [out_of_range] and leaves the container as it was. *)
Theorem C1_insert_then_lookup {ValT : Type} :
  (forall s i c, NodeStore.count s i = 0%nat ->
     NodeStore.count (NodeStore.insert_back i c s) i = 1%nat /\
     NodeStore.at_ (NodeStore.insert_back i c s) i = Ret c) /\
  (forall s i c c0, NodeStore.at_ s i = Ret c0 ->
     NodeStore.insert_back i c s = s) /\
  (forall s i nv, 0 <= i < 4294967296 -> WayStore.count s i = 0%nat ->
     WayStore.count (WayStore.insert_back i nv s) i = 1%nat /\
     WayStore.at_ (WayStore.insert_back i nv s) i = Ret nv) /\
  (forall s i nv nv0, 0 <= i < 4294967296 -> WayStore.at_ s i = Ret nv0 ->
     WayStore.insert_back i nv s = s) /\
  (forall s i wv, RelationStore.count s i = 0%nat ->
     RelationStore.count (RelationStore.insert_back i wv s) i = 1%nat /\
     RelationStore.at_ (RelationStore.insert_back i wv s) i = Ret wv) /\
  (forall s i wv wv0, RelationStore.at_ s i = Ret wv0 ->
     RelationStore.insert_back i wv s = s) /\
  (forall (a : KeyValArrays ValT) k v,
     reachable a -> Forall (fun x => x < k) (keys a) ->
     count (snd (insert_back k v a)) k = 1%nat /\
     at_ (snd (insert_back k v a)) k = Ret v) /\
  (forall (a : KeyValArrays ValT) k v,
     reachable a -> count a k = 1%nat ->
     insert_back k v a = (Some out_of_range, a)) /\
  (forall (ia : IndexedKeyValArrays ValT) k vs,
     ireachable ia -> Forall (fun x => x < k) (ikeys ia) ->
     icount (snd (iinsert_back k vs ia)) k = 1%nat /\
     exists be, iat (snd (iinsert_back k vs ia)) k = Ret be /\
       range (ivalues (snd (iinsert_back k vs ia))) be = vs) /\
  (forall (ia : IndexedKeyValArrays ValT) k vs,
     ireachable ia -> icount ia k = 1%nat ->
     iinsert_back k vs ia = (Some out_of_range, ia)).
Proof.
  repeat apply conj.
  - intros [m] i c Hc. apply map_insert_fresh. exact Hc.
  - intros [m] i c c0 Hat. unfold NodeStore.insert_back. simpl.
    f_equal. eapply map_insert_present, Hat.
  - intros [m] i nv Hi Hc.
    unfold WayStore.count, WayStore.at_, WayStore.insert_back. simpl.
    rewrite to_uint32_to_int by exact Hi. apply map_insert_fresh. exact Hc.
  - intros [m] i nv nv0 Hi Hat. unfold WayStore.insert_back. simpl.
    rewrite to_uint32_to_int by exact Hi.
    f_equal. eapply map_insert_present, Hat.
  - intros [m] i wv Hc. apply map_insert_fresh. exact Hc.
  - intros [m] i wv wv0 Hat. unfold RelationStore.insert_back. simpl.
    f_equal. eapply map_insert_present, Hat.
  - intros a k v Hreach Hall.
    destruct (insert_back_fresh a k v (reachable_inv a Hreach)
                (greater_key _ _ Hall)) as (_ & _ & _ & Hat & Hc).
    split; assumption.
  - intros a k v Hreach Hc. apply reachable_inv in Hreach.
    apply insert_back_throws, smaller_key_true; [apply Hreach |].
    apply count_1_stored; assumption.
  - intros ia k vs Hreach Hall.
    destruct (iinsert_back_fresh ia k vs (ireachable_iinv ia Hreach)
                (greater_key _ _ Hall)) as (_ & _ & _ & Hat & Hc).
    split; assumption.
  - intros ia k vs Hreach Hc. apply ireachable_iinv in Hreach.
    apply iinsert_back_throws, smaller_key_true; [apply Hreach |].
    apply icount_1_stored; assumption.
Qed.

Lemma C1_insert_then_lookup_witness :
  (NodeStore.count (NodeStore.insert_back 7 (mkLatpLon 1 2) (NodeStore.mk ∅))
     7 = 1%nat /\
   NodeStore.at_ (NodeStore.insert_back 7 (mkLatpLon 1 2) (NodeStore.mk ∅)) 7
   = Ret (mkLatpLon 1 2)) /\
  NodeStore.insert_back 1 (mkLatpLon 9 9) Sample.sample_nodes
  = Sample.sample_nodes /\
  (WayStore.count (WayStore.insert_back 4294967000 [1; 2] (WayStore.mk ∅))
     4294967000 = 1%nat /\
   WayStore.at_ (WayStore.insert_back 4294967000 [1; 2] (WayStore.mk ∅))
     4294967000 = Ret [1; 2]) /\
  WayStore.insert_back 10 [] Sample.sample_ways = Sample.sample_ways /\
  (count (snd (insert_back 7 70 (snd (insert_back 5 50 empty)))) 7 = 1%nat /\
   at_ (snd (insert_back 7 70 (snd (insert_back 5 50 empty)))) 7 = Ret 70) /\
  insert_back 5 51 (snd (insert_back 5 50 empty))
  = (Some out_of_range, snd (insert_back 5 50 empty)) /\
  iinsert_back 5 [51] (snd (iinsert_back 5 [50] iempty))
  = (Some out_of_range, snd (iinsert_back 5 [50] iempty)).
Proof.
  destruct (@C1_insert_then_lookup Z)
    as (N1 & N2 & W1 & W2 & _ & _ & A1 & A2 & _ & I2).
  repeat apply conj.
  - apply N1. reflexivity.
  - apply N1. reflexivity.
  - apply (N2 _ 1 _ (mkLatpLon 0 0)). vm_compute. reflexivity.
  - apply W1; [lia | reflexivity].
  - apply W1; [lia | reflexivity].
  - apply (W2 _ 10 _ [1; 2; 3; 4; 1]); [lia | vm_compute; reflexivity].
  - apply A1; [apply reach_insert, reach_empty | repeat constructor].
  - apply A1; [apply reach_insert, reach_empty | repeat constructor].
  - apply A2; [apply reach_insert, reach_empty | reflexivity].
  - apply I2; [apply ireach_insert, ireach_empty | reflexivity].
Defined.

End StoreClaims.

(** ** fillPoints *)

Section FillFacts.
Import OsmStore Spec.

Lemma geom_equals_refl p : geom_equals p p = true.
Proof.
  unfold geom_equals. apply andb_true_intro.
  split; apply Qeq_bool_iff; reflexivity.
Qed.

Lemma geom_equals_sym p q : geom_equals p q = geom_equals q p.
Proof.
  unfold geom_equals. f_equal; apply eq_true_iff_eq;
    rewrite !Qeq_bool_iff; split; intros H; symmetry; exact H.
Qed.

Lemma geom_equals_trans p q r :
  geom_equals p q = true -> geom_equals q r = true -> geom_equals p r = true.
Proof.
  unfold geom_equals. rewrite !andb_true_iff, !Qeq_bool_iff.
  intros [H1 H2] [H3 H4]. split; etransitivity; eauto.
Qed.

(** The loop only appends to the sink, and what it appends depends on the
    sink through [lastP] alone. *)
Lemma fill_loop_frame ns nodeList :
  forall points lastP nodeCnt,
    fill_loop ns nodeList points lastP nodeCnt
    = (fst (fill_loop ns nodeList [] lastP 0),
       (points ++ fst (snd (fill_loop ns nodeList [] lastP 0)),
        (nodeCnt + length (fst (snd (fill_loop ns nodeList [] lastP 0))))%nat)).
Proof.
  induction nodeList as [|n nodeList IH]; intros points lastP nodeCnt; simpl.
  - rewrite app_nil_r, Nat.add_0_r. reflexivity.
  - destruct (NodeStore.at_ ns n) as [ll|e]; simpl.
    + destruct (geom_equals (make_point ll) lastP); simpl.
      * apply IH.
      * rewrite (IH (points ++ [make_point ll])).
        rewrite (IH [make_point ll]). simpl.
        rewrite <- app_assoc. simpl. do 3 f_equal. lia.
    + rewrite app_nil_r, Nat.add_0_r. reflexivity.
Qed.

Lemma fill_loop_pushed s nodeList points lastP :
  fill_loop (nodes s) nodeList points lastP 0
  = (thrown s nodeList lastP,
     (points ++ pushed s nodeList lastP, length (pushed s nodeList lastP))).
Proof. rewrite fill_loop_frame. reflexivity. Qed.

Lemma count_1_at ns n :
  NodeStore.count ns n = 1%nat -> exists ll, NodeStore.at_ ns n = Ret ll.
Proof.
  unfold NodeStore.count, NodeStore.at_, map_count, map_at.
  destruct (NodeStore.mLatpLons ns !! n) as [ll|]; [eauto | discriminate].
Qed.

Lemma thrown_resolvable s nodeList :
  resolvable s nodeList -> forall lastP, thrown s nodeList lastP = None.
Proof.
  unfold thrown. induction 1 as [|n nodeList Hn _ IH]; intros lastP.
  - reflexivity.
  - cbn [fill_loop]. destruct (count_1_at _ _ Hn) as [ll ->].
    destruct (geom_equals (make_point ll) lastP); simpl.
    + apply IH.
    + rewrite fill_loop_frame. simpl. apply IH.
Qed.

Lemma insert_middle {A} (l1 l2 : list A) (x y : A) (n : nat) :
  n = length l1 -> <[n:=y]> (l1 ++ x :: l2) = l1 ++ y :: l2.
Proof.
  intros ->. induction l1 as [|z l1 IH]; simpl; [reflexivity |].
  f_equal. exact IH.
Qed.

(** The swap of two positions that hold [x] and [y]. *)
Lemma iter_swap_ends (pre mid post : list Point) (x y : Point) :
  iter_swap (pre ++ x :: mid ++ y :: post) (length pre)
    (length pre + length mid + 1)
  = pre ++ y :: mid ++ x :: post.
Proof.
  unfold iter_swap.
  rewrite list_lookup_middle by reflexivity.
  replace (pre ++ x :: mid ++ y :: post)
    with ((pre ++ x :: mid) ++ y :: post) at 1
    by (rewrite <- app_assoc; reflexivity).
  rewrite list_lookup_middle
    by (rewrite length_app; simpl; lia).
  rewrite (insert_middle pre (mid ++ y :: post) x y) by reflexivity.
  replace (pre ++ y :: mid ++ y :: post)
    with ((pre ++ y :: mid) ++ y :: post)
    by (rewrite <- app_assoc; reflexivity).
  rewrite (insert_middle (pre ++ y :: mid) post y x)
    by (rewrite length_app; simpl; lia).
  rewrite <- app_assoc. reflexivity.
Qed.

(** The loop reverses the part of the sink between the two iterators. *)
Lemma reverse_loop_spec (rounds : nat) :
  forall pre mid post : list Point,
    (length mid <= 2 * rounds + 1)%nat ->
    reverse_loop rounds (pre ++ mid ++ post)
      (Z.of_nat (length pre)) (Z.of_nat (length pre + length mid) - 1)
    = pre ++ reverse mid ++ post.
Proof.
  assert (Hshort : forall mid : list Point,
            (length mid <= 1)%nat -> reverse mid = mid).
  { intros [|x [|y mid]]; simpl; intros H; try reflexivity; lia. }
  induction rounds as [|rounds IH]; intros pre mid post Hlen.
  - simpl. rewrite Hshort by lia. reflexivity.
  - cbn [reverse_loop].
    destruct (Z.ltb_spec (Z.of_nat (length pre))
                (Z.of_nat (length pre + length mid) - 1)) as [Hlt|Hge].
    + destruct mid as [|x mid]; [simpl in Hlt; lia |].
      destruct (exists_last (l := mid)) as [mid' [y Hy]].
      { intros ->. simpl in Hlt. lia. }
      subst mid.
      rewrite Nat2Z.id.
      replace (Z.to_nat (Z.of_nat (length pre + length (x :: mid' ++ [y])) - 1))
        with (length pre + length mid' + 1)%nat
        by (simpl; rewrite length_app; simpl; lia).
      replace (pre ++ (x :: mid' ++ [y]) ++ post)
        with (pre ++ x :: mid' ++ y :: post)
        by (simpl; rewrite <- app_assoc; reflexivity).
      rewrite iter_swap_ends.
      replace (pre ++ y :: mid' ++ x :: post)
        with ((pre ++ [y]) ++ mid' ++ (x :: post))
        by (rewrite <- app_assoc; reflexivity).
      replace (Z.of_nat (length pre) + 1)
        with (Z.of_nat (length (pre ++ [y])))
        by (rewrite length_app; simpl; lia).
      replace (Z.of_nat (length pre + length (x :: mid' ++ [y])) - 1 - 1)
        with (Z.of_nat (length (pre ++ [y]) + length mid') - 1)
        by (simpl; rewrite !length_app; simpl; lia).
      rewrite IH by (simpl in Hlen; rewrite length_app in Hlen; simpl in Hlen; lia).
      rewrite reverse_cons, reverse_snoc. simpl.
      rewrite <- !app_assoc. reflexivity.
    + rewrite Hshort by lia. reflexivity.
Qed.

(** What a call does to the sink. *)
Lemma fillPoints_spec s points nodeList rev :
  fillPoints s points nodeList rev
  = let lastP := last_point points in
    match thrown s nodeList lastP with
    | Some e => Done (Some e, points ++ pushed s nodeList lastP)
    | None =>
        if rev
        then match points ++ pushed s nodeList lastP with
             | [] => Underrun
             | _ :: _ =>
                 Done (None, points ++ reverse (pushed s nodeList lastP))
             end
        else Done (None, points ++ pushed s nodeList lastP)
    end.
Proof.
  unfold fillPoints. rewrite fill_loop_pushed. cbv zeta.
  destruct (thrown s nodeList (last_point points)); [reflexivity |].
  destruct rev; [| reflexivity].
  set (ps := pushed s nodeList (last_point points)).
  destruct (points ++ ps) as [|p l] eqn:Hsink; [reflexivity |].
  rewrite <- Hsink. do 2 f_equal.
  pose proof (reverse_loop_spec (length ps) points ps []) as Hrev.
  rewrite !app_nil_r in Hrev.
  rewrite <- Hrev by lia. f_equal; rewrite length_app; lia.
Qed.

(** What a call on a local sink gives. *)
Lemma fill_spec s points nodeList rev :
  fill s points nodeList rev
  = let lastP := last_point points in
    match thrown s nodeList lastP with
    | Some e => Raise e
    | None =>
        if rev
        then match points ++ pushed s nodeList lastP with
             | [] => Underrun
             | _ :: _ => Done (points ++ reverse (pushed s nodeList lastP))
             end
        else Done (points ++ pushed s nodeList lastP)
    end.
Proof.
  unfold fill. rewrite fillPoints_spec. cbv zeta.
  destruct (thrown s nodeList (last_point points)); [reflexivity |].
  destruct rev; [| reflexivity].
  destruct (points ++ pushed s nodeList (last_point points)); reflexivity.
Qed.

(** The 32-bit value of a field. *)
Lemma to_int_range (z : Z) : -2147483648 <= to_int z < 2147483648.
Proof. unfold to_int. Z.div_mod_to_equations. lia. Qed.

(** No translated point is the dummy: its coordinates lie beyond those of
    every 32-bit field. *)
Lemma make_point_not_dummy (ll : LatpLon) :
  geom_equals (make_point ll) dummy = false.
Proof.
  unfold geom_equals, make_point, dummy. cbn [px py].
  apply andb_false_intro1. apply not_true_iff_false. intros Heq.
  apply Qeq_bool_iff in Heq.
  pose proof (to_int_range (lon_field ll)) as Hr. fold (lon ll) in Hr.
  revert Heq. generalize (lon ll) Hr. intros z Hz.
  unfold Qeq, Qdiv, Qmult, Qinv, inject_Z. cbn [Qnum Qden].
  lia.
Qed.

(** The first node of a sequence that is filled into an empty sink gives
    a point. *)
Lemma pushed_start s n nodeList :
  thrown s (n :: nodeList) dummy = None -> pushed s (n :: nodeList) dummy <> [].
Proof.
  unfold thrown, pushed. cbn [fill_loop].
  destruct (NodeStore.at_ (nodes s) n) as [ll|e]; [| discriminate].
  rewrite make_point_not_dummy. cbn [negb]. intros _.
  rewrite fill_loop_frame. cbn [fst snd]. discriminate.
Qed.

Lemma fill_forward s points nodeList :
  resolvable s nodeList ->
  fill s points nodeList false
  = Done (points ++ pushed s nodeList (last_point points)).
Proof.
  intros Hres. rewrite fill_spec. cbv zeta.
  rewrite thrown_resolvable by exact Hres. reflexivity.
Qed.

Lemma fill_reverse s points nodeList :
  resolvable s nodeList -> points <> [] ->
  fill s points nodeList true
  = Done (points ++ reverse (pushed s nodeList (last_point points))).
Proof.
  intros Hres Hne. rewrite fill_spec. cbv zeta.
  rewrite thrown_resolvable by exact Hres.
  destruct points; [contradiction | reflexivity].
Qed.

(** A sink that holds a point holds one after a call, and so does an
    empty sink after a call without [reverse] for a node sequence that is
    not empty. *)
Lemma fill_nonempty s points nodeList rev ring :
  fill s points nodeList rev = Done ring ->
  points <> [] \/ (rev = false /\ nodeList <> []) -> ring <> [].
Proof.
  rewrite fill_spec. cbv zeta. intros Hfill Hcase.
  destruct (thrown s nodeList (last_point points)) eqn:Hthrown;
    [discriminate |].
  assert (Hsink : points ++ pushed s nodeList (last_point points) <> []).
  { intros Hnil. apply app_eq_nil in Hnil as [Hp Hpts].
    destruct Hcase as [Hne|[_ Hne]]; [contradiction |].
    subst points. destruct nodeList as [|n nodeList]; [contradiction |].
    revert Hpts. apply pushed_start. exact Hthrown. }
  destruct rev.
  - destruct (points ++ pushed s nodeList (last_point points)) eqn:Hs;
      [discriminate |].
    inversion Hfill as [Hring]. intros Hnil.
    apply app_eq_nil in Hnil as [Hp Hpts].
    apply (f_equal reverse) in Hpts. rewrite reverse_involutive in Hpts.
    rewrite Hpts, Hp in Hs. discriminate.
  - inversion Hfill as [Hring]. exact Hsink.
Qed.

(** A call never runs out of rounds and reads no element outside a
    vector; it goes through an iterator outside the sink only with
    [reverse] on a sink that is empty. *)
Lemma fill_cases s points nodeList rev :
  (exists ring, fill s points nodeList rev = Done ring) \/
  fill s points nodeList rev = Raise out_of_range \/
  (fill s points nodeList rev = Underrun /\ rev = true /\ points = []).
Proof.
  rewrite fill_spec. cbv zeta.
  destruct (thrown s nodeList (last_point points)) as [e|] eqn:Hthrown.
  - destruct e. right. left. reflexivity.
  - destruct rev; [| left; eauto].
    destruct points as [|p points]; [| left; simpl; eauto].
    destruct (pushed s nodeList (last_point [])); simpl; [| left; eauto].
    right. right. auto.
Qed.

End FillFacts.

Section FillClaims.
Import OsmStore Spec.

Lemma adjacent_equal_snoc (l : list Point) (p : Point) :
  adjacent_equal (l ++ [p])
  = adjacent_equal l
    || match last l with
       | Some q => geom_equals q p
       | None => false
       end.
Proof.
  induction l as [|a l IH]; [reflexivity |].
  destruct l as [|b l]; [simpl; rewrite orb_false_r; reflexivity |].
  change (adjacent_equal ((a :: b :: l) ++ [p]))
    with (geom_equals a b || adjacent_equal ((b :: l) ++ [p])).
  rewrite IH, last_cons_cons. simpl. rewrite orb_assoc. reflexivity.
Qed.

Lemma adjacent_equal_cons (l : list Point) (p : Point) :
  adjacent_equal (p :: l)
  = match head l with
    | Some q => geom_equals p q
    | None => false
    end || adjacent_equal l.
Proof. destruct l; reflexivity. Qed.

Lemma adjacent_equal_reverse (l : list Point) :
  adjacent_equal (reverse l) = adjacent_equal l.
Proof.
  induction l as [|a l IH]; [reflexivity |].
  rewrite reverse_cons, adjacent_equal_snoc, adjacent_equal_cons, IH.
  rewrite last_reverse, orb_comm. f_equal.
  destruct (head l); [apply geom_equals_sym | reflexivity].
Qed.

(** The loop keeps the sink free of equal neighbours, provided [lastP]
    equals the last point of the sink. *)
Lemma fill_loop_no_adjacent ns nodeList :
  forall points lastP nodeCnt,
    adjacent_equal points = false ->
    (forall q, last points = Some q -> geom_equals lastP q = true) ->
    adjacent_equal (fst (snd (fill_loop ns nodeList points lastP nodeCnt)))
    = false.
Proof.
  induction nodeList as [|n nodeList IH]; intros points lastP nodeCnt Hadj Hlast.
  - exact Hadj.
  - cbn [fill_loop]. destruct (NodeStore.at_ ns n) as [ll|e]; [| exact Hadj].
    destruct (geom_equals (make_point ll) lastP) eqn:Heq; simpl.
    + apply IH; [exact Hadj |].
      intros q Hq. eapply geom_equals_trans; [exact Heq | auto].
    + apply IH.
      * rewrite adjacent_equal_snoc, Hadj. simpl.
        destruct (last points) as [q|] eqn:Hq; [| reflexivity].
        destruct (geom_equals q (make_point ll)) eqn:Hqp; [| reflexivity].
        rewrite <- Heq. symmetry.
        rewrite geom_equals_sym in Hqp.
        eapply geom_equals_trans; [exact Hqp |].
        rewrite geom_equals_sym. auto.
      * intros q Hq. rewrite last_snoc in Hq.
        inversion Hq. apply geom_equals_refl.
Qed.

Lemma last_point_last (points : list Point) (q : Point) :
  last points = Some q -> geom_equals (last_point points) q = true.
Proof. unfold last_point. intros ->. apply geom_equals_refl. Qed.

Lemma pushed_no_adjacent s nodeList lastP :
  adjacent_equal (pushed s nodeList lastP) = false.
Proof.
  unfold pushed. apply fill_loop_no_adjacent; [reflexivity |].
  intros q Hq. discriminate.
Qed.

Lemma adjacent_equal_app (a b : list Point) :
  adjacent_equal (a ++ b)
  = adjacent_equal a || adjacent_equal b
    || match last a, head b with
       | Some q, Some p => geom_equals q p
       | _, _ => false
       end.
Proof.
  induction a as [|x a IH].
  - simpl. rewrite orb_false_r. reflexivity.
  - change ((x :: a) ++ b) with (x :: (a ++ b)).
    rewrite (adjacent_equal_cons (a ++ b)), (adjacent_equal_cons a), IH.
    destruct a as [|y a].
    + simpl. destruct (head b) as [p|]; simpl.
      * rewrite orb_false_r. apply orb_comm.
      * rewrite orb_false_r. reflexivity.
    + rewrite last_cons_cons. cbn [app head].
      rewrite <- !orb_assoc. reflexivity.
Qed.

(** Without [reverse] a call keeps the sink free of equal neighbours: a
    translated point is pushed only if it differs from the point
    translated before it, at first from the last point of the sink. *)
Lemma fillPoints_forward_no_adjacent s points nodeList r :
  adjacent_equal points = false ->
  fillPoints s points nodeList false = Done r ->
  adjacent_equal (snd r) = false.
Proof.
  intros Hadj Hfill.
  replace (snd r)
    with (fst (snd (fill_loop (nodes s) nodeList points
                      (last_point points) 0))).
  - apply fill_loop_no_adjacent; [exact Hadj | apply last_point_last].
  - rewrite fillPoints_spec in Hfill. rewrite fill_loop_pushed.
    cbv zeta in Hfill.
    destruct (thrown s nodeList (last_point points));
      inversion Hfill; reflexivity.
Qed.

(** With [reverse] the points of the way are compared with the sink before
    they are reversed, so the point that comes to stand next to the former
    content is the last one pushed, which was compared with its predecessor
    only: two neighbours of the sink are equal exactly when the last point
    pushed equals the last point of the former content. *)
Lemma fillPoints_reverse_adjacent s points nodeList sink :
  adjacent_equal points = false ->
  fillPoints s points nodeList true = Done (None, sink) ->
  adjacent_equal sink
  = match last points, last (pushed s nodeList (last_point points)) with
    | Some q, Some p => geom_equals q p
    | _, _ => false
    end.
Proof.
  intros Hadj Hfill. rewrite fillPoints_spec in Hfill. cbv zeta in Hfill.
  destruct (thrown s nodeList (last_point points)); [discriminate |].
  destruct (points ++ pushed s nodeList (last_point points));
    [discriminate |].
  inversion Hfill as [Hsink].
  rewrite adjacent_equal_app, Hadj, adjacent_equal_reverse,
    pushed_no_adjacent, head_reverse.
  reflexivity.
Qed.

(** C4.  [fillPoints] does not keep the sink free of equal neighbours
    where a way is joined in reverse.  The assembly of the relation whose
    outer ways are 40 and 41 joins way 41 in reverse, since its last node
    is where way 40 ends; the ring that is then built from the result holds
    the point of that node twice in a row.  The call of [fillPoints] that
    appends way 41 gets a sink without equal neighbours and leaves one with
    two equal neighbours: the first point of the way as stored is compared
    with the last point of the sink, the last one comes to stand next to
    it. *)
Theorem C4_reversed_way_repeats_junction :
  @correctMultiPolygonRelation Sample.box_geometry Sample.sample_store
    [40; 41] []
  = Done [40; PSEUDO_WAY_REVERSE_MARK; 41] /\
  ring_loop Sample.sample_store [40; PSEUDO_WAY_REVERSE_MARK; 41] []
  = Done ([Sample.pt 0 0; Sample.pt 20 0; Sample.pt 20 20;
           Sample.pt 20 20; Sample.pt 0 20; Sample.pt 0 0], []) /\
  WayStore.at_ (ways Sample.sample_store) 41 = Ret [1; 4; 3] /\
  fillPoints Sample.sample_store
    [Sample.pt 0 0; Sample.pt 20 0; Sample.pt 20 20] [1; 4; 3] true
  = Done (None, [Sample.pt 0 0; Sample.pt 20 0; Sample.pt 20 20;
                 Sample.pt 20 20; Sample.pt 0 20; Sample.pt 0 0]) /\
  adjacent_equal [Sample.pt 0 0; Sample.pt 20 0; Sample.pt 20 20] = false /\
  adjacent_equal [Sample.pt 0 0; Sample.pt 20 0; Sample.pt 20 20;
                  Sample.pt 20 20; Sample.pt 0 20; Sample.pt 0 0] = true.
Proof. repeat split; vm_compute; reflexivity. Qed.

(** C6.  The loop of [fillPoints] leaves the sink as its former content
    followed by the [k] points it pushed.  With [reverse], a call that
    returns leaves the former content followed by those [k] points in
    reverse order; so every point that was in the sink keeps its value and
    its position.  A call whose nodes all resolve returns, unless the sink
    is empty after the loop: then the swap loop starts from an iterator
    before the beginning of the sink. *)
Theorem C6_reverse_in_place s points nodeList :
  exists (k : nat) (block : list Point),
    snd (fill_loop (nodes s) nodeList points (last_point points) 0)
    = (points ++ block, k) /\
    k = length block /\
    fillPoints s points nodeList true
    = match fst (fill_loop (nodes s) nodeList points (last_point points) 0)
      with
      | None =>
          match points ++ block with
          | [] => Underrun
          | _ :: _ => Done (None, points ++ reverse block)
          end
      | Some e => Done (Some e, points ++ block)
      end /\
    (resolvable s nodeList -> points ++ block <> [] ->
     fillPoints s points nodeList true
     = Done (None, points ++ reverse block)) /\
    (forall r, fillPoints s points nodeList true = Done r ->
       take (length points) (snd r) = points).
Proof.
  exists (length (pushed s nodeList (last_point points))),
         (pushed s nodeList (last_point points)).
  rewrite fill_loop_pushed, fillPoints_spec. cbv zeta. simpl.
  split; [reflexivity |]. split; [reflexivity |].
  split; [| split].
  - destruct (thrown s nodeList (last_point points)); reflexivity.
  - intros Hres Hne. rewrite thrown_resolvable by exact Hres.
    destruct (points ++ pushed s nodeList (last_point points));
      [contradiction | reflexivity].
  - intros r.
    destruct (thrown s nodeList (last_point points)).
    + intros Hr. inversion Hr. simpl. apply take_app_length.
    + destruct (points ++ pushed s nodeList (last_point points));
        [discriminate |].
      intros Hr. inversion Hr. simpl. apply take_app_length.
Qed.

Lemma C6_reverse_in_place_witness :
  exists (k : nat) (block : list Point),
    snd (fill_loop Sample.sample_nodes [1; 4; 3]
           [Sample.pt 7 7; Sample.pt 0 0] (Sample.pt 0 0) 0)
    = ([Sample.pt 7 7; Sample.pt 0 0] ++ block, k) /\
    k = length block /\
    fillPoints Sample.sample_store [Sample.pt 7 7; Sample.pt 0 0] [1; 4; 3]
      true
    = Done (None, [Sample.pt 7 7; Sample.pt 0 0] ++ reverse block).
Proof.
  destruct (C6_reverse_in_place Sample.sample_store
              [Sample.pt 7 7; Sample.pt 0 0] [1; 4; 3])
    as (k & block & Hloop & Hk & _ & Hrev & _).
  exists k, block. split; [exact Hloop |]. split; [exact Hk |].
  apply Hrev; [unfold resolvable; repeat constructor | discriminate].
Defined.

(** C5.  For a stored way whose nodes all resolve, and for every sink:
    [fillPoints] without [reverse] returns, and [fillPoints] with
    [reverse] returns unless the sink is empty after the loop; when it
    returns, it has appended the reverse of the points that the call
    without [reverse] appends.  So, the way being stored under an
    identifier below the marks, whenever the points are assembled for
    [PSEUDO_WAY_REVERSE_MARK] followed by the way they are the reverse of
    the points assembled for the way alone.  Both assemblies are performed
    on a sink that holds a point, and on an empty one if a node of the way
    gives a point; on an empty sink to which the way adds nothing the
    assembly with the mark goes through an iterator before the beginning
    of the sink. *)
Theorem C5_reverse_mark s w nodeList points :
  WayStore.at_ (ways s) w = Ret nodeList ->
  resolvable s nodeList ->
  exists pts,
    fillPoints s points nodeList false = Done (None, points ++ pts) /\
    fillPoints s points nodeList true
    = match points ++ pts with
      | [] => Underrun
      | _ :: _ => Done (None, points ++ reverse pts)
      end /\
    (points <> [] \/ nodeList <> [] -> points ++ pts <> []) /\
    (0 <= w < PSEUDO_WAY_REVERSE_MARK ->
     ring_loop s [w] points = Done (points ++ pts, []) /\
     ring_loop s [PSEUDO_WAY_REVERSE_MARK; w] points
     = match points ++ pts with
       | [] => Underrun
       | _ :: _ => Done (points ++ reverse pts, [])
       end).
Proof.
  intros Hat Hres.
  exists (pushed s nodeList (last_point points)).
  assert (Hf : fill s points nodeList false
               = Done (points ++ pushed s nodeList (last_point points))).
  { rewrite fill_spec. cbv zeta.
    rewrite thrown_resolvable by exact Hres. reflexivity. }
  assert (Ht : fill s points nodeList true
               = match points ++ pushed s nodeList (last_point points) with
                 | [] => Underrun
                 | _ :: _ =>
                     Done (points
                           ++ reverse (pushed s nodeList (last_point points)))
                 end).
  { rewrite fill_spec. cbv zeta.
    rewrite thrown_resolvable by exact Hres. reflexivity. }
  split; [| split; [| split]].
  - rewrite fillPoints_spec. cbv zeta.
    rewrite thrown_resolvable by exact Hres. reflexivity.
  - rewrite fillPoints_spec. cbv zeta.
    rewrite thrown_resolvable by exact Hres. reflexivity.
  - intros [Hne|Hne] Hnil; apply app_eq_nil in Hnil as [Hp Hpts].
    + contradiction.
    + subst points. destruct nodeList as [|n nodeList]; [contradiction |].
      revert Hpts. apply pushed_start.
      apply thrown_resolvable. exact Hres.
  - intros Hw.
    assert (Hend : is_ring_end w = false).
    { unfold is_ring_end, PSEUDO_WAY_OUTER_MARK, PSEUDO_WAY_INNER_MARK.
      unfold PSEUDO_WAY_REVERSE_MARK in Hw.
      apply orb_false_intro; apply Z.eqb_neq; lia. }
    assert (Hrev : (w =? PSEUDO_WAY_REVERSE_MARK) = false)
      by (apply Z.eqb_neq; lia).
    split.
    + cbn [ring_loop]. rewrite Hend, Hrev, Hat. simpl.
      rewrite Hf. reflexivity.
    + cbn [ring_loop]. rewrite Hat. simpl. rewrite Ht.
      destruct (points ++ pushed s nodeList (last_point points));
        reflexivity.
Qed.

Lemma C5_reverse_mark_witness :
  exists pts,
    fillPoints Sample.sample_store [Sample.pt 7 7] [1; 4; 3] false
    = Done (None, [Sample.pt 7 7] ++ pts) /\
    fillPoints Sample.sample_store [Sample.pt 7 7] [1; 4; 3] true
    = Done (None, [Sample.pt 7 7] ++ reverse pts) /\
    ring_loop Sample.sample_store [41] [Sample.pt 7 7]
    = Done ([Sample.pt 7 7] ++ pts, []) /\
    ring_loop Sample.sample_store [PSEUDO_WAY_REVERSE_MARK; 41]
      [Sample.pt 7 7]
    = Done ([Sample.pt 7 7] ++ reverse pts, []).
Proof.
  destruct (C5_reverse_mark Sample.sample_store 41 [1; 4; 3] [Sample.pt 7 7])
    as (pts & Hf & Ht & _ & Hring).
  - vm_compute. reflexivity.
  - unfold resolvable. repeat constructor.
  - exists pts. split; [exact Hf |]. split; [exact Ht |].
    apply Hring. unfold PSEUDO_WAY_REVERSE_MARK. lia.
Defined.

(** The case in which the reversed assembly is not performed: an empty
    sink and a way without nodes, here way 60 added to the sample store. *)
Example reverse_of_empty_way :
  fillPoints Sample.sample_store [] [] false = Done (None, []) /\
  fillPoints Sample.sample_store [] [] true = Underrun /\
  ring_loop
    (mkOSMStore Sample.sample_nodes
       (WayStore.insert_back 60 [] Sample.sample_ways) (RelationStore.mk ∅))
    [PSEUDO_WAY_REVERSE_MARK; 60] []
  = Underrun.
Proof. repeat split; vm_compute; reflexivity. Qed.

End FillClaims.

(** ** Tiles of a parent zoom *)

Section TileClaims.
Import Tilemaker.

Lemma land_shiftl_low (x y : Z) :
  0 <= y < 65536 -> Z.land (Z.shiftl x 16) y = 0.
Proof.
  intros Hy. apply Z.bits_inj'. intros n Hn.
  rewrite Z.land_spec, Z.bits_0.
  destruct (Z.ltb_spec n 16) as [Hlt|Hge].
  - rewrite Z.shiftl_spec_low by exact Hlt. reflexivity.
  - replace y with (y mod 2 ^ 16) by (apply Z.mod_small; lia).
    rewrite Z.mod_pow2_bits_high by lia. apply andb_false_r.
Qed.

(** The packing [(x << 16) | y] is [x * 65536 + y]. *)
Lemma lor_pack (x y : Z) :
  0 <= y < 65536 -> Z.lor (Z.shiftl x 16) y = x * 65536 + y.
Proof.
  intros Hy.
  rewrite <- Z.lxor_lor by (apply land_shiftl_low; exact Hy).
  rewrite <- Z.add_nocarry_lxor by (apply land_shiftl_low; exact Hy).
  rewrite Z.shiftl_mul_pow2 by lia. reflexivity.
Qed.

(** Dividing a natural number by a power of two on rationals and dropping
    the fraction is the shift to the right. *)
Lemma truncate_div_pow2 (a d : Z) :
  0 <= a -> 0 <= d ->
  truncate (inject_Z a / Qpower (inject_Z 2) d)%Q = Z.shiftr a d.
Proof.
  intros Ha Hd.
  assert (Hpow : (Qpower (inject_Z 2) d == inject_Z (2 ^ d))%Q)
    by (symmetry; apply Zpower_Qpower; exact Hd).
  assert (Hq : (inject_Z a / Qpower (inject_Z 2) d
                == inject_Z a / inject_Z (2 ^ d))%Q)
    by (rewrite Hpow; reflexivity).
  assert (Hpos : 0 < 2 ^ d) by (apply Z.pow_pos_nonneg; lia).
  unfold truncate.
  assert (Hnn : Qle_bool 0 (inject_Z a / Qpower (inject_Z 2) d)%Q = true).
  { apply Qle_bool_iff. rewrite Hq.
    apply Qle_shift_div_l.
    - replace 0%Q with (inject_Z 0) by reflexivity.
      rewrite <- Zlt_Qlt. exact Hpos.
    - rewrite Qmult_0_l. replace 0%Q with (inject_Z 0) by reflexivity.
      rewrite <- Zle_Qle. exact Ha. }
  rewrite Hnn, Hq, <- Zdiv_Qdiv, Z.shiftr_div_pow2 by exact Hd.
  reflexivity.
Qed.

(** C8.  For a tile of the base zoom packed as [(x << 16) | y] with
    [x, y < 2^16], and a zoom below the base zoom, the remapping of the
    emitter yields [((x >> d) << 16) | (y >> d)], [d] being the difference
    of the zooms. *)
Theorem C8_parent_tile_commutes (baseZoom zoom x y : Z) :
  0 <= x < 65536 -> 0 <= y < 65536 ->
  0 <= zoom < baseZoom -> baseZoom < 4294967296 ->
  parent_index baseZoom zoom (Z.lor (Z.shiftl x 16) y)
  = Z.lor (Z.shiftl (Z.shiftr x (baseZoom - zoom)) 16)
          (Z.shiftr y (baseZoom - zoom)).
Proof.
  intros Hx Hy Hz Hb.
  assert (Hd : uint (baseZoom - zoom) = baseZoom - zoom)
    by (unfold uint; apply Z.mod_small; lia).
  assert (Hshr : forall a, 0 <= a < 65536 ->
            0 <= Z.shiftr a (baseZoom - zoom) < 65536).
  { intros a Ha. rewrite Z.shiftr_div_pow2 by lia.
    assert (0 < 2 ^ (baseZoom - zoom)) by (apply Z.pow_pos_nonneg; lia).
    split; [apply Z.div_pos; lia |].
    apply Z.le_lt_trans with a; [| lia].
    apply Z.div_le_upper_bound; [lia |]. nia. }
  unfold parent_index, pow2. rewrite Hd, lor_pack by exact Hy.
  assert (Hhigh : Z.shiftr (x * 65536 + y) 16 = x).
  { rewrite Z.shiftr_div_pow2 by lia. change (2 ^ 16) with 65536.
    rewrite Z.div_add_l by lia. rewrite Z.div_small by lia. lia. }
  assert (Hlow : Z.land (x * 65536 + y) 65535 = y).
  { change 65535 with (Z.ones 16). rewrite Z.land_ones by lia.
    change (2 ^ 16) with 65536.
    rewrite Z.add_comm, Z.mod_add by lia. apply Z.mod_small. lia. }
  rewrite Hhigh, Hlow.
  rewrite !truncate_div_pow2 by lia.
  pose proof (Hshr x Hx) as Hx'. pose proof (Hshr y Hy) as Hy'.
  rewrite lor_pack by exact Hy'.
  unfold uint.
  rewrite (Z.mod_small (Z.shiftr x _)) by lia.
  rewrite (Z.mod_small (Z.shiftr y _)) by lia.
  rewrite Z.shiftl_mul_pow2 by lia. change (2 ^ 16) with 65536.
  rewrite (Z.mod_small (_ * 65536)) by lia.
  apply Z.mod_small. lia.
Qed.

Lemma C8_parent_tile_commutes_witness :
  parent_index 14 12 (Z.lor (Z.shiftl 8190 16) 5461)
  = Z.lor (Z.shiftl (Z.shiftr 8190 (14 - 12)) 16) (Z.shiftr 5461 (14 - 12)).
Proof. apply C8_parent_tile_commutes; lia. Defined.

End TileClaims.

(** ** wayListMultiPolygon *)

Section RingFacts.
Import OsmStore Spec.

Lemma bind_Done {A B} (r : run A) (f : A -> run B) (b : B) :
  bind r f = Done b -> exists a, r = Done a /\ f a = Done b.
Proof. destruct r; simpl; intros Hb; try discriminate. eauto. Qed.

Lemma mark_is_ring_end b : is_ring_end (mark b) = true.
Proof. destruct b; reflexivity. Qed.

Lemma mark_is_outer b : (mark b =? PSEUDO_WAY_OUTER_MARK) = b.
Proof. destruct b; reflexivity. Qed.

Lemma join_split (W : WayVec) :
  join_rings (fst (split_rings W)) (snd (split_rings W)) = W.
Proof.
  unfold join_rings. induction W as [|w W IH]; [reflexivity |].
  cbn [split_rings].
  destruct (Z.eqb_spec w PSEUDO_WAY_OUTER_MARK) as [->|Ho].
  - simpl. f_equal. exact IH.
  - destruct (Z.eqb_spec w PSEUDO_WAY_INNER_MARK) as [->|Hi].
    + simpl. f_equal. exact IH.
    + simpl. f_equal. exact IH.
Qed.

Lemma split_rings_mark_free (W : WayVec) :
  mark_free (fst (split_rings W)) /\
  Forall (fun g => mark_free (snd g)) (snd (split_rings W)).
Proof.
  induction W as [|w W [IH1 IH2]]; [split; constructor |].
  cbn [split_rings].
  destruct (Z.eqb_spec w PSEUDO_WAY_OUTER_MARK) as [->|Ho]; simpl.
  - split; constructor; assumption.
  - destruct (Z.eqb_spec w PSEUDO_WAY_INNER_MARK) as [->|Hi]; simpl.
    + split; constructor; assumption.
    + split; [| exact IH2]. constructor; [| exact IH1].
      unfold is_ring_end. apply orb_false_intro; apply Z.eqb_neq; assumption.
Qed.

(** On a part without marks the loop of [wayListMultiPolygon] builds the
    ring that the ways denote, and stops where the part ends. *)
Lemma ring_loop_segment s (rest : WayVec) :
  ring_stop rest ->
  forall (n : nat) (seg : WayVec) (ring0 ring : list Point),
    (length seg <= n)%nat -> mark_free seg ->
    ways_ring s seg ring0 = Done ring ->
    ring_loop s (seg ++ rest) ring0 = Done (ring, rest).
Proof.
  intros Hstop. induction n as [|n IH]; intros seg ring0 ring Hlen Hfree Hring.
  - destruct seg; [| simpl in Hlen; lia]. simpl in *.
    inversion Hring; subst.
    destruct rest as [|w rest]; [reflexivity |].
    simpl in *. rewrite Hstop. reflexivity.
  - destruct seg as [|w seg].
    + simpl in *. inversion Hring; subst.
      destruct rest as [|w rest]; [reflexivity |].
      simpl in *. rewrite Hstop. reflexivity.
    + inversion Hfree as [|? ? Hw Hfree']; subst.
      cbn [app ring_loop]. rewrite Hw.
      cbn [ways_ring] in Hring.
      destruct (w =? PSEUDO_WAY_REVERSE_MARK).
      * destruct seg as [|w' seg]; [discriminate |].
        inversion Hfree' as [|? ? Hw' Hfree'']; subst.
        cbn [app].
        apply bind_Done in Hring as (nodeList & Hat & Hring).
        apply bind_Done in Hring as (ring' & Hfill & Hring).
        rewrite Hat. cbn [bind]. rewrite Hfill. cbn [bind].
        apply IH; [simpl in Hlen; lia | assumption | assumption].
      * apply bind_Done in Hring as (nodeList & Hat & Hring).
        apply bind_Done in Hring as (ring' & Hfill & Hring).
        rewrite Hat. cbn [bind]. rewrite Hfill. cbn [bind].
        apply IH; [simpl in Hlen; lia | assumption | assumption].
Qed.

Lemma flat_groups_stop (groups : list (bool * WayVec)) :
  ring_stop (flat_map (fun g => mark (fst g) :: snd g) groups).
Proof. destruct groups as [|g groups]; simpl; [exact I | apply mark_is_ring_end]. Qed.

(** The loop over the rings follows the placement of the groups.  [head]
    tells the two states in which a round can start: before the first
    ring, or at the mark of a later one. *)
Lemma mp_loop_groups s :
  forall (groups : list (bool * WayVec)) (rounds : nat) (b : bool)
         (seg : WayVec) (mp0 mp : list Polygon) (isOuter : bool) (it : WayVec),
    (length groups < rounds)%nat ->
    mark_free seg -> Forall (fun g => mark_free (snd g)) groups ->
    (isOuter = true /\ b = true /\ it = join_rings seg groups) \/
    (isOuter = false /\ it = mark b :: join_rings seg groups) ->
    place_groups s mp0 ((b, seg) :: groups) = Done mp ->
    mp_loop rounds s it isOuter mp0 = Done mp.
Proof.
  induction groups as [|g groups IH];
    intros rounds b seg mp0 mp isOuter it Hr Hseg Hgroups Hhead Hplace;
    (destruct rounds as [|rounds]; [simpl in Hr; lia |]);
    cbn [place_groups fst snd] in Hplace;
    apply bind_Done in Hplace as (ring & Hring & Hplace);
    apply bind_Done in Hplace as (mp' & Hmp' & Hplace);
    cbn [mp_loop].
  - assert (Hst : (if isOuter then Done (true, it)
                   else match it with
                        | [] => Undefined
                        | w :: it' => Done (w =? PSEUDO_WAY_OUTER_MARK, it')
                        end) = Done (b, seg ++ [])).
    { destruct Hhead as [(-> & -> & ->)|(-> & ->)]; unfold join_rings; simpl.
      - reflexivity.
      - rewrite mark_is_outer. reflexivity. }
    rewrite Hst. cbn [bind fst snd].
    rewrite (ring_loop_segment s [] I (length seg) seg [] ring)
      by (try assumption; lia).
    cbn [bind fst snd]. rewrite Hmp'. cbn [bind].
    simpl in Hplace. exact Hplace.
  - set (rest := flat_map (fun g => mark (fst g) :: snd g) (g :: groups)).
    assert (Hst : (if isOuter then Done (true, it)
                   else match it with
                        | [] => Undefined
                        | w :: it' => Done (w =? PSEUDO_WAY_OUTER_MARK, it')
                        end) = Done (b, seg ++ rest)).
    { destruct Hhead as [(-> & -> & ->)|(-> & ->)]; unfold join_rings.
      - reflexivity.
      - rewrite mark_is_outer. reflexivity. }
    rewrite Hst. cbn [bind fst snd].
    rewrite (ring_loop_segment s rest (flat_groups_stop (g :: groups))
               (length seg) seg [] ring) by (try assumption; lia).
    cbn [bind fst snd]. rewrite Hmp'. cbn [bind].
    subst rest. cbn [flat_map app].
    inversion Hgroups as [|? ? Hg Hgroups']; subst.
    destruct g as [b' seg']. cbn [fst snd] in *.
    apply (IH rounds b' seg' mp' mp false); try assumption.
    + simpl in Hr. lia.
    + right. split; reflexivity.
Qed.

Lemma length_split_rings (W : WayVec) :
  (length (snd (split_rings W)) <= length W)%nat.
Proof.
  induction W as [|w W IH]; [reflexivity |]. cbn [split_rings].
  destruct (w =? PSEUDO_WAY_OUTER_MARK); [simpl; lia |].
  destruct (w =? PSEUDO_WAY_INNER_MARK); simpl; lia.
Qed.

(** The multipolygon of a way list is the one of its rings, placed from
    left to right. *)
Lemma wayListRings_place s (W : WayVec) (mp : list Polygon) :
  W <> [] -> place_rings s W = Done mp -> wayListRings s W = Done mp.
Proof.
  intros Hne Hplace.
  assert (Hloop : mp_loop (S (length W)) s W true [] = Done mp).
  { destruct (split_rings_mark_free W) as [Hseg Hgroups].
    eapply (mp_loop_groups s (snd (split_rings W)) _ true
              (fst (split_rings W)) [] mp true W); try assumption.
    - pose proof (length_split_rings W). lia.
    - left. split; [reflexivity |]. split; [reflexivity |].
      symmetry. apply join_split. }
  unfold wayListRings. destruct W; [congruence | exact Hloop].
Qed.

End RingFacts.

Section RingClaims.
Import OsmStore Spec.
Context `{Geometry}.

Lemma add_inner_last (mp : list Polygon) (p : Polygon) (ring : list Point) :
  add_inner (mp ++ [p]) ring
  = Done (mp ++ [mkPolygon (outer p) (inners p ++ [ring])]).
Proof.
  unfold add_inner. rewrite last_snoc, length_app. simpl.
  replace (pred (length mp + 1)) with (length mp) by lia.
  rewrite (insert_middle mp [] p) by reflexivity. reflexivity.
Qed.

(** C2.  [wayListMultiPolygon] reads the way list from left to right, cut
    at its marks into rings ([split_rings], whose parts joined again are
    the list): the first ring, and every ring after a
    [PSEUDO_WAY_OUTER_MARK], becomes the outer ring of a new polygon; every
    ring after a [PSEUDO_WAY_INNER_MARK] is appended to the inner rings of
    the polygon placed last; the result is corrected ring by ring.  In a
    store that holds the ways 10 and 11 with nodes that resolve, the list
    [10, PSEUDO_WAY_OUTER_MARK, 11] gives two polygons without inner
    rings. *)
Theorem C2_ring_placement (s : OSMStore) :
  (forall (W : WayVec) (mp : list Polygon),
     W <> [] -> place_rings s W = Done mp ->
     join_rings (fst (split_rings W)) (snd (split_rings W)) = W /\
     wayListMultiPolygon s W = Done (correct_multipolygon mp)) /\
  (forall (mp : list Polygon) (seg : WayVec) groups (ring : list Point),
     ways_ring s seg [] = Done ring ->
     place_groups s mp ((true, seg) :: groups)
     = place_groups s (mp ++ [mkPolygon ring []]) groups) /\
  (forall (mp : list Polygon) p (seg : WayVec) groups (ring : list Point),
     ways_ring s seg [] = Done ring ->
     place_groups s (mp ++ [p]) ((false, seg) :: groups)
     = place_groups s (mp ++ [mkPolygon (outer p) (inners p ++ [ring])])
         groups) /\
  (forall nodeList10 nodeList11 : NodeVec,
     WayStore.at_ (ways s) 10 = Ret nodeList10 ->
     WayStore.at_ (ways s) 11 = Ret nodeList11 ->
     resolvable s nodeList10 -> resolvable s nodeList11 ->
     exists ring10 ring11,
       wayListMultiPolygon s [10; PSEUDO_WAY_OUTER_MARK; 11]
       = Done [mkPolygon ring10 []; mkPolygon ring11 []]).
Proof.
  assert (Hgen : forall (W : WayVec) (mp : list Polygon),
            W <> [] -> place_rings s W = Done mp ->
            wayListMultiPolygon s W = Done (correct_multipolygon mp)).
  { intros W mp Hne Hplace. unfold wayListMultiPolygon.
    rewrite (wayListRings_place s W mp Hne Hplace).
    destruct W; [congruence | reflexivity]. }
  split; [| split; [| split]].
  - intros W mp Hne Hplace. split; [apply join_split | auto].
  - intros mp seg groups ring Hring.
    cbn [place_groups fst snd]. rewrite Hring. reflexivity.
  - intros mp p seg groups ring Hring.
    cbn [place_groups fst snd]. rewrite Hring. cbn [bind].
    rewrite add_inner_last. reflexivity.
  - intros nodeList10 nodeList11 H10 H11 Hres10 Hres11.
    eexists _, _.
    rewrite (Hgen _ [mkPolygon (pushed s nodeList10 dummy) [];
                     mkPolygon (pushed s nodeList11 dummy) []]);
      [reflexivity | discriminate |].
    unfold place_rings.
    change (split_rings [10; PSEUDO_WAY_OUTER_MARK; 11])
      with ([10], [(true, [11])]).
    cbn [place_groups ways_ring fst snd].
    change (10 =? PSEUDO_WAY_REVERSE_MARK) with false.
    change (11 =? PSEUDO_WAY_REVERSE_MARK) with false.
    cbv iota. rewrite H10, H11. cbn [lift bind].
    rewrite !fill_forward by assumption. reflexivity.
Qed.

End RingClaims.

Lemma C2_ring_placement_witness :
  (Spec.join_rings
     (fst (Spec.split_rings [10; OsmStore.PSEUDO_WAY_INNER_MARK; 20]))
     (snd (Spec.split_rings [10; OsmStore.PSEUDO_WAY_INNER_MARK; 20]))
   = [10; OsmStore.PSEUDO_WAY_INNER_MARK; 20] /\
   @OsmStore.wayListMultiPolygon Sample.box_geometry Sample.sample_store
     [10; OsmStore.PSEUDO_WAY_INNER_MARK; 20]
   = OsmStore.Done
       [OsmStore.mkPolygon
          [Sample.pt 0 0; Sample.pt 20 0; Sample.pt 20 20; Sample.pt 0 20;
           Sample.pt 0 0]
          [[Sample.pt 12 12; Sample.pt 18 12; Sample.pt 18 18;
            Sample.pt 12 12]]]) /\
  exists ring10 ring11,
    @OsmStore.wayListMultiPolygon Sample.box_geometry Sample.sample_store
      [10; OsmStore.PSEUDO_WAY_OUTER_MARK; 11]
    = OsmStore.Done [OsmStore.mkPolygon ring10 []; OsmStore.mkPolygon ring11 []].
Proof.
  destruct (@C2_ring_placement Sample.box_geometry Sample.sample_store)
    as (Hgen & _ & _ & Htwo).
  split.
  - refine (Hgen [10; OsmStore.PSEUDO_WAY_INNER_MARK; 20]
              [OsmStore.mkPolygon
                 [Sample.pt 0 0; Sample.pt 20 0; Sample.pt 20 20;
                  Sample.pt 0 20; Sample.pt 0 0]
                 [[Sample.pt 12 12; Sample.pt 18 12; Sample.pt 18 18;
                   Sample.pt 12 12]]] _ _);
      [discriminate | vm_compute; reflexivity].
  - apply (Htwo [1; 2; 3; 4; 1] [11; 12; 13; 14; 11]);
      try (vm_compute; reflexivity);
      unfold Spec.resolvable; repeat constructor.
Defined.

(** ** Termination of the assembly *)

Section Termination.
Import OsmStore Spec.

Lemma bind_no_timeout {A B} (r : run A) (f : A -> run B) :
  r <> Timeout -> (forall a, r = Done a -> f a <> Timeout) ->
  bind r f <> Timeout.
Proof. destruct r; simpl; intros Hr Hf; try congruence. apply Hf. reflexivity. Qed.

Lemma lift_no_timeout {A} (r : res A) : lift r <> Timeout.
Proof. destruct r; discriminate. Qed.

(** A [for] loop whose body maintains [P] ends in a state that satisfies
    [P], if it ends. *)
Lemma for_range_from_inv {St} (P : St -> Prop) (body : nat -> St -> run St) :
  (forall j t t', P t -> body j t = Done t' -> P t') ->
  forall n i s s', P s -> for_range_from i n body s = Done s' -> P s'.
Proof.
  intros Hbody. induction n as [|n IH]; intros i s s' Hs Hrun; simpl in Hrun.
  - inversion Hrun; subst. exact Hs.
  - apply bind_Done in Hrun as (t & Ht & Hrun). eauto.
Qed.

(** A [for] loop whose body does not run out of rounds does not either. *)
Lemma for_range_from_no_timeout {St} (P : St -> Prop)
    (body : nat -> St -> run St) :
  (forall j t t', P t -> body j t = Done t' -> P t') ->
  (forall j t, P t -> body j t <> Timeout) ->
  forall n i s, P s -> for_range_from i n body s <> Timeout.
Proof.
  intros Hinv Hbody. induction n as [|n IH]; intros i s Hs; simpl.
  - discriminate.
  - apply bind_no_timeout; [auto |]. intros t Ht. eauto.
Qed.

Lemma unmatched_le_length (m : list bool) : (unmatched m <= length m)%nat.
Proof. induction m as [|[] m IH]; simpl; lia. Qed.

Lemma unmatched_insert (m : list bool) (i : nat) :
  m !! i = Some false -> S (unmatched (<[i:=true]> m)) = unmatched m.
Proof.
  revert i. induction m as [|b m IH]; intros [|i] Hi; simpl in *;
    try discriminate.
  - inversion Hi; subst. reflexivity.
  - rewrite <- (IH i Hi). lia.
Qed.

(** The search leaves [nextIdx] at the start of the walk or at a way that
    is not consumed. *)
Lemma search_body_inv (m : list bool) (endCoordsVec : list (LatpLon * LatpLon))
    (currentCoord : LatpLon) (startIdx i : nat) (st st' : search) :
  s_nextIdx st = startIdx \/ m !! s_nextIdx st = Some false ->
  search_body m endCoordsVec currentCoord i st = Done st' ->
  s_nextIdx st' = startIdx \/ m !! s_nextIdx st' = Some false.
Proof.
  intros Hst. unfold search_body.
  destruct (m !! i) as [[]|] eqn:Hm; [| | discriminate];
    (destruct (endCoordsVec !! i) as [ends|]; [| discriminate]);
    intros Hrun; inversion Hrun; subst; [exact Hst |].
  unfold try_end.
  repeat match goal with
         | |- context [if ?c then _ else _] => destruct c; simpl
         end; auto.
Qed.

Lemma search_body_no_timeout (m : list bool)
    (endCoordsVec : list (LatpLon * LatpLon)) (currentCoord : LatpLon)
    (i : nat) (st : search) :
  search_body m endCoordsVec currentCoord i st <> Timeout.
Proof.
  unfold search_body.
  destruct (m !! i) as [[]|]; destruct (endCoordsVec !! i); discriminate.
Qed.

(** One round of the walk consumes the way at [nextIdx]; the way it
    chooses next is the start of the walk or a way not yet consumed. *)
Lemma walk_body_Done (wayVec : WayVec) (endCoordsVec : list (LatpLon * LatpLon))
    (startIdx : nat) (startCoord : LatpLon) (st st' : walk_state) :
  walk_body wayVec endCoordsVec startIdx startCoord st = Done st' ->
  matched st' = <[nextIdx st := true]> (matched st) /\
  (nextIdx st' = startIdx \/ matched st' !! nextIdx st' = Some false).
Proof.
  unfold walk_body.
  destruct (wayVec !! nextIdx st) as [w|]; [| discriminate].
  destruct (endCoordsVec !! nextIdx st) as [ends|]; [| discriminate].
  intros Hrun. apply bind_Done in Hrun as (found & Hfound & Hrun).
  inversion Hrun; subst; simpl. split; [reflexivity |].
  unfold for_range in Hfound.
  eapply (for_range_from_inv
            (fun f => s_nextIdx f = startIdx \/
                      <[nextIdx st := true]> (matched st) !! s_nextIdx f
                      = Some false)); [| | exact Hfound].
  - intros j t t'. apply search_body_inv.
  - left. reflexivity.
Qed.

Lemma walk_body_no_timeout (wayVec : WayVec)
    (endCoordsVec : list (LatpLon * LatpLon)) (startIdx : nat)
    (startCoord : LatpLon) (st : walk_state) :
  walk_body wayVec endCoordsVec startIdx startCoord st <> Timeout.
Proof.
  unfold walk_body.
  destruct (wayVec !! nextIdx st) as [w|]; [| discriminate].
  destruct (endCoordsVec !! nextIdx st) as [ends|]; [| discriminate].
  apply bind_no_timeout; [| discriminate].
  apply (for_range_from_no_timeout (fun _ => True)); auto.
  intros j t _. apply search_body_no_timeout.
Qed.

(** The walk ends within as many rounds as there are ways not consumed. *)
Lemma walk_no_timeout (wayVec : WayVec) (endCoordsVec : list (LatpLon * LatpLon))
    (startIdx : nat) (startCoord : LatpLon) :
  forall (rounds : nat) (st : walk_state),
    matched st !! nextIdx st = Some false ->
    (unmatched (matched st) <= rounds)%nat ->
    walk rounds wayVec endCoordsVec startIdx startCoord st <> Timeout.
Proof.
  induction rounds as [|rounds IH]; intros st Hnext Hrounds.
  - pose proof (unmatched_insert _ _ Hnext). lia.
  - cbn [walk]. apply bind_no_timeout; [apply walk_body_no_timeout |].
    intros st' Hbody.
    destruct (walk_body_Done _ _ _ _ _ _ Hbody) as [Hm [Hstart|Hfree]].
    + rewrite Hstart, Nat.eqb_refl. discriminate.
    + destruct (nextIdx st' =? startIdx)%nat; [discriminate |].
      apply IH; [exact Hfree |].
      pose proof (unmatched_insert _ _ Hnext) as Hdec.
      rewrite <- Hm in Hdec. lia.
Qed.

Lemma walk_length (wayVec : WayVec) (endCoordsVec : list (LatpLon * LatpLon))
    (startIdx : nat) (startCoord : LatpLon) :
  forall (rounds : nat) (st st' : walk_state),
    walk rounds wayVec endCoordsVec startIdx startCoord st = Done st' ->
    length (matched st') = length (matched st).
Proof.
  induction rounds as [|rounds IH]; intros st st' Hrun; [discriminate |].
  cbn [walk] in Hrun. apply bind_Done in Hrun as (st1 & Hbody & Hrun).
  destruct (walk_body_Done _ _ _ _ _ _ Hbody) as [Hm _].
  assert (Hlen : length (matched st1) = length (matched st))
    by (rewrite Hm; apply length_insert).
  destruct (nextIdx st1 =? startIdx)%nat.
  - inversion Hrun; subst. exact Hlen.
  - rewrite (IH _ _ Hrun). exact Hlen.
Qed.

End Termination.

Section TerminationClaims.
Import OsmStore Spec.
Context `{Geometry}.

(** Goals of the form [_ <> Timeout] about a sequence of steps. *)
Ltac steps :=
  repeat first
    [ discriminate
    | apply lift_no_timeout
    | apply bind_no_timeout; [| intros ? ?]
    | match goal with
      | |- (if ?c then _ else _) <> Timeout => destruct c
      | |- match ?x with _ => _ end <> Timeout => destruct x
      end ].

Lemma fill_no_timeout s points nodeList rev :
  fill s points nodeList rev <> Timeout.
Proof.
  destruct (fill_cases s points nodeList rev) as [[r ->]|[->|[-> _]]];
    discriminate.
Qed.

Lemma ways_ring_no_timeout s :
  forall (n : nat) (it : WayVec) (ring : list Point),
    (length it <= n)%nat -> ways_ring s it ring <> Timeout.
Proof.
  induction n as [|n IH]; intros it ring Hlen.
  - destruct it; [discriminate | simpl in Hlen; lia].
  - destruct it as [|w it]; [discriminate |]. cbn [ways_ring].
    destruct (w =? PSEUDO_WAY_REVERSE_MARK).
    + destruct it as [|w' it]; [discriminate |].
      apply bind_no_timeout; [apply lift_no_timeout |]. intros nl _.
      apply bind_no_timeout; [apply fill_no_timeout |]. intros r _.
      apply IH. simpl in Hlen. lia.
    + apply bind_no_timeout; [apply lift_no_timeout |]. intros nl _.
      apply bind_no_timeout; [apply fill_no_timeout |]. intros r _.
      apply IH. simpl in Hlen. lia.
Qed.

(** The loop of a ring returns a part of the way list it was given. *)
Lemma ring_loop_rest s :
  forall (n : nat) (it : WayVec) (ring : list Point),
    (length it <= n)%nat ->
    ring_loop s it ring <> Timeout /\
    forall r rest, ring_loop s it ring = Done (r, rest) ->
                   (length rest <= length it)%nat.
Proof.
  induction n as [|n IH]; intros it ring Hlen.
  - destruct it; [| simpl in Hlen; lia].
    split; [discriminate |]. intros r rest Hrun.
    inversion Hrun; subst. reflexivity.
  - destruct it as [|w it].
    { split; [discriminate |]. intros r rest Hrun.
      inversion Hrun; subst. reflexivity. }
    cbn [ring_loop]. destruct (is_ring_end w).
    { split; [discriminate |]. intros r rest Hrun.
      inversion Hrun; subst. reflexivity. }
    destruct (w =? PSEUDO_WAY_REVERSE_MARK).
    + destruct it as [|w' it]; [split; discriminate |].
      split.
      * apply bind_no_timeout; [apply lift_no_timeout |]. intros nl _.
        apply bind_no_timeout; [apply fill_no_timeout |]. intros r _.
        apply IH. simpl in Hlen. lia.
      * intros r rest Hrun.
        apply bind_Done in Hrun as (nl & _ & Hrun).
        apply bind_Done in Hrun as (ring' & _ & Hrun).
        destruct (IH it ring') as [_ Hrest]; [simpl in Hlen; lia |].
        specialize (Hrest _ _ Hrun). simpl. lia.
    + split.
      * apply bind_no_timeout; [apply lift_no_timeout |]. intros nl _.
        apply bind_no_timeout; [apply fill_no_timeout |]. intros r _.
        apply IH. simpl in Hlen. lia.
      * intros r rest Hrun.
        apply bind_Done in Hrun as (nl & _ & Hrun).
        apply bind_Done in Hrun as (ring' & _ & Hrun).
        destruct (IH it ring') as [_ Hrest]; [simpl in Hlen; lia |].
        specialize (Hrest _ _ Hrun). simpl. lia.
Qed.

Lemma add_inner_no_timeout (mp : list Polygon) (ring : list Point) :
  add_inner mp ring <> Timeout.
Proof. unfold add_inner. destruct (last mp); discriminate. Qed.

(** The loop over the rings ends within one round per element of the way
    list, and one more for a first ring that is empty. *)
Lemma mp_loop_no_timeout s :
  forall (rounds : nat) (it : WayVec) (isOuter : bool) (mp : list Polygon),
    (isOuter = true /\ (length it < rounds)%nat) \/
    (isOuter = false /\ it <> [] /\ (length it <= rounds)%nat) ->
    mp_loop rounds s it isOuter mp <> Timeout.
Proof.
  induction rounds as [|rounds IH]; intros it isOuter mp Hhead.
  - destruct Hhead as [[_ Hlt]|(_ & Hne & Hle)]; [lia |].
    destruct it; [congruence | simpl in Hle; lia].
  - cbn [mp_loop].
    assert (Hst : exists b it1,
              (if isOuter then Done (true, it)
               else match it with
                    | [] => Undefined
                    | w :: it' => Done (w =? PSEUDO_WAY_OUTER_MARK, it')
                    end) = Done (b, it1) /\ (length it1 <= rounds)%nat).
    { destruct Hhead as [[-> Hlt]|(-> & Hne & Hle)].
      - exists true, it. split; [reflexivity | lia].
      - destruct it as [|w it']; [congruence |].
        eexists _, it'. split; [reflexivity | simpl in Hle; lia]. }
    destruct Hst as (b & it1 & -> & Hlen1). cbn [bind fst snd].
    destruct (ring_loop_rest s (length it1) it1 []) as [Hnt Hrest];
      [lia |].
    apply bind_no_timeout; [exact Hnt |]. intros [r rest] Hrun.
    specialize (Hrest _ _ Hrun). cbn [fst snd].
    apply bind_no_timeout.
    + destruct b; [discriminate | apply add_inner_no_timeout].
    + intros mp' _. destruct rest as [|w rest]; [discriminate |].
      apply IH. right. split; [reflexivity |]. split; [discriminate | lia].
Qed.

Lemma wayListMultiPolygon_no_timeout s (wayList : WayVec) :
  wayListMultiPolygon s wayList <> Timeout.
Proof.
  unfold wayListMultiPolygon, wayListRings.
  destruct wayList as [|w wayList]; [discriminate |].
  apply bind_no_timeout; [| discriminate].
  apply mp_loop_no_timeout. left. split; [reflexivity | lia].
Qed.

Lemma remember_ends_no_timeout s (wayVec : WayVec) (i : nat)
    (st : list bool * list (LatpLon * LatpLon)) :
  remember_ends s wayVec i st <> Timeout.
Proof. unfold remember_ends. steps. Qed.

Lemma remember_ends_length s (wayVec : WayVec) (i : nat)
    (st st' : list bool * list (LatpLon * LatpLon)) :
  remember_ends s wayVec i st = Done st' ->
  length (fst st') = length (fst st).
Proof.
  unfold remember_ends.
  destruct (wayVec !! i) as [w|]; [| discriminate].
  destruct (WayStore.count (ways s) w =? 0)%nat.
  { intros Hrun. inversion Hrun; subst. simpl. apply length_insert. }
  intros Hrun. apply bind_Done in Hrun as (nl & _ & Hrun).
  destruct nl as [|front nl].
  { inversion Hrun; subst. simpl. apply length_insert. }
  destruct (last (front :: nl)).
  - apply bind_Done in Hrun as (cf & _ & Hrun).
    apply bind_Done in Hrun as (cb & _ & Hrun).
    inversion Hrun; subst. reflexivity.
  - inversion Hrun; subst. simpl. apply length_insert.
Qed.

Lemma construct_ring_length s (wayVec : WayVec)
    (endCoordsVec : list (LatpLon * LatpLon)) (startIdx : nat)
    (st st' : list bool * rings) :
  construct_ring s wayVec endCoordsVec startIdx st = Done st' ->
  length (fst st') = length (fst st).
Proof.
  unfold construct_ring.
  destruct (fst st !! startIdx) as [[]|]; [| | discriminate];
    (destruct (endCoordsVec !! startIdx) as [ends|]; [| discriminate]).
  { intros Hrun. inversion Hrun; subst. reflexivity. }
  intros Hrun. apply bind_Done in Hrun as (w & Hwalk & Hrun).
  apply bind_Done in Hrun as (ring & _ & Hrun).
  apply walk_length in Hwalk. simpl in Hwalk.
  destruct (negb (is_valid_ring (correct_ring ring)));
    inversion Hrun; subst; exact Hwalk.
Qed.

(** A ring is constructed within the rounds that its walk is given: one
    per way of the bag. *)
Lemma construct_ring_no_timeout s (wayVec : WayVec)
    (endCoordsVec : list (LatpLon * LatpLon)) (startIdx : nat)
    (st : list bool * rings) :
  (length (fst st) <= length wayVec)%nat ->
  construct_ring s wayVec endCoordsVec startIdx st <> Timeout.
Proof.
  intros Hlen. unfold construct_ring.
  destruct (fst st !! startIdx) as [[]|] eqn:Hm; [| | discriminate];
    (destruct (endCoordsVec !! startIdx) as [ends|]; [| discriminate]);
    [discriminate |].
  apply bind_no_timeout.
  - apply walk_no_timeout; simpl; [exact Hm |].
    pose proof (unmatched_le_length (fst st)). lia.
  - intros w _. apply bind_no_timeout.
    + eapply ways_ring_no_timeout. reflexivity.
    + intros ring _.
      destruct (negb (is_valid_ring (correct_ring ring))); discriminate.
Qed.

Lemma construct_rings_no_timeout s (wayVec : WayVec) :
  construct_rings s wayVec <> Timeout.
Proof.
  unfold construct_rings, for_range.
  apply bind_no_timeout.
  - apply (for_range_from_no_timeout (fun _ => True)); auto.
    intros j t _. apply remember_ends_no_timeout.
  - intros st Hends.
    assert (Hlen : length (fst st) = length wayVec).
    { apply (for_range_from_inv
               (fun t => length (fst t) = length wayVec)
               (remember_ends s wayVec)) in Hends; [exact Hends | |].
      - intros j t t' Ht Hrun.
        rewrite (remember_ends_length _ _ _ _ _ Hrun). exact Ht.
      - simpl. apply length_replicate. }
    apply bind_no_timeout; [| discriminate].
    apply (for_range_from_no_timeout
             (fun t : list bool * rings =>
                (length (fst t) <= length wayVec)%nat)).
    + intros j t t' Ht Hrun.
      rewrite (construct_ring_length _ _ _ _ _ _ Hrun). exact Ht.
    + intros j t Ht. apply construct_ring_no_timeout. exact Ht.
    + simpl. lia.
Qed.

Lemma find_parent_no_timeout (innerRing : list Point)
    (outerRingVec : list (list Point)) :
  find_parent innerRing outerRingVec <> Timeout.
Proof.
  unfold find_parent, for_range.
  apply (for_range_from_no_timeout (fun _ => True)); auto.
  intros j t _. unfold parent_body. steps.
Qed.

Lemma encode_rings_no_timeout (outers inners : rings) :
  encode_rings outers inners <> Timeout.
Proof.
  unfold encode_rings, for_range.
  apply bind_no_timeout.
  - apply (for_range_from_no_timeout (fun _ => True)); auto.
    intros j t _. unfold assign_inner.
    destruct (ringVec inners !! j); [| discriminate].
    destruct (wayVecVec inners !! j); [| discriminate].
    apply bind_no_timeout; [apply find_parent_no_timeout |].
    intros parent _. steps.
  - intros iw _.
    apply (for_range_from_no_timeout (fun _ => True)); auto.
    intros j t _. unfold flatten_body. steps.
Qed.

End TerminationClaims.

(** ** The parents of the inner rings *)

Section ParentFacts.
Import OsmStore Spec.
Context `{Geometry}.

(** A [for] loop whose body, at every index of the range, maintains [P]
    and returns, returns in a state that satisfies [P] at the end of the
    range. *)
Lemma for_range_from_Done {St} (P : nat -> St -> Prop)
    (body : nat -> St -> run St) :
  forall n i s,
    P i s ->
    (forall j t, (i <= j < i + n)%nat -> P j t ->
                 exists t', body j t = Done t' /\ P (S j) t') ->
    exists s', for_range_from i n body s = Done s' /\ P (i + n)%nat s'.
Proof.
  induction n as [|n IH]; intros i s Hs Hbody; simpl.
  - exists s. rewrite Nat.add_0_r. auto.
  - destruct (Hbody i s) as (t & -> & Ht); [lia | exact Hs |]. simpl.
    destruct (IH (S i) t Ht) as (s' & Hrun & Hs').
    + intros j u Hj Hu. apply Hbody; [lia | exact Hu].
    + exists s'. replace (i + S n)%nat with (S i + n)%nat by lia. auto.
Qed.

Lemma parent_body_inv (innerRing : list Point)
    (outerRingVec : list (list Point)) (j : nat) (parent : option nat) :
  (j < length outerRingVec)%nat ->
  parent_inv innerRing outerRingVec j parent ->
  exists parent',
    parent_body innerRing outerRingVec j parent = Done parent' /\
    parent_inv innerRing outerRingVec (S j) parent'.
Proof.
  intros Hj Hinv. unfold parent_body.
  destruct (lookup_lt_is_Some_2 outerRingVec j Hj) as [o Ho]. rewrite Ho.
  destruct (within innerRing o) eqn:Hin.
  - destruct parent as [p|]; simpl in Hinv.
    + destruct Hinv as (Hp & op & Hop & Hinp & Hmin). rewrite Hop.
      destruct (within o op) eqn:Hoop.
      * exists (Some j). split; [reflexivity |]. simpl.
        split; [lia |]. exists o. repeat split; try assumption.
        intros Htrans m Hm Hsm.
        destruct (decide (m = j)) as [->|Hmj]; [exact Hsm |].
        destruct (Hmin Htrans m ltac:(lia) Hsm) as (op' & Hop' & _ & Hleast).
        assert (op' = op) by congruence. subst op'.
        exists o. split; [exact Ho |]. split; [exact Hin |].
        intros x ox Hx Hox Hinx.
        destruct (decide (x = p)) as [->|Hxp].
        -- assert (ox = op) by congruence. subst ox. exact Hoop.
        -- apply (Htrans j p x o op ox); try assumption.
           apply (Hleast x ox); assumption.
      * exists (Some p). split; [reflexivity |]. simpl.
        split; [lia |]. exists op. repeat split; try assumption.
        intros Htrans m Hm Hsm.
        destruct (decide (m = j)) as [->|Hmj];
          [| apply (Hmin Htrans m); [lia | exact Hsm]].
        destruct Hsm as (o' & Ho' & _ & Hleast).
        assert (o' = o) by congruence. subst o'.
        rewrite (Hleast p op) in Hoop by (try assumption; lia).
        discriminate.
    + exists (Some j). split; [reflexivity |]. simpl.
      split; [lia |]. exists o. repeat split; try assumption.
      intros _ m Hm Hsm.
      destruct (decide (m = j)) as [->|Hmj]; [exact Hsm |].
      destruct Hsm as (om & Hom & Hinm & _).
      rewrite (Hinv m om) in Hinm by (try assumption; lia). discriminate.
  - exists parent. split; [reflexivity |].
    destruct parent as [p|]; simpl in *.
    + destruct Hinv as (Hp & op & Hop & Hinp & Hmin).
      split; [lia |]. exists op. repeat split; try assumption.
      intros Htrans m Hm Hsm.
      destruct (decide (m = j)) as [->|Hmj];
        [| apply (Hmin Htrans m); [lia | exact Hsm]].
      destruct Hsm as (o' & Ho' & Hin' & _).
      assert (o' = o) by congruence. subst o'. congruence.
    + intros i oi Hi Hoi.
      destruct (decide (i = j)) as [->|Hnj]; [congruence |].
      apply (Hinv i oi); [lia | exact Hoi].
Qed.

(** The search returns, and what it returns satisfies [parent_inv] for
    all the outer rings. *)
Lemma find_parent_spec (innerRing : list Point)
    (outerRingVec : list (list Point)) :
  exists parent,
    find_parent innerRing outerRingVec = Done parent /\
    parent_inv innerRing outerRingVec (length outerRingVec) parent.
Proof.
  unfold find_parent, for_range.
  destruct (for_range_from_Done (parent_inv innerRing outerRingVec)
              (parent_body innerRing outerRingVec)
              (length outerRingVec) 0 None) as (parent & Hrun & Hinv).
  - simpl. intros i o Hi. lia.
  - intros j t Hj Ht. apply parent_body_inv; [lia | exact Ht].
  - exists parent. auto.
Qed.

Lemma find_parent_orphan (innerRing : list Point)
    (outerRingVec : list (list Point)) :
  orphan outerRingVec innerRing ->
  find_parent innerRing outerRingVec = Done None.
Proof.
  intros Horph.
  destruct (find_parent_spec innerRing outerRingVec) as ([p|] & Hrun & Hinv);
    [| exact Hrun].
  destruct Hinv as (_ & op & Hop & Hin & _).
  rewrite (Horph p op Hop) in Hin. discriminate.
Qed.

Lemma bind_ext {A B} (r : run A) (f g : A -> run B) :
  (forall a, f a = g a) -> bind r f = bind r g.
Proof. intros Hfg. destruct r; simpl; auto. Qed.

(** The loop that assigns the inner rings goes through the pairs of a ring
    and its ways. *)
Lemma assign_loop (outerRingVec : list (list Point)) :
  forall (pairs pre : list (list Point * list Z)) (iw : list (list Z)),
    for_range_from (length pre) (length pairs)
      (assign_inner (rings_of (pre ++ pairs)) outerRingVec) iw
    = assign_all outerRingVec pairs iw.
Proof.
  induction pairs as [|p pairs IH]; intros pre iw; [reflexivity |].
  cbn [length for_range_from assign_all].
  assert (Hbody : assign_inner (rings_of (pre ++ p :: pairs)) outerRingVec
                    (length pre) iw
                  = assign_one outerRingVec (fst p) (snd p) iw).
  { unfold assign_inner, rings_of. cbn [ringVec wayVecVec].
    rewrite !list_lookup_fmap, list_lookup_middle by reflexivity.
    reflexivity. }
  rewrite Hbody. apply bind_ext. intros iw'.
  replace (pre ++ p :: pairs) with ((pre ++ [p]) ++ pairs)
    by (rewrite <- app_assoc; reflexivity).
  replace (S (length pre)) with (length (pre ++ [p]))
    by (rewrite length_app; simpl; lia).
  apply IH.
Qed.

Lemma assign_all_app (outerRingVec : list (list Point))
    (p1 p2 : list (list Point * list Z)) (iw : list (list Z)) :
  assign_all outerRingVec (p1 ++ p2) iw
  = bind (assign_all outerRingVec p1 iw) (assign_all outerRingVec p2).
Proof.
  revert iw. induction p1 as [|p p1 IH]; intros iw; [reflexivity |].
  simpl. destruct (assign_one outerRingVec (fst p) (snd p) iw); simpl; auto.
Qed.

Lemma encode_rings_pairs (outers : rings)
    (pairs : list (list Point * list Z)) :
  encode_rings outers (rings_of pairs)
  = bind (assign_all (ringVec outers) pairs
            (replicate (length (wayVecVec outers)) []))
      (fun iw => for_range (length (wayVecVec outers))
                   (flatten_body (wayVecVec outers) iw) []).
Proof.
  unfold encode_rings, for_range.
  replace (length (ringVec (rings_of pairs))) with (length pairs)
    by (unfold rings_of; simpl; rewrite length_map; reflexivity).
  rewrite (assign_loop (ringVec outers) pairs []). reflexivity.
Qed.

(** An inner ring that no outer ring contains leaves no trace in the
    encoded sequence. *)
Lemma encode_rings_orphan (outers : rings)
    (p1 p2 : list (list Point * list Z)) (r : list Point) (wv : list Z) :
  orphan (ringVec outers) r ->
  encode_rings outers (rings_of (p1 ++ (r, wv) :: p2))
  = encode_rings outers (rings_of (p1 ++ p2)).
Proof.
  intros Horph. rewrite !encode_rings_pairs, !assign_all_app.
  f_equal. apply bind_ext. intros iw.
  cbn [assign_all fst snd]. unfold assign_one.
  rewrite (find_parent_orphan r (ringVec outers) Horph). reflexivity.
Qed.

End ParentFacts.

(** *** The blocks of the encoded sequence *)

Section EncodeFacts.
Import OsmStore Spec.
Context `{Geometry}.

Lemma parent_of_spec (outerRingVec : list (list Point)) (r : list Point) :
  find_parent r outerRingVec = Done (parent_of outerRingVec r) /\
  (forall q, parent_of outerRingVec r = Some q ->
             (q < length outerRingVec)%nat).
Proof.
  unfold parent_of.
  destruct (find_parent_spec r outerRingVec) as (parent & -> & Hinv).
  split; [reflexivity |]. intros q ->. simpl in Hinv. apply Hinv.
Qed.

Lemma kids_cons (outerRingVec : list (list Point))
    (p : list Point * list Z) (pairs : list (list Point * list Z)) (j : nat) :
  kids outerRingVec (p :: pairs) j
  = (if decide (parent_of outerRingVec (fst p) = Some j) then [snd p]
     else []) ++ kids outerRingVec pairs j.
Proof.
  unfold kids. rewrite filter_cons.
  destruct (decide (parent_of outerRingVec (fst p) = Some j)); reflexivity.
Qed.

(** The loop over the inner rings appends to the ways kept for an outer
    ring the inner rings it is the parent of, in their order. *)
Lemma assign_all_kids (outerRingVec : list (list Point)) :
  forall (pairs : list (list Point * list Z)) (iw : list (list Z)),
    (length outerRingVec <= length iw)%nat ->
    assign_all outerRingVec pairs iw
    = Done (imap (fun j cur =>
                    cur ++ flat_map (fun wv => PSEUDO_WAY_INNER_MARK :: wv)
                             (kids outerRingVec pairs j)) iw).
Proof.
  induction pairs as [|p pairs IH]; intros iw Hlen.
  - cbn [assign_all]. f_equal. apply list_eq. intros j.
    rewrite list_lookup_imap. destruct (iw !! j); [| reflexivity].
    simpl. rewrite app_nil_r. reflexivity.
  - cbn [assign_all]. unfold assign_one.
    destruct (parent_of_spec outerRingVec (fst p)) as [-> Hq].
    cbn [bind].
    destruct (parent_of outerRingVec (fst p)) as [q|] eqn:Hp.
    + specialize (Hq q eq_refl).
      destruct (lookup_lt_is_Some_2 iw q) as [cur Hcur]; [lia |].
      rewrite Hcur. cbn [bind]. rewrite IH by (rewrite length_insert; lia).
      f_equal. apply list_eq. intros j. rewrite !list_lookup_imap.
      rewrite kids_cons.
      destruct (decide (q = j)) as [<-|Hne].
      * rewrite list_lookup_insert_eq by (eapply lookup_lt_Some; eauto).
        rewrite Hcur. simpl.
        rewrite decide_True by exact Hp. simpl.
        rewrite <- !app_assoc. reflexivity.
      * rewrite list_lookup_insert_ne by exact Hne.
        rewrite decide_False by congruence. reflexivity.
    + cbn [bind]. rewrite IH by exact Hlen.
      f_equal. apply imap_ext. intros j cur _. rewrite kids_cons.
      rewrite decide_False by (rewrite Hp; discriminate). reflexivity.
Qed.

(** The loop that concatenates the outer rings. *)
Lemma flatten_loop (ovv iw : list (list Z)) (f : nat -> list Z) :
  (forall j, (j < length ovv)%nat -> iw !! j = Some (f j)) ->
  forall (post pre : list (list Z)) (result : list Z),
    ovv = pre ++ post ->
    for_range_from (length pre) (length post) (flatten_body ovv iw) result
    = Done (result
            ++ concat
                 (imap (fun j o =>
                          (if (0 <? length pre + j)%nat
                           then [PSEUDO_WAY_OUTER_MARK] else [])
                          ++ o ++ f (length pre + j)%nat) post)).
Proof.
  intros Hiw. induction post as [|o post IH]; intros pre result Hovv.
  - simpl. rewrite app_nil_r. reflexivity.
  - cbn [length for_range_from]. unfold flatten_body at 1.
    rewrite Hovv at 1. rewrite list_lookup_middle by reflexivity.
    rewrite Hiw by (rewrite Hovv, length_app; simpl; lia).
    cbn [bind].
    replace (S (length pre)) with (length (pre ++ [o]))
      by (rewrite length_app; simpl; lia).
    rewrite IH by (rewrite <- app_assoc; exact Hovv).
    f_equal. rewrite imap_cons. cbn [concat].
    rewrite Nat.add_0_r, <- !app_assoc. do 5 f_equal.
    apply imap_ext. intros j x _. simpl.
    rewrite length_app. simpl.
    replace (length pre + 1 + j)%nat with (length pre + S j)%nat by lia.
    reflexivity.
Qed.

(** The encoded sequence in closed form. *)
Lemma encode_rings_blocks (outers : rings)
    (pairs : list (list Point * list Z)) :
  length (wayVecVec outers) = length (ringVec outers) ->
  encode_rings outers (rings_of pairs)
  = Done (encode_blocks (blocks outers pairs)).
Proof.
  intros Hlen. rewrite encode_rings_pairs.
  rewrite assign_all_kids by (rewrite length_replicate; lia).
  cbn [bind]. unfold for_range.
  assert (Hiw : forall j, (j < length (wayVecVec outers))%nat ->
            imap (fun j cur =>
                    cur ++ flat_map (fun wv => PSEUDO_WAY_INNER_MARK :: wv)
                             (kids (ringVec outers) pairs j))
                 (replicate (length (wayVecVec outers)) []) !! j
            = Some (flat_map (fun wv => PSEUDO_WAY_INNER_MARK :: wv)
                      (kids (ringVec outers) pairs j))).
  { intros j Hj. rewrite list_lookup_imap.
    rewrite lookup_replicate_2 by exact Hj. reflexivity. }
  pose proof (flatten_loop (wayVecVec outers) _ _ Hiw (wayVecVec outers)
                [] [] eq_refl) as Hflat.
  cbn [length app Nat.add] in Hflat. rewrite Hflat.
  f_equal. unfold encode_blocks, blocks.
  f_equal. apply list_eq. intros j. rewrite !list_lookup_imap.
  destruct (wayVecVec outers !! j); reflexivity.
Qed.

Lemma rings_of_pairs_of (rs : rings) :
  length (wayVecVec rs) = length (ringVec rs) -> rings_of (pairs_of rs) = rs.
Proof.
  intros Hlen. unfold rings_of, pairs_of. destruct rs as [wvv rv].
  simpl in *. f_equal.
  - change (map snd (zip rv wvv)) with ((zip rv wvv).*2).
    apply snd_zip. lia.
  - change (map fst (zip rv wvv)) with ((zip rv wvv).*1).
    apply fst_zip. lia.
Qed.

End EncodeFacts.

Section ParentClaims.
Import OsmStore Spec.

(** Two outer rings that overlap, and an inner ring inside both: the
    search keeps the first one, which the second does not contain. *)
Lemma C3_overlapping_outers_have_no_smallest :
  ~ (forall (G : Geometry) (innerRing : Ring) (outerRingVec : list Ring)
            (p : nat) (op : Ring),
       @find_parent G innerRing outerRingVec = Done (Some p) ->
       outerRingVec !! p = Some op ->
       forall j oj, j <> p -> outerRingVec !! j = Some oj ->
         @within G innerRing oj = true -> @within G op oj = true).
Proof.
  intros Hclaim.
  specialize (Hclaim Sample.box_geometry Sample.triangle
                [Sample.square_a; Sample.square_b] 0%nat Sample.square_a).
  specialize (Hclaim ltac:(vm_compute; reflexivity) eq_refl
                1%nat Sample.square_b ltac:(discriminate) eq_refl
                ltac:(vm_compute; reflexivity)).
  vm_compute in Hclaim. discriminate.
Qed.

(** The assembly on the same rings: the triangle is given to the first
    square. *)
Example overlapping_outers_assembly :
  @correctMultiPolygonRelation Sample.box_geometry Sample.sample_store
    [10; 11] [20]
  = Done [10; PSEUDO_WAY_INNER_MARK; 20; PSEUDO_WAY_OUTER_MARK; 11].
Proof. vm_compute. reflexivity. Qed.

(** An inner ring far from the outer ring is dropped. *)
Example orphan_inner_assembly :
  @correctMultiPolygonRelation Sample.box_geometry Sample.sample_store
    [10] [30]
  = Done [10].
Proof. vm_compute. reflexivity. Qed.

Context `{Geometry}.

(** C3 (amended).  In [correctMultiPolygonRelation] the search for the
    parent of an inner ring returns; it finds none exactly when no outer
    ring contains the inner ring; the parent it finds is an outer ring that
    contains the inner ring ([geom::within] holds) and, provided there is a
    smallest enclosing candidate ([geom::within] being transitive on the
    outer rings that contain the inner ring), it is itself within every
    other outer ring that contains the inner ring.  The loop over the inner
    rings appends the ways of an inner ring, after a
    [PSEUDO_WAY_INNER_MARK], to the ways kept for the parent that the
    search finds, and leaves them out when it finds none; so in the encoded
    sequence the ways of an inner ring stand in the block of that parent,
    and an inner ring that no outer ring contains leaves the encoded
    sequence as it is without that ring. *)
Theorem C3_inner_parent :
  (forall (innerRing : Ring) (outerRingVec : list Ring),
     exists parent,
       find_parent innerRing outerRingVec = Done parent /\
       (parent = None <-> orphan outerRingVec innerRing) /\
       (forall p, parent = Some p ->
          exists op, outerRingVec !! p = Some op /\
            within innerRing op = true /\
            (within_transitive outerRingVec innerRing ->
             (exists m, smallest outerRingVec innerRing m) ->
             forall j oj, j <> p -> outerRingVec !! j = Some oj ->
               within innerRing oj = true -> within op oj = true))) /\
  (forall (inner : rings) (outerRingVec : list Ring) (k : nat) (r : Ring)
          (wv : WayVec) (iw : list WayVec),
     ringVec inner !! k = Some r -> wayVecVec inner !! k = Some wv ->
     length iw = length outerRingVec ->
     exists parent,
       find_parent r outerRingVec = Done parent /\
       match parent with
       | None => assign_inner inner outerRingVec k iw = Done iw
       | Some p =>
           exists cur, iw !! p = Some cur /\
             assign_inner inner outerRingVec k iw
             = Done (<[p := cur ++ PSEUDO_WAY_INNER_MARK :: wv]> iw)
       end) /\
  (forall (outers inners : rings),
     length (wayVecVec outers) = length (ringVec outers) ->
     length (wayVecVec inners) = length (ringVec inners) ->
     encode_rings outers inners
     = Done (encode_blocks (blocks outers (pairs_of inners))) /\
     forall (j : nat) (wv : WayVec),
       wv ∈ kids (ringVec outers) (pairs_of inners) j <->
       exists (k : nat) (r : Ring),
         ringVec inners !! k = Some r /\ wayVecVec inners !! k = Some wv /\
         find_parent r (ringVec outers) = Done (Some j)) /\
  (forall (outers : rings) (p1 p2 : list (Ring * WayVec)) (r : Ring)
          (wv : WayVec),
     orphan (ringVec outers) r ->
     encode_rings outers (rings_of (p1 ++ (r, wv) :: p2))
     = encode_rings outers (rings_of (p1 ++ p2))).
Proof.
  split; [| split; [| split]].
  - intros innerRing outerRingVec.
    destruct (find_parent_spec innerRing outerRingVec)
      as (parent & Hrun & Hinv).
    exists parent. split; [exact Hrun |]. split.
    + split.
      * intros ->. simpl in Hinv. intros j o Hj.
        apply (Hinv j o); [| exact Hj].
        eapply lookup_lt_Some, Hj.
      * intros Horph.
        rewrite (find_parent_orphan _ _ Horph) in Hrun. congruence.
    + intros p ->. simpl in Hinv.
      destruct Hinv as (_ & op & Hop & Hin & Hmin).
      exists op. repeat split; try assumption.
      intros Htrans [m Hsm] j oj Hne Hoj Hinj.
      assert (Hm : (m < length outerRingVec)%nat).
      { destruct Hsm as (om & Hom & _). eapply lookup_lt_Some, Hom. }
      destruct (Hmin Htrans m Hm Hsm) as (op' & Hop' & _ & Hleast).
      assert (op' = op) by congruence. subst op'.
      apply (Hleast j oj); assumption.
  - intros inner outerRingVec k r wv iw Hr Hwv Hlen.
    destruct (find_parent_spec r outerRingVec) as (parent & Hrun & Hinv).
    exists parent. split; [exact Hrun |].
    unfold assign_inner. rewrite Hr, Hwv, Hrun. cbn [bind].
    destruct parent as [p|]; [| reflexivity].
    destruct Hinv as (Hp & _).
    destruct (lookup_lt_is_Some_2 iw p) as [cur Hcur]; [lia |].
    exists cur. split; [exact Hcur |]. rewrite Hcur. reflexivity.
  - intros outers inners Hlo Hli. split.
    + rewrite <- (rings_of_pairs_of inners Hli) at 1.
      apply encode_rings_blocks. exact Hlo.
    + intros j wv. unfold kids, pairs_of. split.
      * intros Hwv.
        apply list_elem_of_fmap in Hwv as ([r wv'] & -> & Hp).
        apply list_elem_of_filter in Hp as [Hparent Hp].
        cbn [fst snd] in *.
        apply list_elem_of_lookup in Hp as [k Hk].
        apply lookup_zip_Some in Hk as [Hr Hwv].
        exists k, r. split; [exact Hr |]. split; [exact Hwv |].
        destruct (parent_of_spec (ringVec outers) r) as [Hfind _].
        rewrite Hfind, Hparent. reflexivity.
      * intros (k & r & Hr & Hwv & Hfind).
        apply list_elem_of_fmap. exists (r, wv). split; [reflexivity |].
        apply list_elem_of_filter. split.
        -- cbn [fst]. unfold parent_of. rewrite Hfind. reflexivity.
        -- apply list_elem_of_lookup. exists k.
           apply lookup_zip_Some. split; assumption.
  - intros. apply encode_rings_orphan. assumption.
Qed.

End ParentClaims.

Lemma C3_inner_parent_witness :
  exists op,
    [Sample.square_a; Sample.square_b; Sample.triangle] !! 2%nat = Some op /\
    Sample.bbox_within
      [Sample.pt 13 13; Sample.pt 17 13; Sample.pt 17 17; Sample.pt 13 13] op
    = true /\
    Sample.bbox_within Sample.square_a Sample.square_b = false /\
    Sample.bbox_within Sample.square_b Sample.square_a = false /\
    Sample.bbox_within op Sample.square_a = true /\
    Sample.bbox_within op Sample.square_b = true.
Proof.
  destruct (@C3_inner_parent Sample.box_geometry) as (Hfind & _).
  destruct (Hfind
              [Sample.pt 13 13; Sample.pt 17 13; Sample.pt 17 17;
               Sample.pt 13 13]
              [Sample.square_a; Sample.square_b; Sample.triangle])
    as (parent & Hrun & _ & Hsome).
  assert (Hparent : parent = Some 2%nat)
    by (vm_compute in Hrun; congruence).
  destruct (Hsome 2%nat Hparent) as (op & Hop & Hin & Hmin).
  assert (Htrans : @Spec.within_transitive Sample.box_geometry
                     [Sample.square_a; Sample.square_b; Sample.triangle]
                     [Sample.pt 13 13; Sample.pt 17 13; Sample.pt 17 17;
                      Sample.pt 13 13]).
  { intros i j k oi oj ok Hi Hj Hk _ _ _ Hij Hjk.
    destruct i as [|[|[|i]]]; simpl in Hi; inversion Hi; subst;
      destruct j as [|[|[|j]]]; simpl in Hj; inversion Hj; subst;
        destruct k as [|[|[|k]]]; simpl in Hk; inversion Hk; subst;
          first [ vm_compute; reflexivity
                | vm_compute in Hij; discriminate
                | vm_compute in Hjk; discriminate ]. }
  assert (Hsm : exists m,
            @Spec.smallest Sample.box_geometry
              [Sample.square_a; Sample.square_b; Sample.triangle]
              [Sample.pt 13 13; Sample.pt 17 13; Sample.pt 17 17;
               Sample.pt 13 13] m).
  { exists 2%nat, Sample.triangle.
    split; [reflexivity |]. split; [vm_compute; reflexivity |].
    intros j oj Hne Hj _.
    destruct j as [|[|[|j]]]; simpl in Hj; inversion Hj; subst;
      first [ vm_compute; reflexivity | contradiction ]. }
  exists op. split; [exact Hop |]. split; [exact Hin |].
  split; [vm_compute; reflexivity |]. split; [vm_compute; reflexivity |].
  split.
  - apply (Hmin Htrans Hsm 0%nat); [discriminate | reflexivity |].
    vm_compute. reflexivity.
  - apply (Hmin Htrans Hsm 1%nat); [discriminate | reflexivity |].
    vm_compute. reflexivity.
Defined.

(** ** The assembly returns *)

Section Totality.
Import OsmStore Spec.
Context `{Geometry}.

Lemma map_count_at {V} (m : gmap Z V) (k : Z) :
  (map_count m k =? 0)%nat = false -> exists v, map_at m k = Ret v.
Proof.
  unfold map_count, map_at.
  destruct (m !! k) as [v|]; [eauto | discriminate].
Qed.

Lemma resolvable_at s (nodeList : list Z) (n : Z) :
  resolvable s nodeList -> n ∈ nodeList ->
  exists ll, NodeStore.at_ (nodes s) n = Ret ll.
Proof.
  intros Hres Hn. unfold resolvable in Hres. rewrite Forall_forall in Hres.
  apply count_1_at. auto.
Qed.

Lemma unmatched_filled_stored s (wayVec : list Z) (m : list bool) :
  unmatched_filled s wayVec m -> unmatched_stored s wayVec m.
Proof.
  intros Hfilled i Hi. destruct (Hfilled i Hi) as (w & nl & Hw & Hnl & _).
  eauto.
Qed.

(** The loop that remembers the ends returns, and leaves unconsumed only
    ways that are stored with at least one node. *)
Lemma remember_loop_Done s (wayVec : list Z) :
  store_ok s ->
  exists st,
    for_range (length wayVec) (remember_ends s wayVec)
      (replicate (length wayVec) false, replicate (length wayVec) no_coords)
    = Done st /\
    length (fst st) = length wayVec /\ length (snd st) = length wayVec /\
    unmatched_filled s wayVec (fst st).
Proof.
  intros Hok. unfold for_range.
  destruct (for_range_from_Done
              (fun j (st : list bool * list (LatpLon * LatpLon)) =>
                 length (fst st) = length wayVec /\
                 length (snd st) = length wayVec /\
                 forall i, (i < j)%nat -> fst st !! i = Some false ->
                   exists w nodeList, wayVec !! i = Some w /\
                     WayStore.at_ (ways s) w = Ret nodeList /\
                     nodeList <> [])
              (remember_ends s wayVec) (length wayVec) 0
              (replicate (length wayVec) false,
               replicate (length wayVec) no_coords))
    as (st & Hrun & Hlen1 & Hlen2 & Hstored).
  - simpl. rewrite !length_replicate. repeat split; try reflexivity.
    intros i Hi. lia.
  - intros j [m ends] Hj (Hlen1 & Hlen2 & Hstored). simpl in *.
    unfold remember_ends. cbn [fst snd].
    destruct (lookup_lt_is_Some_2 wayVec j) as [w Hw]; [lia |]. rewrite Hw.
    assert (Hmark : exists t',
              Done (<[j:=true]> m, ends) = Done t' /\
              length (fst t') = length wayVec /\
              length (snd t') = length wayVec /\
              forall i, (i < S j)%nat -> fst t' !! i = Some false ->
                exists w nodeList, wayVec !! i = Some w /\
                  WayStore.at_ (ways s) w = Ret nodeList /\
                  nodeList <> []).
    { eexists. split; [reflexivity |]. cbn [fst snd].
      rewrite length_insert. repeat split; try assumption.
      intros i Hi Hfalse.
      destruct (decide (i = j)) as [->|Hne].
      - rewrite list_lookup_insert_eq in Hfalse by lia. discriminate.
      - rewrite list_lookup_insert_ne in Hfalse by auto.
        apply Hstored; [lia | exact Hfalse]. }
    destruct (WayStore.count (ways s) w =? 0)%nat eqn:Hcount;
      [exact Hmark |].
    destruct (map_count_at _ _ Hcount) as [nl Hnl].
    unfold WayStore.at_ at 1. rewrite Hnl. cbn [lift bind].
    destruct nl as [|front nl]; [exact Hmark |].
    destruct (last (front :: nl)) as [back|] eqn:Hlast; [| exact Hmark].
    destruct (Hok w (front :: nl) Hnl) as [_ Hres].
    destruct (resolvable_at s _ front Hres) as [cf Hcf]; [constructor |].
    destruct (resolvable_at s _ back Hres) as [cb Hcb];
      [eapply last_Some_elem_of; exact Hlast |].
    rewrite Hcf, Hcb. cbn [lift bind].
    eexists. split; [reflexivity |]. cbn [fst snd].
    rewrite length_insert. repeat split; try assumption.
    intros i Hi Hfalse.
    destruct (decide (i = j)) as [->|Hne].
    + exists w, (front :: nl).
      split; [exact Hw |]. split; [exact Hnl | discriminate].
    + apply Hstored; [lia | exact Hfalse].
  - exists st. repeat split; try assumption.
    intros i Hfalse. apply Hstored; [| exact Hfalse].
    rewrite <- Hlen1. eapply lookup_lt_Some, Hfalse.
Qed.

(** The search for the nearest way returns an index of the bag. *)
Lemma search_loop_Done (m : list bool) (endCoordsVec : list (LatpLon * LatpLon))
    (currentCoord : LatpLon) (n startIdx : nat) (init : search) :
  length m = n -> length endCoordsVec = n ->
  (s_nextIdx init < n)%nat ->
  exists found,
    for_range n (search_body m endCoordsVec currentCoord) init = Done found /\
    (s_nextIdx found < n)%nat.
Proof.
  intros Hm Hends Hinit. unfold for_range.
  destruct (for_range_from_Done
              (fun (_ : nat) (f : search) => (s_nextIdx f < n)%nat)
              (search_body m endCoordsVec currentCoord) n 0 init)
    as (found & Hrun & Hfound); [exact Hinit | | eauto].
  intros j t Hj Ht. unfold search_body.
  destruct (lookup_lt_is_Some_2 m j) as [b ->]; [lia |].
  destruct (lookup_lt_is_Some_2 endCoordsVec j) as [ends ->]; [lia |].
  destruct b; [eauto |].
  eexists. split; [reflexivity |]. unfold try_end.
  repeat match goal with
         | |- context [if ?c then _ else _] => destruct c; simpl
         end; lia.
Qed.

Lemma ways_ok_app s (a b : list Z) :
  ways_ok s a -> ways_ok s b -> ways_ok s (a ++ b).
Proof.
  intros Ha Hb. induction Ha; simpl.
  - exact Hb.
  - eapply ways_ok_way; eauto.
  - eapply ways_ok_rev; eauto.
Qed.

Lemma unmatched_stored_insert s (wayVec : list Z) (m : list bool) (i : nat) :
  unmatched_stored s wayVec m -> unmatched_stored s wayVec (<[i:=true]> m).
Proof.
  intros Hst j Hj. apply Hst.
  destruct (decide (j = i)) as [->|Hne].
  - pose proof (lookup_lt_Some _ _ _ Hj) as Hlt.
    rewrite length_insert in Hlt.
    rewrite list_lookup_insert_eq in Hj by exact Hlt. discriminate.
  - rewrite list_lookup_insert_ne in Hj by auto. exact Hj.
Qed.

(** A round of the walk on an unconsumed way returns. *)
Lemma walk_body_total s (wayVec : list Z)
    (endCoordsVec : list (LatpLon * LatpLon)) (startIdx : nat)
    (startCoord : LatpLon) (st : walk_state) :
  length endCoordsVec = length wayVec ->
  (startIdx < length wayVec)%nat ->
  walk_ok s wayVec st ->
  matched st !! nextIdx st = Some false ->
  exists st',
    walk_body wayVec endCoordsVec startIdx startCoord st = Done st' /\
    walk_ok s wayVec st'.
Proof.
  intros Hends Hstart [Hlen Hnext Hstored Hways] Hfree.
  destruct (Hstored _ Hfree) as (w & nl & Hw & Hnl).
  unfold walk_body. rewrite Hw.
  destruct (lookup_lt_is_Some_2 endCoordsVec (nextIdx st)) as [ends ->];
    [lia |].
  destruct (search_loop_Done (<[nextIdx st := true]> (matched st))
              endCoordsVec (if w_reverse st then fst ends else snd ends)
              (length wayVec) startIdx
              (mkSearch (sqDist (if w_reverse st then fst ends else snd ends)
                           startCoord) startIdx (w_reverse st)))
    as (found & -> & Hfound);
    [rewrite length_insert; exact Hlen | exact Hends | exact Hstart |].
  cbn [bind]. eexists. split; [reflexivity |].
  split; cbn [matched nextIdx currentWayVec].
  - rewrite length_insert. exact Hlen.
  - exact Hfound.
  - apply unmatched_stored_insert. exact Hstored.
  - apply ways_ok_app; [exact Hways |].
    destruct (w_reverse st); simpl.
    + eapply ways_ok_rev; [exact Hnl | constructor].
    + eapply ways_ok_way; [exact Hnl | constructor].
Qed.

(** The walk returns within one round per unconsumed way. *)
Lemma walk_total s (wayVec : list Z) (endCoordsVec : list (LatpLon * LatpLon))
    (startIdx : nat) (startCoord : LatpLon) :
  length endCoordsVec = length wayVec ->
  (startIdx < length wayVec)%nat ->
  forall (rounds : nat) (st : walk_state),
    walk_ok s wayVec st ->
    matched st !! nextIdx st = Some false ->
    (unmatched (matched st) <= rounds)%nat ->
    exists st',
      walk rounds wayVec endCoordsVec startIdx startCoord st = Done st' /\
      walk_ok s wayVec st'.
Proof.
  intros Hends Hstart.
  induction rounds as [|rounds IH]; intros st Hok Hfree Hrounds.
  - pose proof (unmatched_insert _ _ Hfree). lia.
  - cbn [walk].
    destruct (walk_body_total s wayVec endCoordsVec startIdx startCoord st
                Hends Hstart Hok Hfree) as (st1 & Hbody & Hok1).
    rewrite Hbody. cbn [bind].
    destruct (walk_body_Done _ _ _ _ _ _ Hbody) as [Hm Hnext].
    destruct (Nat.eqb_spec (nextIdx st1) startIdx) as [Heq|Hne];
      [eauto |].
    apply IH; [exact Hok1 | destruct Hnext; [contradiction | assumption] |].
    pose proof (unmatched_insert _ _ Hfree) as Hdec.
    rewrite <- Hm in Hdec. lia.
Qed.

Lemma stored_not_mark s (w : Z) (nodeList : list Z) :
  store_ok s -> WayStore.at_ (ways s) w = Ret nodeList ->
  is_ring_end w = false /\ (w =? PSEUDO_WAY_REVERSE_MARK) = false.
Proof.
  intros Hok Hat. destruct (Hok w nodeList Hat) as [Hmark _].
  unfold is_mark in Hmark. apply orb_false_elim in Hmark. exact Hmark.
Qed.

Lemma ways_ok_mark_free s (ws : list Z) :
  store_ok s -> ways_ok s ws -> mark_free ws.
Proof.
  intros Hok Hws. induction Hws as [|w nl rest Hat _ IH|w nl rest Hat _ IH].
  - constructor.
  - constructor; [| exact IH]. eapply stored_not_mark; eauto.
  - constructor; [reflexivity |].
    constructor; [| exact IH]. eapply stored_not_mark; eauto.
Qed.

Lemma unmatched_filled_insert s (wayVec : list Z) (m : list bool) (i : nat) :
  unmatched_filled s wayVec m -> unmatched_filled s wayVec (<[i:=true]> m).
Proof.
  intros Hst j Hj. apply Hst.
  destruct (decide (j = i)) as [->|Hne].
  - pose proof (lookup_lt_Some _ _ _ Hj) as Hlt.
    rewrite length_insert in Hlt.
    rewrite list_lookup_insert_eq in Hj by exact Hlt. discriminate.
  - rewrite list_lookup_insert_ne in Hj by auto. exact Hj.
Qed.

(** A round of the walk on an unconsumed way keeps the first way of the
    ring: the way of the first round is stored with a node and is not
    joined in reverse. *)
Lemma walk_body_started s (wayVec : list Z)
    (endCoordsVec : list (LatpLon * LatpLon)) (startIdx : nat)
    (startCoord : LatpLon) (st st' : walk_state) :
  walk_body wayVec endCoordsVec startIdx startCoord st = Done st' ->
  walk_started s wayVec st ->
  matched st !! nextIdx st = Some false ->
  walk_started s wayVec st' /\ currentWayVec st' <> [].
Proof.
  intros Hbody (Hfilled & Hstart & Hrev) Hfree.
  destruct (Hfilled _ Hfree) as (w & nl & Hw & Hnl & Hne).
  unfold walk_body in Hbody. rewrite Hw in Hbody.
  destruct (endCoordsVec !! nextIdx st) as [ends|]; [| discriminate].
  apply bind_Done in Hbody as (found & _ & Hbody).
  inversion Hbody; subst st'; clear Hbody.
  cbn [matched currentWayVec w_reverse].
  assert (Hcur : currentWayVec st
                 ++ (if w_reverse st then [PSEUDO_WAY_REVERSE_MARK] else [])
                 ++ [w] <> []).
  { intros Hnil. apply app_eq_nil in Hnil as [_ Hnil].
    apply app_eq_nil in Hnil as [_ Hnil]. discriminate. }
  split; [| exact Hcur].
  split; [apply unmatched_filled_insert; exact Hfilled |].
  split; [| intros Hnil; contradiction].
  destruct (currentWayVec st) as [|w0 cur].
  - rewrite (Hrev eq_refl). simpl. eauto.
  - exact Hstart.
Qed.

Lemma walk_started_Done s (wayVec : list Z)
    (endCoordsVec : list (LatpLon * LatpLon)) (startIdx : nat)
    (startCoord : LatpLon) :
  forall (rounds : nat) (st st' : walk_state),
    walk rounds wayVec endCoordsVec startIdx startCoord st = Done st' ->
    walk_started s wayVec st ->
    matched st !! nextIdx st = Some false ->
    walk_started s wayVec st' /\ currentWayVec st' <> [].
Proof.
  induction rounds as [|rounds IH]; intros st st' Hrun Hst Hfree;
    [discriminate |].
  cbn [walk] in Hrun. apply bind_Done in Hrun as (st1 & Hbody & Hrun).
  destruct (walk_body_started s _ _ _ _ _ _ Hbody Hst Hfree) as [Hst1 Hne1].
  destruct (walk_body_Done _ _ _ _ _ _ Hbody) as [_ Hnext].
  destruct (Nat.eqb_spec (nextIdx st1) startIdx) as [Heq|Hne].
  - inversion Hrun; subst. auto.
  - apply (IH st1 st' Hrun Hst1).
    destruct Hnext; [contradiction | assumption].
Qed.

(** The ways of a ring give a ring, when the sink holds a point or the
    first of them is stored with a node; the ring holds a point unless
    there is neither a way nor a point in the sink. *)
Lemma ways_ring_ok s (ws : list Z) :
  store_ok s -> ways_ok s ws ->
  forall ring0, ring0 <> [] \/ starts_forward s ws ->
    exists ring, ways_ring s ws ring0 = Done ring /\
                 (ring0 <> [] \/ ws <> [] -> ring <> []).
Proof.
  intros Hok Hws.
  induction Hws as [|w nl rest Hat _ IH|w nl rest Hat _ IH];
    intros ring0 Hstart.
  - exists ring0. split; [reflexivity |].
    intros [Hne|Hne]; [exact Hne | contradiction].
  - cbn [ways_ring].
    destruct (stored_not_mark s w nl Hok Hat) as [_ ->].
    rewrite Hat. cbn [lift bind].
    pose proof (fill_forward s ring0 nl (proj2 (Hok w nl Hat))) as Hfill.
    rewrite Hfill. cbn [bind].
    assert (Hne : ring0 ++ pushed s nl (last_point ring0) <> []).
    { apply (fill_nonempty s ring0 nl false _ Hfill).
      destruct Hstart as [Hne|(nl' & Hat' & Hne)]; [left; exact Hne |].
      right. split; [reflexivity |]. congruence. }
    destruct (IH _ (or_introl Hne)) as (ring & Hring & Hfull).
    exists ring. split; [exact Hring |]. intros _. apply Hfull. left.
    exact Hne.
  - assert (Hne0 : ring0 <> []).
    { destruct Hstart as [Hne|(nl' & Hat' & _)]; [exact Hne |].
      destruct (Hok _ _ Hat') as [Hmark _]. discriminate. }
    cbn [ways_ring]. change (PSEUDO_WAY_REVERSE_MARK =? PSEUDO_WAY_REVERSE_MARK)
      with true. cbv iota.
    rewrite Hat. cbn [lift bind].
    pose proof (fill_reverse s ring0 nl (proj2 (Hok w nl Hat)) Hne0) as Hfill.
    rewrite Hfill. cbn [bind].
    assert (Hne : ring0 ++ reverse (pushed s nl (last_point ring0)) <> []).
    { apply (fill_nonempty s ring0 nl true _ Hfill). left. exact Hne0. }
    destruct (IH _ (or_introl Hne)) as (ring & Hring & Hfull).
    exists ring. split; [exact Hring |]. intros _. apply Hfull. left.
    exact Hne.
Qed.

(** The construction of the rings of a bag returns. *)
Lemma construct_rings_Done s (wayVec : list Z) :
  store_ok s ->
  exists rs,
    construct_rings s wayVec = Done rs /\
    Forall (ways_ok s) (wayVecVec rs) /\
    Forall (starts_forward s) (wayVecVec rs) /\
    length (wayVecVec rs) = length (ringVec rs).
Proof.
  intros Hok. unfold construct_rings.
  destruct (remember_loop_Done s wayVec Hok)
    as ([m ends] & -> & Hlen1 & Hlen2 & Hfilled).
  cbn [bind fst snd] in *. unfold for_range.
  destruct (for_range_from_Done
              (fun (_ : nat) st =>
                 rings_ok s wayVec st /\
                 unmatched_filled s wayVec (fst st) /\
                 Forall (starts_forward s) (wayVecVec (snd st)))
              (construct_ring s wayVec ends) (length wayVec) 0
              (m, mkRings [] []))
    as ([m' rs] & -> & (_ & _ & Hways & Hlens) & _ & Hstarts).
  - split; [| split; [exact Hfilled | constructor]].
    split; [exact Hlen1 |].
    split; [apply unmatched_filled_stored; exact Hfilled |].
    split; [constructor | reflexivity].
  - intros j [mj rsj] Hj ((Hl & Hst & Hw & Hls) & Hfl & Hsf).
    cbn [fst snd] in *.
    unfold construct_ring. cbn [fst snd].
    destruct (lookup_lt_is_Some_2 mj j) as [b Hb]; [lia |]. rewrite Hb.
    destruct (lookup_lt_is_Some_2 ends j) as [e ->]; [lia |].
    destruct b.
    { eexists. split; [reflexivity |].
      split; [| split; assumption].
      split; [exact Hl |]. split; [exact Hst |]. split; assumption. }
    destruct (walk_total s wayVec ends j (fst e) Hlen2 ltac:(lia)
                (length wayVec) (mkWalk mj [] j false))
      as (st' & Hwalk & [Hl' Hn' Hst' Hw']).
    + split; simpl; [exact Hl | lia | exact Hst | constructor].
    + exact Hb.
    + simpl. pose proof (unmatched_le_length mj). lia.
    + destruct (walk_started_Done s _ _ _ _ _ _ _ Hwalk)
        as [(Hfl' & Hsf' & _) _].
      { split; [exact Hfl |]. split; [exact I | reflexivity]. }
      { exact Hb. }
      rewrite Hwalk. cbn [bind].
      destruct (ways_ring_ok s _ Hok Hw' [] (or_intror Hsf'))
        as (ring & -> & _).
      cbn [bind].
      destruct (negb (is_valid_ring (correct_ring ring)));
        (eexists; split; [reflexivity |]); unfold rings_ok;
        cbn [fst snd wayVecVec ringVec].
      * split; [| split; assumption].
        split; [exact Hl' |]. split; [exact Hst' |]. split; assumption.
      * split; [| split; [exact Hfl' |]].
        -- split; [exact Hl' |]. split; [exact Hst' |]. split.
           ++ apply Forall_app. split; [exact Hw |]. repeat constructor.
              exact Hw'.
           ++ rewrite !length_app, Hls. reflexivity.
        -- apply Forall_app. split; [exact Hsf |]. repeat constructor.
           exact Hsf'.
  - cbn [bind snd]. eauto.
Qed.

Lemma tail_ok_app s (a b : list Z) :
  tail_ok s a -> tail_ok s b -> tail_ok s (a ++ b).
Proof.
  intros Ha Hb. induction Ha as [|m seg rest Hseg Hsf _ IH]; [exact Hb |].
  cbn [app]. rewrite <- app_assoc. constructor; assumption.
Qed.

Lemma tail_ok_stop s (rest : list Z) : tail_ok s rest -> ring_stop rest.
Proof.
  intros [|b seg rest' _ _ _]; simpl; [exact I | apply mark_is_ring_end].
Qed.

(** The ways of an inner ring after its mark are rings that follow. *)
Lemma tail_ok_inner s (wv : list Z) :
  ways_ok s wv -> starts_forward s wv ->
  tail_ok s (PSEUDO_WAY_INNER_MARK :: wv).
Proof.
  intros Hwv Hsf. rewrite <- (app_nil_r wv).
  apply (tail_ok_group s false); [exact Hwv | exact Hsf | constructor].
Qed.

(** The encoding of the rings returns an encoded way sequence. *)
Lemma encode_rings_Done s (outers inners : rings) :
  Forall (ways_ok s) (wayVecVec outers) ->
  Forall (starts_forward s) (wayVecVec outers) ->
  length (wayVecVec outers) = length (ringVec outers) ->
  Forall (ways_ok s) (wayVecVec inners) ->
  Forall (starts_forward s) (wayVecVec inners) ->
  length (wayVecVec inners) = length (ringVec inners) ->
  exists result,
    encode_rings outers inners = Done result /\ encoded_ok s result.
Proof.
  intros Ho Hso Hlo Hi Hsi Hli. unfold encode_rings, for_range.
  destruct (for_range_from_Done
              (fun (_ : nat) (iw : list (list Z)) =>
                 length iw = length (wayVecVec outers) /\
                 Forall (tail_ok s) iw)
              (assign_inner inners (ringVec outers))
              (length (ringVec inners)) 0
              (replicate (length (wayVecVec outers)) []))
    as (iw & -> & Hliw & Htails).
  - split; [apply length_replicate |].
    apply Forall_replicate. constructor.
  - intros k iw Hk [Hliw Htails]. unfold assign_inner.
    destruct (lookup_lt_is_Some_2 (ringVec inners) k) as [r ->]; [lia |].
    destruct (lookup_lt_is_Some_2 (wayVecVec inners) k) as [wv Hwv];
      [lia |].
    rewrite Hwv.
    destruct (find_parent_spec r (ringVec outers)) as ([p|] & -> & Hinv);
      cbn [bind]; [| eauto].
    destruct Hinv as [Hp _].
    destruct (lookup_lt_is_Some_2 iw p) as [cur Hcur]; [lia |].
    rewrite Hcur. eexists. split; [reflexivity |].
    split; [rewrite length_insert; exact Hliw |].
    apply Forall_insert; [exact Htails |].
    apply tail_ok_app.
    + eapply Forall_lookup_1; [exact Htails | exact Hcur].
    + apply tail_ok_inner.
      * eapply Forall_lookup_1; [exact Hi | exact Hwv].
      * eapply Forall_lookup_1; [exact Hsi | exact Hwv].
  - cbn [bind].
    destruct (for_range_from_Done
                (fun (j : nat) (result : list Z) =>
                   encoded_ok s result /\ (j = 0%nat -> result = []))
                (flatten_body (wayVecVec outers) iw)
                (length (wayVecVec outers)) 0 [])
      as (result & -> & Hres & _); [| | eauto].
    + split; [| reflexivity]. exists [], []. repeat constructor.
    + intros j result Hj [(seg & rest & -> & Hseg & Hsseg & Hrest) Hzero].
      unfold flatten_body.
      destruct (lookup_lt_is_Some_2 (wayVecVec outers) j) as [o Hoj];
        [lia |].
      destruct (lookup_lt_is_Some_2 iw j) as [i Hij]; [lia |].
      rewrite Hoj, Hij. eexists. split; [reflexivity |].
      split; [| discriminate].
      assert (Hwo : ways_ok s o)
        by (eapply Forall_lookup_1; [exact Ho | exact Hoj]).
      assert (Hsfo : starts_forward s o)
        by (eapply Forall_lookup_1; [exact Hso | exact Hoj]).
      assert (Hti : tail_ok s i)
        by (eapply Forall_lookup_1; [exact Htails | exact Hij]).
      destruct j as [|j].
      * rewrite (Hzero eq_refl). exists o, i. auto.
      * exists seg, (rest ++ PSEUDO_WAY_OUTER_MARK :: o ++ i).
        split; [simpl; rewrite <- app_assoc; reflexivity |].
        split; [exact Hseg |]. split; [exact Hsseg |].
        apply tail_ok_app; [exact Hrest |].
        apply (tail_ok_group s true); assumption.
Qed.

Lemma add_inner_Done (mp : list Polygon) (ring : list Point) :
  mp <> [] -> exists mp', add_inner mp ring = Done mp' /\ mp' <> [].
Proof.
  intros Hne. unfold add_inner.
  destruct (last mp) as [poly|] eqn:Hlast.
  - eexists. split; [reflexivity |]. intros Hnil.
    apply (f_equal length) in Hnil. rewrite length_insert in Hnil.
    destruct mp; [congruence | discriminate].
  - apply last_None in Hlast. contradiction.
Qed.

(** The loop over the rings returns on the rings that follow the first. *)
Lemma mp_loop_tail s :
  store_ok s ->
  forall rest : list Z, tail_ok s rest ->
    forall (rounds : nat) (mp : list Polygon),
      rest <> [] -> mp <> [] -> (length rest <= rounds)%nat ->
      exists mp', mp_loop rounds s rest false mp = Done mp'.
Proof.
  intros Hok rest Hrest.
  induction Hrest as [|b seg rest Hseg Hsseg Htail IH];
    intros rounds mp Hne Hmp Hlen; [congruence |].
  destruct rounds as [|rounds]; [simpl in Hlen; lia |].
  cbn [mp_loop bind fst snd]. rewrite mark_is_outer.
  destruct (ways_ring_ok s seg Hok Hseg [] (or_intror Hsseg))
    as (ring & Hring & _).
  rewrite (ring_loop_segment s rest (tail_ok_stop s rest Htail)
             (length seg) seg [] ring)
    by (try assumption; try lia; eapply ways_ok_mark_free; eauto).
  cbn [bind fst snd].
  assert (Hplace : exists mp',
            (if b then Done (mp ++ [mkPolygon ring []])
             else add_inner mp ring) = Done mp' /\ mp' <> []).
  { destruct b; [| apply add_inner_Done; exact Hmp].
    eexists. split; [reflexivity |]. intros Hnil.
    apply app_eq_nil in Hnil as [_ Hnil]. discriminate. }
  destruct Hplace as (mp' & -> & Hmp'). cbn [bind].
  destruct rest as [|w rest]; [eauto |].
  apply IH; [discriminate | exact Hmp' |].
  simpl in Hlen. rewrite length_app in Hlen. simpl in *. lia.
Qed.

(** The multipolygon of an encoded way sequence is built. *)
Lemma wayListMultiPolygon_Done s (W : list Z) :
  store_ok s -> encoded_ok s W ->
  exists mp, wayListMultiPolygon s W = Done mp.
Proof.
  intros Hok (seg & rest & -> & Hseg & Hsseg & Hrest).
  unfold wayListMultiPolygon, wayListRings.
  destruct (seg ++ rest) as [|w W] eqn:HW; [eauto |]. rewrite <- HW.
  assert (Hloop : exists mp,
            mp_loop (S (length (seg ++ rest))) s (seg ++ rest) true []
            = Done mp).
  { cbn [mp_loop bind fst snd].
    destruct (ways_ring_ok s seg Hok Hseg [] (or_intror Hsseg))
      as (ring & Hring & _).
    rewrite (ring_loop_segment s rest (tail_ok_stop s rest Hrest)
               (length seg) seg [] ring)
      by (try assumption; try lia; eapply ways_ok_mark_free; eauto).
    cbn [bind fst snd app].
    destruct rest as [|m rest]; [eauto |].
    apply (mp_loop_tail s Hok (m :: rest) Hrest);
      [discriminate | discriminate |].
    rewrite length_app. lia. }
  destruct Hloop as [mp ->]. cbn [bind]. eauto.
Qed.

(** On a store that satisfies the invariants of the data model the
    assembly returns an encoded way sequence, whatever the bags are. *)
Lemma correctMultiPolygonRelation_Done s (outerWayVec innerWayVec : list Z) :
  store_ok s ->
  exists result,
    correctMultiPolygonRelation s outerWayVec innerWayVec = Done result /\
    encoded_ok s result.
Proof.
  intros Hok. unfold correctMultiPolygonRelation.
  destruct (construct_rings_Done s outerWayVec Hok)
    as (outers & -> & Ho & Hso & Hlo).
  destruct (construct_rings_Done s innerWayVec Hok)
    as (inners & -> & Hi & Hsi & Hli).
  cbn [bind].
  destruct (encode_rings_Done s outers inners Ho Hso Hlo Hi Hsi Hli)
    as (result & -> & Henc).
  cbn [bind].
  destruct (wayListMultiPolygon_Done s result Hok Henc) as [mp ->].
  cbn [bind]. eauto.
Qed.

End Totality.

Section WalkClaims.
Import OsmStore Spec.
Context `{Geometry}.

(** C7.  The ring walk of [correctMultiPolygonRelation] ends.  A round of
    the [do ... while] loop consumes the way at [nextIdx], and the way it
    chooses for the next round, unless it is the start of the walk, is a
    way that no round has consumed; so a walk that starts at an unconsumed
    way ends within as many rounds as the bag has unconsumed ways, which
    are at most the ways of the bag, and with one round per way it returns
    when every unconsumed way is stored.  With those rounds for each walk,
    and one round per element for the loops over a way list, the assembly
    never runs out of rounds, whatever the bags and the store are; and it
    returns a way sequence whenever the store satisfies the invariants of
    the data model (no way is stored under a mark, the nodes of the stored
    ways resolve). *)
Theorem C7_ring_walk_terminates :
  (forall (wayVec : WayVec) (endCoordsVec : list (LatpLon * LatpLon))
          (startIdx : nat) (startCoord : LatpLon) (st st' : walk_state),
     walk_body wayVec endCoordsVec startIdx startCoord st = Done st' ->
     matched st' = <[nextIdx st := true]> (matched st) /\
     (nextIdx st' <> startIdx -> matched st' !! nextIdx st' = Some false)) /\
  (forall (wayVec : WayVec) (endCoordsVec : list (LatpLon * LatpLon))
          (startIdx : nat) (startCoord : LatpLon) (rounds : nat)
          (st : walk_state),
     matched st !! nextIdx st = Some false ->
     (unmatched (matched st) <= rounds)%nat ->
     walk rounds wayVec endCoordsVec startIdx startCoord st <> Timeout) /\
  (forall m : list bool, (unmatched m <= length m)%nat) /\
  (forall (s : OSMStore) (wayVec : WayVec)
          (endCoordsVec : list (LatpLon * LatpLon)) (startIdx : nat)
          (startCoord : LatpLon) (st : walk_state),
     length endCoordsVec = length wayVec ->
     (startIdx < length wayVec)%nat ->
     walk_ok s wayVec st ->
     matched st !! nextIdx st = Some false ->
     exists st',
       walk (length wayVec) wayVec endCoordsVec startIdx startCoord st
       = Done st') /\
  (forall (s : OSMStore) (outerWayVec innerWayVec : WayVec),
     correctMultiPolygonRelation s outerWayVec innerWayVec <> Timeout) /\
  (forall (s : OSMStore) (outerWayVec innerWayVec : WayVec),
     store_ok s ->
     exists result,
       correctMultiPolygonRelation s outerWayVec innerWayVec = Done result).
Proof.
  split; [| split; [| split; [| split; [| split]]]].
  - intros wayVec endCoordsVec startIdx startCoord st st' Hbody.
    destruct (walk_body_Done _ _ _ _ _ _ Hbody) as [Hm Hnext].
    split; [exact Hm |]. intros Hne. destruct Hnext; [contradiction | auto].
  - intros. apply walk_no_timeout; assumption.
  - apply unmatched_le_length.
  - intros s wayVec endCoordsVec startIdx startCoord st Hends Hstart Hok Hfree.
    destruct (walk_total s wayVec endCoordsVec startIdx startCoord
                Hends Hstart (length wayVec) st Hok Hfree)
      as (st' & Hrun & _); [| eauto].
    rewrite <- (wo_length _ _ _ Hok). apply unmatched_le_length.
  - intros s outerWayVec innerWayVec. unfold correctMultiPolygonRelation.
    apply bind_no_timeout; [apply construct_rings_no_timeout |].
    intros outers _.
    apply bind_no_timeout; [apply construct_rings_no_timeout |].
    intros inners _.
    apply bind_no_timeout; [apply encode_rings_no_timeout |].
    intros result _.
    apply bind_no_timeout; [apply wayListMultiPolygon_no_timeout |].
    discriminate.
  - intros s outerWayVec innerWayVec Hok.
    destruct (correctMultiPolygonRelation_Done s outerWayVec innerWayVec Hok)
      as (result & Hrun & _).
    eauto.
Qed.

End WalkClaims.

(** The sample store satisfies the invariants of the data model. *)
Lemma sample_store_ok : Spec.store_ok Sample.sample_store.
Proof.
  intros w nl Hat. apply map_at_Ret in Hat. revert w nl Hat.
  change (map_Forall
            (fun w nl =>
               Spec.is_mark w = false /\
               Forall (fun n => OsmStore.NodeStore.count
                                  (OsmStore.nodes Sample.sample_store) n
                                = 1%nat) nl)
            (OsmStore.WayStore.mNodeLists Sample.sample_ways)).
  apply (bool_decide_unpack _). vm_compute. exact I.
Qed.

Lemma C7_ring_walk_terminates_witness :
  (OsmStore.matched (OsmStore.mkWalk [true; false] [40] 1 true)
   = <[0%nat := true]> [false; false] /\
   (1%nat <> 0%nat ->
    [true; false] !! 1%nat = Some false)) /\
  OsmStore.walk 2 [40; 41]
    [(OsmStore.mkLatpLon 0 0, OsmStore.mkLatpLon 20 20);
     (OsmStore.mkLatpLon 0 0, OsmStore.mkLatpLon 20 20)]
    0 (OsmStore.mkLatpLon 0 0) (OsmStore.mkWalk [false; false] [] 0 false)
  <> OsmStore.Timeout /\
  (exists st',
     OsmStore.walk (length [40; 41]) [40; 41]
       [(OsmStore.mkLatpLon 0 0, OsmStore.mkLatpLon 20 20);
        (OsmStore.mkLatpLon 0 0, OsmStore.mkLatpLon 20 20)]
       0 (OsmStore.mkLatpLon 0 0)
       (OsmStore.mkWalk [false; false] [] 0 false)
     = OsmStore.Done st') /\
  (exists result,
     @OsmStore.correctMultiPolygonRelation Sample.box_geometry
       Sample.sample_store [40; 77; 41] [20; 30]
     = OsmStore.Done result).
Proof.
  destruct (@C7_ring_walk_terminates Sample.box_geometry)
    as (Hbody & Hwalk & _ & Htotal & _ & Hall).
  split; [| split; [| split]].
  - apply (Hbody [40; 41]
             [(OsmStore.mkLatpLon 0 0, OsmStore.mkLatpLon 20 20);
              (OsmStore.mkLatpLon 0 0, OsmStore.mkLatpLon 20 20)]
             0%nat (OsmStore.mkLatpLon 0 0)
             (OsmStore.mkWalk [false; false] [] 0 false)).
    vm_compute. reflexivity.
  - apply Hwalk; [reflexivity | simpl; lia].
  - apply (Htotal Sample.sample_store); [reflexivity | simpl; lia | |
                                          reflexivity].
    split; simpl; [reflexivity | lia | | constructor].
    intros i Hi. destruct i as [|[|i]]; simpl in Hi.
    + exists 40, [1; 2; 3]. split; [reflexivity | vm_compute; reflexivity].
    + exists 41, [1; 4; 3]. split; [reflexivity | vm_compute; reflexivity].
    + rewrite lookup_nil in Hi. discriminate.
  - apply Hall. exact sample_store_ok.
Defined.

(** * Further properties *)

(** ** Tiles *)

Section TileFacts.
Import Tilemaker.

Lemma uint_small (z : Z) : 0 <= z < 4294967296 -> uint z = z.
Proof. intros Hz. unfold uint. apply Z.mod_small. exact Hz. Qed.

Lemma tile_x_range (index : Z) :
  0 <= index < 4294967296 -> 0 <= tile_x index < 65536.
Proof.
  intros Hi. unfold tile_x. rewrite Z.shiftr_div_pow2 by lia.
  change (2 ^ 16) with 65536. split.
  - apply Z.div_pos; lia.
  - apply Z.div_lt_upper_bound; lia.
Qed.

Lemma tile_y_range (index : Z) :
  0 <= index -> 0 <= tile_y index < 65536.
Proof.
  intros Hi. unfold tile_y. change 65535 with (Z.ones 16).
  rewrite Z.land_ones by lia. apply Z.mod_pos_bound. reflexivity.
Qed.

(** An index is the packing of its two fields. *)
Lemma pack_fields (index : Z) :
  0 <= index < 4294967296 ->
  index = tile_x index * 65536 + tile_y index.
Proof.
  intros Hi. unfold tile_x, tile_y. rewrite Z.shiftr_div_pow2 by lia.
  change 65535 with (Z.ones 16). rewrite Z.land_ones by lia.
  change (2 ^ 16) with 65536.
  pose proof (Z.div_mod index 65536). lia.
Qed.

Lemma fields_pack (x y : Z) :
  0 <= x < 65536 -> 0 <= y < 65536 ->
  tile_x (x * 65536 + y) = x /\ tile_y (x * 65536 + y) = y.
Proof.
  intros Hx Hy. unfold tile_x, tile_y. split.
  - rewrite Z.shiftr_div_pow2 by lia. change (2 ^ 16) with 65536.
    rewrite Z.div_add_l by lia. rewrite Z.div_small by lia. lia.
  - change 65535 with (Z.ones 16). rewrite Z.land_ones by lia.
    change (2 ^ 16) with 65536.
    rewrite Z.add_comm, Z.mod_add by lia. apply Z.mod_small. lia.
Qed.

Lemma shiftr_range (a d : Z) :
  0 <= a < 65536 -> 0 <= d -> 0 <= Z.shiftr a d < 65536.
Proof.
  intros Ha Hd. rewrite Z.shiftr_div_pow2 by lia.
  assert (0 < 2 ^ d) by (apply Z.pow_pos_nonneg; lia).
  split; [apply Z.div_pos; lia |].
  apply Z.le_lt_trans with a; [| lia].
  apply Z.div_le_upper_bound; [lia |]. nia.
Qed.

(** The remapping on any index: both fields are shifted. *)
Lemma parent_index_fields (baseZoom zoom index : Z) :
  0 <= index < 4294967296 ->
  0 <= zoom <= baseZoom -> baseZoom < 4294967296 ->
  parent_index baseZoom zoom index
  = Z.shiftr (tile_x index) (baseZoom - zoom) * 65536
    + Z.shiftr (tile_y index) (baseZoom - zoom).
Proof.
  intros Hi Hz Hb.
  pose proof (tile_x_range index Hi) as Hx.
  pose proof (tile_y_range index ltac:(lia)) as Hy.
  pose proof (shiftr_range _ (baseZoom - zoom) Hx ltac:(lia)) as Hx'.
  pose proof (shiftr_range _ (baseZoom - zoom) Hy ltac:(lia)) as Hy'.
  unfold parent_index, pow2. fold (tile_x index). fold (tile_y index).
  rewrite (uint_small (baseZoom - zoom)) by lia.
  rewrite !truncate_div_pow2 by lia.
  rewrite (uint_small (Z.shiftr (tile_x index) _)) by lia.
  rewrite (uint_small (Z.shiftr (tile_y index) _)) by lia.
  rewrite Z.shiftl_mul_pow2 by lia. change (2 ^ 16) with 65536.
  rewrite (uint_small (_ * 65536)) by lia.
  apply uint_small. lia.
Qed.

End TileFacts.

Section TileExtras.
Import Tilemaker.

(** X1.  The packing [tileX * 65536 + tileY] of two coordinates below
    2^16 fits 32 bits, and the two fields that the emitter reads back,
    [index >> 16] and [index & 65535], are the coordinates; so different
    tiles have different indices. *)
Theorem pack_round_trip (tileX tileY : Z) :
  0 <= tileX < 65536 -> 0 <= tileY < 65536 ->
  pack tileX tileY = tileX * 65536 + tileY /\
  tile_x (pack tileX tileY) = tileX /\
  tile_y (pack tileX tileY) = tileY /\
  forall tileX' tileY',
    0 <= tileX' < 65536 -> 0 <= tileY' < 65536 ->
    pack tileX' tileY' = pack tileX tileY ->
    tileX' = tileX /\ tileY' = tileY.
Proof.
  intros Hx Hy.
  assert (Hp : forall x y, 0 <= x < 65536 -> 0 <= y < 65536 ->
             pack x y = x * 65536 + y)
    by (intros x y Hx' Hy'; unfold pack; apply uint_small; lia).
  rewrite (Hp _ _ Hx Hy).
  destruct (fields_pack tileX tileY Hx Hy) as [Hfx Hfy].
  split; [reflexivity |]. split; [exact Hfx |]. split; [exact Hfy |].
  intros tileX' tileY' Hx' Hy' Heq.
  rewrite (Hp _ _ Hx' Hy') in Heq. lia.
Qed.

Lemma pack_round_trip_witness :
  pack 8190 5461 = 8190 * 65536 + 5461 /\
  tile_x (pack 8190 5461) = 8190 /\
  tile_y (pack 8190 5461) = 5461 /\
  forall tileX' tileY',
    0 <= tileX' < 65536 -> 0 <= tileY' < 65536 ->
    pack tileX' tileY' = pack 8190 5461 ->
    tileX' = 8190 /\ tileY' = 5461.
Proof. apply pack_round_trip; lia. Defined.

End TileExtras.

Section ParentTileExtras.
Import Tilemaker.

(** X2.  For every 32-bit tile index and every zoom up to the base zoom,
    the remapping shifts each of the two fields of the index by the
    difference of the zooms, and stays within 32 bits; at the base zoom
    it changes nothing; and the tile of a coarser zoom is the same whether
    it is derived from the base tile or from the tile of a zoom in
    between, so base tiles that share a tile at one zoom share it at every
    coarser zoom. *)
Theorem parent_index_composes (baseZoom zoom zoom' index : Z) :
  0 <= index < 4294967296 ->
  0 <= zoom' <= zoom -> zoom <= baseZoom -> baseZoom < 4294967296 ->
  0 <= parent_index baseZoom zoom index < 4294967296 /\
  tile_x (parent_index baseZoom zoom index)
  = Z.shiftr (tile_x index) (baseZoom - zoom) /\
  tile_y (parent_index baseZoom zoom index)
  = Z.shiftr (tile_y index) (baseZoom - zoom) /\
  parent_index baseZoom baseZoom index = index /\
  parent_index baseZoom zoom' index
  = parent_index zoom zoom' (parent_index baseZoom zoom index).
Proof.
  intros Hi Hz' Hz Hb.
  pose proof (tile_x_range index Hi) as Hx.
  pose proof (tile_y_range index ltac:(lia)) as Hy.
  pose proof (shiftr_range _ (baseZoom - zoom) Hx ltac:(lia)) as Hx'.
  pose proof (shiftr_range _ (baseZoom - zoom) Hy ltac:(lia)) as Hy'.
  assert (Hp : parent_index baseZoom zoom index
               = Z.shiftr (tile_x index) (baseZoom - zoom) * 65536
                 + Z.shiftr (tile_y index) (baseZoom - zoom))
    by (apply parent_index_fields; lia).
  destruct (fields_pack _ _ Hx' Hy') as [Hfx Hfy].
  split; [rewrite Hp; lia |].
  split; [rewrite Hp; exact Hfx |].
  split; [rewrite Hp; exact Hfy |].
  split.
  - rewrite parent_index_fields by lia.
    rewrite Z.sub_diag, !Z.shiftr_0_r. symmetry. apply pack_fields. exact Hi.
  - rewrite (parent_index_fields baseZoom zoom') by lia.
    rewrite (parent_index_fields zoom zoom') by (rewrite ?Hp; lia).
    rewrite Hp, Hfx, Hfy.
    rewrite !Z.shiftr_shiftr by lia.
    replace (baseZoom - zoom + (zoom - zoom')) with (baseZoom - zoom') by lia.
    reflexivity.
Qed.

Lemma parent_index_composes_witness :
  0 <= parent_index 14 12 (pack 8190 5461) < 4294967296 /\
  tile_x (parent_index 14 12 (pack 8190 5461))
  = Z.shiftr (tile_x (pack 8190 5461)) (14 - 12) /\
  tile_y (parent_index 14 12 (pack 8190 5461))
  = Z.shiftr (tile_y (pack 8190 5461)) (14 - 12) /\
  parent_index 14 14 (pack 8190 5461) = pack 8190 5461 /\
  parent_index 14 9 (pack 8190 5461)
  = parent_index 12 9 (parent_index 14 12 (pack 8190 5461)).
Proof.
  apply parent_index_composes; try lia.
  vm_compute. split; [discriminate | reflexivity].
Defined.

End ParentTileExtras.

Section RemapExtras.
Import Tilemaker Spec.
Context {OutputObject : Type}.

Lemma push_all_lookup (newIndex : Z) (ooset : list OutputObject)
    (g : gmap Z (list OutputObject)) (p : Z) :
  default [] (push_all newIndex ooset g !! p)
  = default [] (g !! p) ++ (if decide (newIndex = p) then ooset else []).
Proof.
  unfold push_all. revert g.
  induction ooset as [|o ooset IH]; intros g; simpl.
  - destruct (decide (newIndex = p)); rewrite app_nil_r; reflexivity.
  - rewrite IH. destruct (decide (newIndex = p)) as [->|Hne].
    + rewrite lookup_insert_eq. simpl. rewrite <- app_assoc. reflexivity.
    + rewrite lookup_insert_ne by exact Hne. reflexivity.
Qed.

Lemma push_all_None (newIndex : Z) (ooset : list OutputObject)
    (g : gmap Z (list OutputObject)) (p : Z) :
  push_all newIndex ooset g !! p = None <->
  g !! p = None /\ (newIndex = p -> ooset = []).
Proof.
  unfold push_all. revert g.
  induction ooset as [|o ooset IH]; intros g; simpl.
  - split; [intros Hg; split; auto | intros [Hg _]; exact Hg].
  - specialize (IH (<[newIndex:=default [] (g !! newIndex) ++ [o]]> g)).
    destruct (decide (newIndex = p)) as [->|Hne].
    + rewrite lookup_insert_eq in IH. split.
      * intros Hn. apply IH in Hn as [Hn _]. discriminate.
      * intros [_ Hnil]. specialize (Hnil eq_refl). discriminate.
    + rewrite lookup_insert_ne in IH by exact Hne. split.
      * intros Hn. apply IH in Hn as [Hn _].
        split; [exact Hn | intros; contradiction].
      * intros [Hg _]. apply IH. split; [exact Hg | intros; contradiction].
Qed.

Lemma remap_from (parent : Z -> Z) (tileIndex : list (Z * list OutputObject))
    (g : gmap Z (list OutputObject)) (p : Z) :
  default []
    (foldl (fun g kv => push_all (parent (fst kv)) (snd kv) g)
       g tileIndex !! p)
  = default [] (g !! p)
    ++ concat (map snd (filter (fun kv => parent (fst kv) = p) tileIndex)) /\
  (foldl (fun g kv => push_all (parent (fst kv)) (snd kv) g)
     g tileIndex !! p = None <->
   g !! p = None /\
   concat (map snd (filter (fun kv => parent (fst kv) = p) tileIndex)) = []).
Proof.
  revert g.
  induction tileIndex as [|kv tileIndex IH]; intros g; cbn [foldl].
  - simpl. rewrite app_nil_r. split; [reflexivity |].
    split; [intros Hg; split; auto | intros [Hg _]; exact Hg].
  - destruct (IH (push_all (parent (fst kv)) (snd kv) g)) as [IH1 IH2].
    pose proof (push_all_None (parent (fst kv)) (snd kv) g p) as Hpn.
    rewrite IH1, push_all_lookup, filter_cons.
    destruct (decide (parent (fst kv) = p)) as [Heq|Hne];
      cbn [map concat].
    + split; [rewrite <- app_assoc; reflexivity |].
      split.
      * intros Hn. apply IH2 in Hn as [Hn Hrest].
        apply Hpn in Hn as [Hg Hnil]. split; [exact Hg |].
        rewrite (Hnil Heq), Hrest. reflexivity.
      * intros [Hg Hnil]. apply app_eq_nil in Hnil as [Hnil Hrest].
        apply IH2. split; [| exact Hrest].
        apply Hpn. split; [exact Hg | intros _; exact Hnil].
    + rewrite app_nil_r. split; [reflexivity |].
      split.
      * intros Hn. apply IH2 in Hn as [Hn Hrest].
        apply Hpn in Hn as [Hg _]. split; assumption.
      * intros [Hg Hrest]. apply IH2. split; [| exact Hrest].
        apply Hpn. split; [exact Hg | intros; contradiction].
Qed.

(** X3.  The loop that derives the tiles of a zoom from the tiles of the
    base zoom puts into the bucket of a tile exactly the objects of the
    base tiles that it is the parent of, in the order of the base tiles
    and of their buckets: no object is lost, none is added, and a tile
    gets a bucket only if one of those base buckets is not empty. *)
Theorem remap_buckets (baseZoom zoom : Z)
    (tileIndex : list (Z * list OutputObject)) (p : Z) :
  default [] (remap baseZoom zoom tileIndex !! p)
  = children_of baseZoom zoom tileIndex p /\
  (remap baseZoom zoom tileIndex !! p = None <->
   children_of baseZoom zoom tileIndex p = []) /\
  (forall o, o ∈ default [] (remap baseZoom zoom tileIndex !! p) <->
     exists index ooset, (index, ooset) ∈ tileIndex /\ o ∈ ooset /\
       parent_index baseZoom zoom index = p).
Proof.
  destruct (remap_from (parent_index baseZoom zoom) tileIndex ∅ p)
    as [Hlist Hnone].
  rewrite lookup_empty in Hlist, Hnone. cbn [default app] in Hlist.
  fold (children_of baseZoom zoom tileIndex p) in Hlist, Hnone.
  unfold remap. split; [exact Hlist |]. split.
  - split.
    + intros Hn. apply Hnone in Hn as [_ Hc]. exact Hc.
    + intros Hc. apply Hnone. auto.
  - intros o. rewrite Hlist. unfold children_of.
    rewrite list_elem_of_In, in_concat. split.
    + intros (ooset & Hoo & Ho).
      apply in_map_iff in Hoo as ([index ooset'] & <- & Hkv).
      apply list_elem_of_In, list_elem_of_filter in Hkv as [Hp Hkv].
      exists index, ooset'. split; [exact Hkv |].
      split; [apply list_elem_of_In; exact Ho | exact Hp].
    + intros (index & ooset & Hkv & Ho & Hp).
      exists ooset. split; [| apply list_elem_of_In; exact Ho].
      apply in_map_iff. exists (index, ooset). split; [reflexivity |].
      apply list_elem_of_In, list_elem_of_filter. auto.
Qed.

End RemapExtras.

(** ** The sorted arrays as finite maps *)

Section ArrayMapFacts.
Import IndexedArray Spec.
Context {ValT : Type}.
Implicit Types (a : KeyValArrays ValT) (ia : IndexedKeyValArrays ValT).

Lemma sorted_NoDup (ks : list Z) : StronglySorted Z.lt ks -> NoDup ks.
Proof.
  induction 1 as [|k ks _ IH Hall]; constructor; [| exact IH].
  intros Hin. rewrite Forall_forall in Hall. specialize (Hall k Hin). lia.
Qed.

Lemma at_absent a k : inv a -> k ∉ keys a -> at_ a k = Throw out_of_range.
Proof.
  intros _ Hk. unfold at_.
  destruct (keys a !! lower_bound (keys a) k) as [x|] eqn:Hx; [| reflexivity].
  destruct (Z.eqb_spec x k) as [->|Hne]; [| reflexivity].
  exfalso. apply Hk. eapply list_elem_of_lookup_2; eauto.
Qed.

(** A pair is in the map exactly when some position holds its key and its
    value. *)
Lemma contents_lookup a k v :
  inv a ->
  (contents a !! k = Some v <->
   exists i, keys a !! i = Some k /\ values a !! i = Some v).
Proof.
  intros [Hlen Hs]. unfold contents.
  rewrite <- elem_of_list_to_map
    by (rewrite fst_zip by lia; apply sorted_NoDup; exact Hs).
  rewrite list_elem_of_lookup. split.
  - intros [i Hi]. apply lookup_zip_Some in Hi. eauto.
  - intros (i & Hk & Hv). exists i. apply lookup_zip_Some. auto.
Qed.

Lemma contents_None a k : inv a -> (contents a !! k = None <-> k ∉ keys a).
Proof.
  intros [Hlen Hs]. unfold contents.
  rewrite <- not_elem_of_list_to_map, fst_zip by lia. reflexivity.
Qed.

Lemma at_contents a k : inv a -> at_ a k = OsmStore.map_at (contents a) k.
Proof.
  intros Hinv. unfold OsmStore.map_at.
  destruct (contents a !! k) as [v|] eqn:Hc.
  - apply contents_lookup in Hc as (i & Hk & Hv); [| exact Hinv].
    eapply at_stored; eauto.
  - apply at_absent; [exact Hinv |]. apply contents_None; assumption.
Qed.

Lemma count_contents a k :
  inv a -> count a k = OsmStore.map_count (contents a) k.
Proof.
  intros Hinv. unfold OsmStore.map_count.
  destruct (contents a !! k) as [v|] eqn:Hc.
  - apply contents_lookup in Hc as (i & Hk & Hv); [| exact Hinv].
    eapply count_stored; eauto.
  - apply count_absent; [exact Hinv |]. apply contents_None; assumption.
Qed.

Lemma contents_insert_back a k v :
  inv a -> smaller_key (keys a) k = false ->
  contents a !! k = None /\
  contents (snd (insert_back k v a)) = <[k:=v]> (contents a).
Proof.
  intros Hinv Hg. pose proof Hinv as [Hlen Hs].
  assert (Hk : k ∉ keys a).
  { intros Hin. pose proof (smaller_key_false _ _ Hs Hg) as Hall.
    rewrite Forall_forall in Hall. specialize (Hall k Hin). lia. }
  split; [apply contents_None; assumption |].
  rewrite insert_back_appends by exact Hg. unfold contents. simpl.
  rewrite zip_with_app by lia. simpl.
  apply list_to_map_snoc. rewrite fst_zip by lia. exact Hk.
Qed.

(** The guard lets a key through when it is above all the stored keys. *)
Lemma smaller_key_spec (ks : list Z) (k : Z) :
  StronglySorted Z.lt ks ->
  (smaller_key ks k = false <-> Forall (fun x => x < k) ks).
Proof.
  intros Hs. split; [apply smaller_key_false; exact Hs | apply greater_key].
Qed.

End ArrayMapFacts.

Section ArrayMapExtras.
Import IndexedArray Spec.
Context {ValT : Type}.

(** X4.  A [KeyValArrays] that the public operations have built answers
    like the finite map of its pairs of a key and a value: [at] returns
    the value of a stored key and throws [out_of_range] for any other key,
    and [count] is 1 for a stored key and 0 for any other. *)
Theorem KeyValArrays_lookup_as_map (a : KeyValArrays ValT) (k : Z) :
  reachable a ->
  at_ a k = OsmStore.map_at (contents a) k /\
  count a k = OsmStore.map_count (contents a) k /\
  (count a k = 0%nat <-> at_ a k = Throw out_of_range) /\
  (k ∈ keys a <-> count a k = 1%nat).
Proof.
  intros Hreach. apply reachable_inv in Hreach.
  rewrite (at_contents a k Hreach), (count_contents a k Hreach).
  split; [reflexivity |]. split; [reflexivity |].
  unfold OsmStore.map_at, OsmStore.map_count.
  pose proof (contents_None a k Hreach) as Hnone.
  destruct (contents a !! k) as [v|].
  - split; [split; discriminate |]. split; [reflexivity |].
    intros _. destruct (decide (k ∈ keys a)) as [Hin|Hout]; [exact Hin |].
    apply Hnone in Hout. discriminate.
  - split; [split; reflexivity |]. split; [| discriminate].
    intros Hin. exfalso. apply (proj1 Hnone); [reflexivity | exact Hin].
Qed.

(** X5.  On a [KeyValArrays] that the public operations have built,
    [insert_back] returns normally exactly when the key is above all the
    stored keys, and then it acts on the finite map of the pairs as the
    insertion of a new key: every other key keeps its value.  When it
    throws nothing changes.  [clear] leaves the empty map, after which any
    key can be inserted. *)
Theorem KeyValArrays_update_as_map (a : KeyValArrays ValT) (k : Z) (v : ValT) :
  reachable a ->
  (fst (insert_back k v a) = None <-> Forall (fun x => x < k) (keys a)) /\
  (fst (insert_back k v a) = None ->
   contents a !! k = None /\
   contents (snd (insert_back k v a)) = <[k:=v]> (contents a) /\
   forall k', k' <> k ->
     at_ (snd (insert_back k v a)) k' = at_ a k' /\
     count (snd (insert_back k v a)) k' = count a k') /\
  (fst (insert_back k v a) <> None -> snd (insert_back k v a) = a) /\
  contents (clear a) = ∅ /\
  fst (insert_back k v (clear a)) = None.
Proof.
  intros Hreach. pose proof (reachable_inv a Hreach) as Hinv.
  pose proof (smaller_key_spec (keys a) k (inv_keys a Hinv)) as Hguard.
  assert (Hfst : fst (insert_back k v a) = None <->
                 smaller_key (keys a) k = false).
  { unfold insert_back. destruct (smaller_key (keys a) k); simpl.
    - split; discriminate.
    - split; reflexivity. }
  split; [rewrite Hfst; exact Hguard |].
  split; [| split; [| split; reflexivity]].
  - intros Hok. apply Hfst in Hok.
    destruct (contents_insert_back a k v Hinv Hok) as [Hnone Hins].
    split; [exact Hnone |]. split; [exact Hins |].
    intros k' Hne.
    pose proof (inv_insert_back a k v Hinv) as Hinv'.
    rewrite !at_contents, !count_contents by assumption.
    unfold OsmStore.map_at, OsmStore.map_count.
    rewrite Hins, lookup_insert_ne by auto. split; reflexivity.
  - intros Hthrow. unfold insert_back in *.
    destruct (smaller_key (keys a) k); [reflexivity |].
    simpl in Hthrow. congruence.
Qed.

End ArrayMapExtras.

Section ArrayMapWitnesses.
Import IndexedArray Spec.

Lemma KeyValArrays_lookup_as_map_witness :
  at_ (snd (insert_back 7 70 (snd (insert_back 5 50 empty)))) 5
  = OsmStore.map_at
      (contents (snd (insert_back 7 70 (snd (insert_back 5 50 empty))))) 5 /\
  (count (snd (insert_back 7 70 (snd (insert_back 5 50 empty)))) 6 = 0%nat <->
   at_ (snd (insert_back 7 70 (snd (insert_back 5 50 empty)))) 6
   = Throw out_of_range).
Proof.
  assert (Hr : reachable (snd (insert_back 7 70 (snd (insert_back 5 50 empty)))))
    by (repeat apply reach_insert; apply reach_empty).
  split.
  - apply (KeyValArrays_lookup_as_map _ 5 Hr).
  - apply (KeyValArrays_lookup_as_map _ 6 Hr).
Defined.

Lemma KeyValArrays_update_as_map_witness :
  (fst (insert_back 7 70 (snd (insert_back 5 50 empty))) = None <->
   Forall (fun x => x < 7) (keys (snd (insert_back 5 50 empty)))) /\
  (contents (snd (insert_back 5 50 empty)) !! 7 = None /\
   contents (snd (insert_back 7 70 (snd (insert_back 5 50 empty))))
   = <[7:=70]> (contents (snd (insert_back 5 50 empty))) /\
   forall k', k' <> 7 ->
     at_ (snd (insert_back 7 70 (snd (insert_back 5 50 empty)))) k'
     = at_ (snd (insert_back 5 50 empty)) k' /\
     count (snd (insert_back 7 70 (snd (insert_back 5 50 empty)))) k'
     = count (snd (insert_back 5 50 empty)) k') /\
  snd (insert_back 5 51 (snd (insert_back 5 50 empty)))
  = snd (insert_back 5 50 empty).
Proof.
  assert (Hr : reachable (snd (insert_back 5 50 (@empty Z))))
    by (apply reach_insert, reach_empty).
  split; [apply (KeyValArrays_update_as_map _ 7 70 Hr) |].
  split; [apply (KeyValArrays_update_as_map _ 7 70 Hr); reflexivity |].
  apply (KeyValArrays_update_as_map _ 5 51 Hr). discriminate.
Defined.

End ArrayMapWitnesses.

Section IndexedMapFacts.
Import IndexedArray Spec.
Context {ValT : Type}.
Implicit Types (ia : IndexedKeyValArrays ValT).

Lemma iat_absent ia k : k ∉ ikeys ia -> iat ia k = Throw out_of_range.
Proof.
  intros Hk. unfold iat.
  destruct (ikeys ia !! lower_bound (ikeys ia) k) as [x|] eqn:Hx;
    [| reflexivity].
  destruct (Z.eqb_spec x k) as [->|Hne]; [| reflexivity].
  exfalso. apply Hk. eapply list_elem_of_lookup_2; eauto.
Qed.

Lemma range_app (l l' : list ValT) (b e : nat) :
  (b <= e)%nat -> (e <= length l)%nat ->
  range (l ++ l') (b, e) = range l (b, e).
Proof.
  intros Hbe He. unfold range. simpl.
  rewrite drop_app_le by lia.
  apply take_app_le. rewrite length_drop. lia.
Qed.

Lemma length_segments ia : length (segments ia) = length (ikeys ia).
Proof. unfold segments. rewrite length_fmap, length_seq. reflexivity. Qed.

Lemma segments_lookup ia (i : nat) :
  (i < length (ikeys ia))%nat ->
  segments ia !! i
  = Some (range (ivalues ia)
            (nth i (indexes ia) 0%nat, nth (S i) (indexes ia) 0%nat)).
Proof.
  intros Hi. unfold segments.
  rewrite list_lookup_fmap, lookup_seq_lt by exact Hi. reflexivity.
Qed.

(** The offsets of the key of rank [i]. *)
Lemma offsets_stored ia (i : nat) :
  iinv ia -> (i < length (ikeys ia))%nat ->
  indexes ia !! i = Some (nth i (indexes ia) 0%nat) /\
  indexes ia !! S i = Some (nth (S i) (indexes ia) 0%nat) /\
  (nth i (indexes ia) 0 <= nth (S i) (indexes ia) 0 <= length (ivalues ia))%nat.
Proof.
  intros Hinv Hi.
  destruct (lookup_lt_is_Some_2 (ikeys ia) i Hi) as [k Hk].
  destruct (iat_stored ia k i Hinv Hk) as (b & e & _ & Hb & He & Hbe).
  rewrite (nth_lookup_Some _ _ 0%nat _ Hb), (nth_lookup_Some _ _ 0%nat _ He).
  auto.
Qed.

Lemma segments_insert_back ia k vs :
  iinv ia -> smaller_key (ikeys ia) k = false ->
  segments (snd (iinsert_back k vs ia)) = segments ia ++ [vs].
Proof.
  intros Hinv Hg. rewrite iinsert_back_appends by exact Hg.
  unfold segments. cbn [ikeys indexes ivalues snd].
  rewrite (length_app (ikeys ia)), seq_app, fmap_app. cbn [length Nat.add seq fmap list_fmap].
  pose proof (iinv_length ia Hinv) as Hlen.
  pose proof (iinv_last ia Hinv) as Hlast.
  rewrite last_lookup, Hlen in Hlast. simpl in Hlast.
  f_equal.
  - apply list_eq. intros j. rewrite !list_lookup_fmap.
    destruct (seq 0 (length (ikeys ia)) !! j) as [i|] eqn:Hj; [| reflexivity].
    simpl. f_equal.
    apply lookup_seq in Hj as [-> Hi]. simpl.
    destruct (offsets_stored ia j Hinv Hi) as (_ & _ & Hbe).
    rewrite !app_nth1 by lia.
    apply range_app; lia.
  - f_equal.
    rewrite app_nth1 by lia.
    rewrite (nth_lookup_Some _ _ 0%nat _ Hlast).
    replace (S (length (ikeys ia))) with (length (indexes ia)) by lia.
    rewrite nth_middle. apply range_appended.
Qed.

Lemma icontents_lookup ia k seg :
  iinv ia ->
  (icontents ia !! k = Some seg <->
   exists i, ikeys ia !! i = Some k /\ segments ia !! i = Some seg).
Proof.
  intros Hinv. unfold icontents.
  rewrite <- elem_of_list_to_map
    by (rewrite fst_zip by (rewrite length_segments; lia);
        apply sorted_NoDup, Hinv).
  rewrite list_elem_of_lookup. split.
  - intros [i Hi]. apply lookup_zip_Some in Hi. eauto.
  - intros (i & Hk & Hv). exists i. apply lookup_zip_Some. auto.
Qed.

Lemma icontents_None ia k : icontents ia !! k = None <-> k ∉ ikeys ia.
Proof.
  unfold icontents.
  rewrite <- not_elem_of_list_to_map,
    fst_zip by (rewrite length_segments; lia).
  reflexivity.
Qed.

Lemma iat_icontents ia k :
  iinv ia ->
  match iat ia k with
  | Ret be => icontents ia !! k = Some (range (ivalues ia) be)
  | Throw _ => icontents ia !! k = None
  end.
Proof.
  intros Hinv. destruct (decide (k ∈ ikeys ia)) as [Hin|Hout].
  - apply list_elem_of_lookup in Hin as [i Hi].
    pose proof (lookup_lt_Some _ _ _ Hi) as Hlt.
    destruct (iat_stored ia k i Hinv Hi) as (b & e & -> & Hb & He & _).
    apply icontents_lookup; [exact Hinv |]. exists i. split; [exact Hi |].
    rewrite segments_lookup by exact Hlt.
    rewrite (nth_lookup_Some _ _ 0%nat _ Hb), (nth_lookup_Some _ _ 0%nat _ He).
    reflexivity.
  - rewrite (iat_absent ia k Hout). apply icontents_None. exact Hout.
Qed.

Lemma icount_icontents ia k :
  iinv ia -> icount ia k = OsmStore.map_count (icontents ia) k.
Proof.
  intros Hinv. unfold OsmStore.map_count.
  destruct (icontents ia !! k) as [seg|] eqn:Hc.
  - apply icontents_lookup in Hc as (i & Hk & _); [| exact Hinv].
    eapply icount_stored; eauto.
  - apply icount_absent; [exact Hinv |]. apply icontents_None. exact Hc.
Qed.

Lemma icontents_insert_back ia k vs :
  iinv ia -> smaller_key (ikeys ia) k = false ->
  icontents ia !! k = None /\
  icontents (snd (iinsert_back k vs ia)) = <[k:=vs]> (icontents ia).
Proof.
  intros Hinv Hg.
  assert (Hk : k ∉ ikeys ia).
  { intros Hin.
    pose proof (smaller_key_false _ _ (iinv_keys ia Hinv) Hg) as Hall.
    rewrite Forall_forall in Hall. specialize (Hall k Hin). lia. }
  split; [apply icontents_None; exact Hk |].
  unfold icontents at 1. rewrite segments_insert_back by assumption.
  rewrite iinsert_back_appends by exact Hg. simpl.
  rewrite zip_with_app by (rewrite length_segments; reflexivity). simpl.
  apply list_to_map_snoc.
  rewrite fst_zip by (rewrite length_segments; lia). exact Hk.
Qed.

(** [values] holds the value lists of the keys, one after the other, and
    nothing else. *)
Lemma concat_segments ia : ireachable ia -> concat (segments ia) = ivalues ia.
Proof.
  induction 1 as [|k vs ia Hreach IH|ia _ _]; [reflexivity | | reflexivity].
  destruct (smaller_key (ikeys ia) k) eqn:Hg.
  - rewrite iinsert_back_throws by exact Hg. exact IH.
  - rewrite segments_insert_back
      by (try assumption; apply ireachable_iinv; exact Hreach).
    rewrite iinsert_back_appends by exact Hg. simpl.
    rewrite concat_app, IH. simpl. rewrite app_nil_r. reflexivity.
Qed.

End IndexedMapFacts.

Section IndexedMapExtras.
Import IndexedArray Spec.
Context {ValT : Type}.

(** X6.  An [IndexedKeyValArrays] that the public operations have built
    is a finite map from keys to value lists, the list of a key being the
    range of [values] between its two offsets: [at] returns the range of
    a stored key and throws [out_of_range] for any other key, and [count]
    is 1 or 0 accordingly.  [insert_back] returns normally exactly when the
    key is above all the stored keys, and then it adds the key with the
    given list and changes the list of no other key; when it throws
    nothing changes.  [values] is the concatenation of the lists by rank,
    so every value belongs to exactly one key. *)
Theorem IndexedKeyValArrays_as_map (ia : IndexedKeyValArrays ValT) (k : Z)
    (vs : list ValT) :
  ireachable ia ->
  match iat ia k with
  | Ret be => icontents ia !! k = Some (range (ivalues ia) be)
  | Throw e => e = out_of_range /\ icontents ia !! k = None
  end /\
  icount ia k = OsmStore.map_count (icontents ia) k /\
  (fst (iinsert_back k vs ia) = None <->
   Forall (fun x => x < k) (ikeys ia)) /\
  (fst (iinsert_back k vs ia) = None ->
   icontents ia !! k = None /\
   icontents (snd (iinsert_back k vs ia)) = <[k:=vs]> (icontents ia)) /\
  (fst (iinsert_back k vs ia) <> None -> snd (iinsert_back k vs ia) = ia) /\
  concat (segments ia) = ivalues ia /\
  icontents (iclear ia) = ∅.
Proof.
  intros Hreach. pose proof (ireachable_iinv ia Hreach) as Hinv.
  assert (Hfst : fst (iinsert_back k vs ia) = None <->
                 smaller_key (ikeys ia) k = false).
  { unfold iinsert_back. destruct (smaller_key (ikeys ia) k); simpl.
    - split; discriminate.
    - split; reflexivity. }
  split.
  { pose proof (iat_icontents ia k Hinv) as Hat.
    destruct (iat ia k) as [be|[]]; [exact Hat | split; [reflexivity | exact Hat]]. }
  split; [apply icount_icontents; exact Hinv |].
  split.
  { rewrite Hfst. apply smaller_key_spec, Hinv. }
  split.
  { intros Hok. apply Hfst in Hok. apply icontents_insert_back; assumption. }
  split.
  { intros Hthrow. unfold iinsert_back in *.
    destruct (smaller_key (ikeys ia) k); [reflexivity |].
    simpl in Hthrow. congruence. }
  split; [apply concat_segments; exact Hreach | reflexivity].
Qed.

End IndexedMapExtras.

Section IndexedMapWitnesses.
Import IndexedArray Spec.

Lemma IndexedKeyValArrays_as_map_witness :
  let ia := snd (iinsert_back 6 [] (snd (iinsert_back 5 [50; 51] iempty))) in
  icontents ia !! 5 = Some [50; 51] /\
  icontents (snd (iinsert_back 9 [90] ia)) = <[9:=[90]]> (icontents ia) /\
  snd (iinsert_back 6 [60] ia) = ia /\
  concat (segments ia) = ivalues ia.
Proof.
  intros ia.
  assert (Hr : ireachable ia)
    by (repeat apply ireach_insert; apply ireach_empty).
  split.
  - pose proof (proj1 (IndexedKeyValArrays_as_map ia 5 [] Hr)) as Hat.
    vm_compute in Hat. vm_compute. exact Hat.
  - split; [apply (IndexedKeyValArrays_as_map ia 9 [90] Hr); reflexivity |].
    split; [apply (IndexedKeyValArrays_as_map ia 6 [60] Hr); discriminate |].
    apply (IndexedKeyValArrays_as_map ia 6 [60] Hr).
Defined.

End IndexedMapWitnesses.

(** ** The hash-map stores, populated *)

Section StoreSequenceFacts.
Import OsmStore Spec.

Lemma emplace_lookup {V} (m : gmap Z V) (k k' : Z) (v : V) :
  emplace k v m !! k'
  = match m !! k' with
    | Some v' => Some v'
    | None => if k =? k' then Some v else None
    end.
Proof.
  destruct (Z.eqb_spec k k') as [->|Hne].
  - unfold emplace. destruct (m !! k') as [v'|] eqn:Hk.
    + exact Hk.
    + apply lookup_insert_eq.
  - rewrite emplace_other by exact Hne.
    destruct (m !! k'); reflexivity.
Qed.

(** A sequence of [emplace]: what the map held stays, and of the pairs
    under a new key the first one is kept. *)
Lemma emplace_all_lookup {V} (l : list (Z * V)) :
  forall (m : gmap Z V) (k : Z),
    foldl (fun m p => emplace (fst p) (snd p) m) m l !! k
    = match m !! k with
      | Some v => Some v
      | None => first_value l k
      end.
Proof.
  induction l as [|p l IH]; intros m k; cbn [foldl first_value].
  - destruct (m !! k); reflexivity.
  - rewrite IH, emplace_lookup.
    destruct (m !! k); [reflexivity |].
    destruct (fst p =? k); reflexivity.
Qed.

Lemma map_at_found {V} (m : gmap Z V) (k : Z) :
  map_at m k = found (m !! k).
Proof. reflexivity. Qed.

Lemma map_count_found {V} (m : gmap Z V) (k : Z) :
  (map_count m k = 0%nat <-> map_at m k = Throw out_of_range) /\
  (map_count m k = 1%nat <-> exists v, map_at m k = Ret v).
Proof.
  unfold map_count, map_at. destruct (m !! k) as [v|].
  - split; (split; [try discriminate; eauto |]);
      [discriminate | reflexivity].
  - split; (split; [try discriminate; auto |]);
      [reflexivity | intros [? ?]; discriminate].
Qed.

End StoreSequenceFacts.

Section StoreSequenceExtras.
Import OsmStore Spec.

(** X7.  [NodeStore], [WayStore] and [RelationStore] after a sequence of
    [insert_back]: a key that the store held before keeps its value; any
    other key has the value of the first [insert_back] under it, later
    ones being ignored; and [at] throws [out_of_range] for a key that
    neither the store held nor the sequence inserts.  In every store
    [count] is 0 exactly when [at] throws and 1 exactly when [at] returns,
    and after [clear] every [at] throws.  (For [WayStore] the keys are
    [WayID]s, 32 bits wide.) *)
Theorem hash_stores_first_insert_wins :
  (forall (s : NodeStore.t) (l : list (Z * LatpLon)) (i : Z),
     let s' := foldl (fun s p => NodeStore.insert_back (fst p) (snd p) s) s l in
     NodeStore.at_ s' i
     = match NodeStore.at_ s i with
       | Ret c => Ret c
       | Throw _ => found (first_value l i)
       end /\
     (NodeStore.count s' i = 0%nat <-> NodeStore.at_ s' i = Throw out_of_range) /\
     (NodeStore.count s' i = 1%nat <-> exists c, NodeStore.at_ s' i = Ret c) /\
     NodeStore.at_ (NodeStore.clear s') i = Throw out_of_range) /\
  (forall (s : WayStore.t) (l : list (Z * list Z)) (i : Z),
     Forall (fun p => 0 <= fst p < 4294967296) l ->
     let s' := foldl (fun s p => WayStore.insert_back (fst p) (snd p) s) s l in
     WayStore.at_ s' i
     = match WayStore.at_ s i with
       | Ret c => Ret c
       | Throw _ => found (first_value l i)
       end /\
     (WayStore.count s' i = 0%nat <-> WayStore.at_ s' i = Throw out_of_range) /\
     (WayStore.count s' i = 1%nat <-> exists c, WayStore.at_ s' i = Ret c) /\
     WayStore.at_ (WayStore.clear s') i = Throw out_of_range) /\
  (forall (s : RelationStore.t) (l : list (Z * list Z)) (i : Z),
     let s' :=
       foldl (fun s p => RelationStore.insert_back (fst p) (snd p) s) s l in
     RelationStore.at_ s' i
     = match RelationStore.at_ s i with
       | Ret c => Ret c
       | Throw _ => found (first_value l i)
       end /\
     (RelationStore.count s' i = 0%nat
      <-> RelationStore.at_ s' i = Throw out_of_range) /\
     (RelationStore.count s' i = 1%nat
      <-> exists c, RelationStore.at_ s' i = Ret c) /\
     RelationStore.at_ (RelationStore.clear s') i = Throw out_of_range).
Proof.
  split; [| split].
  - intros s l i s'.
    assert (Hm : NodeStore.mLatpLons s'
                 = foldl (fun m p => emplace (fst p) (snd p) m)
                     (NodeStore.mLatpLons s) l).
    { subst s'. revert s. induction l as [|p l IH]; intros s; [reflexivity |].
      cbn [foldl]. rewrite IH. reflexivity. }
    unfold NodeStore.at_, NodeStore.count. rewrite Hm.
    split; [| split; [apply map_count_found |
                      split; [apply map_count_found | reflexivity]]].
    rewrite !map_at_found, emplace_all_lookup.
    destruct (NodeStore.mLatpLons s !! i); reflexivity.
  - intros s l i Hl s'.
    assert (Hm : WayStore.mNodeLists s'
                 = foldl (fun m p => emplace (fst p) (snd p) m)
                     (WayStore.mNodeLists s) l).
    { subst s'. revert s.
      induction Hl as [|p l Hp _ IH]; intros s; [reflexivity |].
      cbn [foldl]. rewrite IH. unfold WayStore.insert_back.
      rewrite to_uint32_to_int by exact Hp. reflexivity. }
    unfold WayStore.at_, WayStore.count. rewrite Hm.
    split; [| split; [apply map_count_found |
                      split; [apply map_count_found | reflexivity]]].
    rewrite !map_at_found, emplace_all_lookup.
    destruct (WayStore.mNodeLists s !! i); reflexivity.
  - intros s l i s'.
    assert (Hm : RelationStore.mWayLists s'
                 = foldl (fun m p => emplace (fst p) (snd p) m)
                     (RelationStore.mWayLists s) l).
    { subst s'. revert s. induction l as [|p l IH]; intros s; [reflexivity |].
      cbn [foldl]. rewrite IH. reflexivity. }
    unfold RelationStore.at_, RelationStore.count. rewrite Hm.
    split; [| split; [apply map_count_found |
                      split; [apply map_count_found | reflexivity]]].
    rewrite !map_at_found, emplace_all_lookup.
    destruct (RelationStore.mWayLists s !! i); reflexivity.
Qed.

Lemma hash_stores_first_insert_wins_witness :
  WayStore.at_
    (foldl (fun s p => WayStore.insert_back (fst p) (snd p) s)
       Sample.sample_ways [(50, [1; 2]); (10, [3]); (50, [4])]) 50
  = Ret [1; 2] /\
  WayStore.at_
    (foldl (fun s p => WayStore.insert_back (fst p) (snd p) s)
       Sample.sample_ways [(50, [1; 2]); (10, [3]); (50, [4])]) 10
  = Ret [1; 2; 3; 4; 1] /\
  WayStore.at_
    (foldl (fun s p => WayStore.insert_back (fst p) (snd p) s)
       Sample.sample_ways [(50, [1; 2]); (10, [3]); (50, [4])]) 51
  = Throw out_of_range.
Proof.
  destruct hash_stores_first_insert_wins as (_ & Hway & _).
  assert (Hl : Forall (fun p : Z * list Z => 0 <= fst p < 4294967296)
                 [(50, [1; 2]); (10, [3]); (50, [4])])
    by (repeat constructor; simpl; lia).
  split; [| split].
  - exact (proj1 (Hway Sample.sample_ways _ 50 Hl)).
  - exact (proj1 (Hway Sample.sample_ways _ 10 Hl)).
  - exact (proj1 (Hway Sample.sample_ways _ 51 Hl)).
Defined.

End StoreSequenceExtras.

(** ** fillPoints: exceptions, and the points of a way *)

Section FillMoreFacts.
Import OsmStore Spec.

Lemma count_0_at ns n :
  NodeStore.count ns n = 0%nat -> NodeStore.at_ ns n = Throw out_of_range.
Proof.
  unfold NodeStore.count, NodeStore.at_, map_count, map_at.
  destruct (NodeStore.mLatpLons ns !! n); [discriminate | reflexivity].
Qed.

Lemma at_count_1 ns n ll :
  NodeStore.at_ ns n = Ret ll -> NodeStore.count ns n = 1%nat.
Proof.
  unfold NodeStore.count, NodeStore.at_, map_count, map_at.
  destruct (NodeStore.mLatpLons ns !! n); [reflexivity | discriminate].
Qed.

Lemma pushed_cons s n nodeList lastP ll :
  NodeStore.at_ (nodes s) n = Ret ll ->
  pushed s (n :: nodeList) lastP
  = (if geom_equals (make_point ll) lastP then []
     else [make_point ll]) ++ pushed s nodeList (make_point ll) /\
  thrown s (n :: nodeList) lastP = thrown s nodeList (make_point ll).
Proof.
  intros Hat. unfold pushed, thrown. cbn [fill_loop]. rewrite Hat.
  destruct (geom_equals (make_point ll) lastP); simpl.
  - split; reflexivity.
  - rewrite fill_loop_frame. split; reflexivity.
Qed.

Lemma thrown_None s nodeList :
  forall lastP, thrown s nodeList lastP = None -> resolvable s nodeList.
Proof.
  induction nodeList as [|n nodeList IH]; intros lastP Hthrown.
  - constructor.
  - destruct (NodeStore.at_ (nodes s) n) as [ll|e] eqn:Hat.
    + destruct (pushed_cons s n nodeList lastP ll Hat) as [_ Ht].
      rewrite Ht in Hthrown.
      constructor; [eapply at_count_1; eauto | eapply IH; eauto].
    + unfold thrown in Hthrown. cbn [fill_loop] in Hthrown.
      rewrite Hat in Hthrown. discriminate.
Qed.

(** The loop stops at the first node that the store does not hold, with
    the sink as the nodes before it leave it. *)
Lemma fill_loop_missing s (l1 l2 : list Z) (n : Z) :
  resolvable s l1 -> NodeStore.count (nodes s) n = 0%nat ->
  forall points lastP nodeCnt,
    fill_loop (nodes s) (l1 ++ n :: l2) points lastP nodeCnt
    = (Some out_of_range,
       snd (fill_loop (nodes s) l1 points lastP nodeCnt)).
Proof.
  intros Hres Hn. induction Hres as [|a l1 Ha _ IH];
    intros points lastP nodeCnt; cbn [app fill_loop].
  - rewrite (count_0_at _ _ Hn). reflexivity.
  - destruct (count_1_at _ _ Ha) as [ll ->].
    destruct (negb (geom_equals (make_point ll) lastP)); apply IH.
Qed.

Lemma pushed_length s nodeList :
  forall lastP, (length (pushed s nodeList lastP) <= length nodeList)%nat.
Proof.
  unfold pushed. induction nodeList as [|n nodeList IH]; intros lastP.
  - reflexivity.
  - cbn [fill_loop]. destruct (NodeStore.at_ (nodes s) n) as [ll|e];
      [| simpl; lia].
    destruct (geom_equals (make_point ll) lastP); simpl.
    + specialize (IH (make_point ll)). lia.
    + rewrite fill_loop_frame. simpl.
      specialize (IH (make_point ll)). lia.
Qed.

Lemma resolvable_located s nodeList :
  resolvable s nodeList -> exists lls, located s nodeList lls.
Proof.
  induction 1 as [|n nodeList Hn _ [lls IH]].
  - exists []. constructor.
  - destruct (count_1_at _ _ Hn) as [ll Hll].
    exists (ll :: lls). constructor; assumption.
Qed.

(** The points that the loop keeps, among the points of the nodes. *)
Lemma pushed_located s nodeList lls :
  located s nodeList lls ->
  forall lastP,
    sublist (pushed s nodeList lastP) (make_point <$> lls) /\
    (forall p, p ∈ make_point <$> lls ->
       geom_equals p lastP = true \/
       exists q, q ∈ pushed s nodeList lastP /\ geom_equals p q = true) /\
    (adjacent_equal (lastP :: (make_point <$> lls)) = false ->
     pushed s nodeList lastP = make_point <$> lls).
Proof.
  induction 1 as [|n ll nodeList lls Hat _ IH]; intros lastP.
  - split; [constructor |]. split; [| reflexivity].
    intros p Hp. apply elem_of_nil in Hp. contradiction.
  - destruct (pushed_cons s n nodeList lastP ll Hat) as [-> _].
    destruct (IH (make_point ll)) as (Hsub & Hall & Hid).
    cbn [fmap list_fmap]. split; [| split].
    + destruct (geom_equals (make_point ll) lastP); simpl.
      * apply sublist_cons. exact Hsub.
      * apply sublist_skip. exact Hsub.
    + intros p Hp. apply elem_of_cons in Hp as [->|Hp].
      * destruct (geom_equals (make_point ll) lastP) eqn:Heq; [left; reflexivity |].
        right. exists (make_point ll).
        split; [left | apply geom_equals_refl].
      * destruct (Hall p Hp) as [Hpl|(q & Hq & Hpq)].
        -- destruct (geom_equals (make_point ll) lastP) eqn:Heq.
           ++ left. eapply geom_equals_trans; eauto.
           ++ right. exists (make_point ll). split; [left | exact Hpl].
        -- right. exists q. split; [| exact Hpq].
           apply elem_of_app. right. exact Hq.
    + intros Hadj. cbn [adjacent_equal] in Hadj.
      apply orb_false_elim in Hadj as [Hne Hadj].
      rewrite geom_equals_sym, Hne. simpl. f_equal. apply Hid. exact Hadj.
Qed.

End FillMoreFacts.

Section FillExtras.
Import OsmStore Spec.

(** X8.  [fillPoints] throws [out_of_range] exactly when the store lacks a
    node of the sequence: it throws at the first node that is missing, and
    the sink keeps what the nodes before that one added, in forward order
    even when [reverse] is set.  When the store holds every node, a call
    without [reverse] returns, and a call with [reverse] returns unless the
    sink is empty after the loop: then the swap loop starts from an
    iterator before the beginning of the sink.  Whenever the call returns
    or throws, the points that were in the sink stay, and at most one point
    per node is appended. *)
Theorem fillPoints_throws_at_first_missing_node (s : OSMStore)
    (points : list Point) (nodeList : NodeVec) (rev : bool) :
  ((exists sink,
      fillPoints s points nodeList rev = Done (Some out_of_range, sink))
   <-> ~ resolvable s nodeList) /\
  (resolvable s nodeList ->
   exists block,
     fillPoints s points nodeList false = Done (None, points ++ block) /\
     fillPoints s points nodeList true
     = match points ++ block with
       | [] => Underrun
       | _ :: _ => Done (None, points ++ reverse block)
       end) /\
  (forall (i : nat) (n : NodeID),
     nodeList !! i = Some n -> NodeStore.count (nodes s) n = 0%nat ->
     resolvable s (take i nodeList) ->
     exists sink,
       fillPoints s points (take i nodeList) false = Done (None, sink) /\
       fillPoints s points nodeList rev = Done (Some out_of_range, sink)) /\
  (forall e sink,
     fillPoints s points nodeList rev = Done (e, sink) ->
     exists block,
       sink = points ++ block /\ (length block <= length nodeList)%nat).
Proof.
  split; [| split; [| split]].
  - rewrite fillPoints_spec. cbv zeta. split.
    + intros [sink Hrun] Hres.
      rewrite thrown_resolvable in Hrun by exact Hres.
      destruct rev; [| discriminate].
      destruct (points ++ pushed s nodeList (last_point points));
        discriminate.
    + intros Hnot.
      destruct (thrown s nodeList (last_point points)) as [[]|] eqn:Ht;
        [eauto |].
      exfalso. apply Hnot. eapply thrown_None; eauto.
  - intros Hres. exists (pushed s nodeList (last_point points)).
    rewrite !fillPoints_spec. cbv zeta.
    rewrite thrown_resolvable by exact Hres. split; reflexivity.
  - intros i n Hi Hn Hres.
    exists (points ++ pushed s (take i nodeList) (last_point points)).
    split.
    + rewrite fillPoints_spec. cbv zeta.
      rewrite thrown_resolvable by exact Hres. reflexivity.
    + rewrite <- (take_drop_middle nodeList i n Hi) at 1.
      unfold fillPoints.
      rewrite (fill_loop_missing s _ _ n Hres Hn).
      rewrite (fill_loop_pushed s (take i nodeList)). reflexivity.
  - intros e sink. rewrite fillPoints_spec. cbv zeta.
    pose proof (pushed_length s nodeList (last_point points)) as Hlen.
    destruct (thrown s nodeList (last_point points)).
    + intros [= _ <-]. eexists. split; [reflexivity | exact Hlen].
    + destruct rev.
      * destruct (points ++ pushed s nodeList (last_point points));
          [discriminate |].
        intros [= _ <-]. eexists. split; [reflexivity |].
        rewrite length_reverse. exact Hlen.
      * intros [= _ <-]. eexists. split; [reflexivity | exact Hlen].
Qed.

Lemma fillPoints_throws_at_first_missing_node_witness :
  exists sink,
    fillPoints Sample.sample_store [Sample.pt 5 5] [1; 2] false
    = Done (None, sink) /\
    fillPoints Sample.sample_store [Sample.pt 5 5] [1; 2; 999; 3] true
    = Done (Some out_of_range, sink).
Proof.
  destruct (fillPoints_throws_at_first_missing_node Sample.sample_store
              [Sample.pt 5 5] [1; 2; 999; 3] true) as (_ & _ & Hmiss & _).
  apply (Hmiss 2%nat 999).
  - reflexivity.
  - vm_compute. reflexivity.
  - unfold resolvable. repeat (constructor; [vm_compute; reflexivity |]).
    constructor.
Defined.

(** X9.  [nodeListLinestring] returns exactly when the store holds every
    node of the way, and throws [out_of_range] otherwise.  The linestring
    it returns is made of points of the nodes, in their order; no two
    neighbours in it are equal; every point of a node is equal to one of
    its points (a point equal to the dummy start point apart, which no
    coordinate of the data reaches); and when no two consecutive nodes
    have equal points it is the sequence of the points of the nodes. *)
Theorem nodeListLinestring_points (s : OSMStore) (nodeList : NodeVec) :
  (resolvable s nodeList
   <-> exists ls, nodeListLinestring s nodeList = Done ls) /\
  (~ resolvable s nodeList ->
   nodeListLinestring s nodeList = Raise out_of_range) /\
  (forall ls, nodeListLinestring s nodeList = Done ls ->
     exists lls, located s nodeList lls /\
       sublist ls (make_point <$> lls) /\
       adjacent_equal ls = false /\
       (forall p, p ∈ make_point <$> lls -> geom_equals p dummy = false ->
          exists q, q ∈ ls /\ geom_equals p q = true) /\
       (adjacent_equal (dummy :: (make_point <$> lls)) = false ->
        ls = make_point <$> lls)).
Proof.
  assert (Hdone : forall ls, nodeListLinestring s nodeList = Done ls ->
            resolvable s nodeList /\ ls = pushed s nodeList dummy).
  { intros ls Hrun. unfold nodeListLinestring in Hrun.
    rewrite fill_spec in Hrun. cbv zeta in Hrun.
    change (last_point []) with dummy in Hrun.
    destruct (thrown s nodeList dummy) eqn:Ht; [discriminate |].
    split; [eapply thrown_None; eauto |].
    simpl in Hrun. congruence. }
  split; [| split].
  - split.
    + intros Hres. unfold nodeListLinestring.
      rewrite fill_forward by exact Hres. eauto.
    + intros [ls Hrun]. apply (Hdone ls Hrun).
  - intros Hnot. unfold nodeListLinestring.
    rewrite fill_spec. cbv zeta.
    destruct (thrown s nodeList (last_point [])) as [[]|] eqn:Ht;
      [reflexivity |].
    exfalso. apply Hnot. eapply thrown_None; eauto.
  - intros ls Hrun. destruct (Hdone ls Hrun) as [Hres ->].
    destruct (resolvable_located s nodeList Hres) as [lls Hlls].
    destruct (pushed_located s nodeList lls Hlls dummy) as (Hsub & Hall & Hid).
    exists lls. split; [exact Hlls |]. split; [exact Hsub |].
    split; [apply pushed_no_adjacent |]. split; [| exact Hid].
    intros p Hp Hpd. destruct (Hall p Hp) as [Heq|Hq]; [congruence | exact Hq].
Qed.

Lemma nodeListLinestring_points_witness :
  (exists ls, nodeListLinestring Sample.sample_store [1; 1; 2; 3] = Done ls) /\
  nodeListLinestring Sample.sample_store [1; 999] = Raise out_of_range.
Proof.
  split.
  - apply (nodeListLinestring_points Sample.sample_store [1; 1; 2; 3]).
    unfold resolvable. repeat (constructor; [vm_compute; reflexivity |]).
    constructor.
  - apply (nodeListLinestring_points Sample.sample_store [1; 999]).
    unfold resolvable. intros Hres.
    apply Forall_cons in Hres as [_ Hres].
    apply Forall_cons in Hres as [Hres _].
    vm_compute in Hres. discriminate.
Defined.

End FillExtras.

(** ** wayListMultiPolygon: what it reads and what it builds *)

Section RingMoreFacts.
Import OsmStore Spec.

Lemma stored_unmarked s (w : Z) (nodeList : list Z) :
  marks_unused s -> WayStore.at_ (ways s) w = Ret nodeList ->
  is_ring_end w = false /\ w <> PSEUDO_WAY_REVERSE_MARK.
Proof.
  intros Hun Hat.
  assert (Hm : is_mark w = false).
  { destruct (is_mark w) eqn:Hm; [| reflexivity].
    specialize (Hun w Hm).
    unfold WayStore.count, WayStore.at_, map_count, map_at in *.
    destruct (WayStore.mNodeLists (ways s) !! w); discriminate. }
  unfold is_mark in Hm. apply orb_false_elim in Hm as [Hend Hrev].
  split; [exact Hend | apply Z.eqb_neq; exact Hrev].
Qed.

Lemma store_ok_marks_unused s : store_ok s -> marks_unused s.
Proof.
  intros Hok w Hm.
  unfold WayStore.count, map_count.
  destruct (WayStore.mNodeLists (ways s) !! w) as [nl|] eqn:Hw; [| reflexivity].
  destruct (Hok w nl) as [Hmark _]; [| congruence].
  unfold WayStore.at_, map_at. rewrite Hw. reflexivity.
Qed.

(** The loop of a ring: the part of the way list it reads and the part it
    leaves; it reads past the end only after a reverse mark that ends the
    list. *)
Lemma ring_loop_parts s :
  forall (n : nat) (it : list Z) (ring : list Point),
    (length it <= n)%nat ->
    match ring_loop s it ring with
    | Done r =>
        exists seg, it = seg ++ snd r /\ ring_stop (snd r) /\
          (marks_unused s ->
           mark_free seg /\ last seg <> Some PSEUDO_WAY_REVERSE_MARK)
    | Undefined => last it = Some PSEUDO_WAY_REVERSE_MARK
    | Raise _ => True
    | Underrun => True
    | Timeout => False
    end.
Proof.
  assert (Hnil : forall rest : list Z, ring_stop rest ->
            exists seg : list Z, rest = seg ++ rest /\ ring_stop rest /\
              (marks_unused s ->
               mark_free seg /\ last seg <> Some PSEUDO_WAY_REVERSE_MARK)).
  { intros rest Hstop. exists []. split; [reflexivity |].
    split; [exact Hstop |]. intros _. split; [constructor | discriminate]. }
  induction n as [|n IH]; intros it ring Hlen.
  - destruct it; [| simpl in Hlen; lia]. apply (Hnil [] I).
  - destruct it as [|w it]; [apply (Hnil [] I) |].
    cbn [ring_loop]. destruct (is_ring_end w) eqn:Hend.
    { apply (Hnil (w :: it)). exact Hend. }
    destruct (Z.eqb_spec w PSEUDO_WAY_REVERSE_MARK) as [->|Hne].
    + destruct it as [|w' it]; [reflexivity |].
      destruct (WayStore.at_ (ways s) w') as [nl|e] eqn:Hat;
        cbn [lift bind]; [| exact I].
      destruct (fill_cases s ring nl true) as [[ring' ->]|[->|[-> _]]];
        cbn [bind]; [| exact I | exact I].
      specialize (IH it ring' ltac:(simpl in Hlen; lia)).
      destruct (ring_loop s it ring') as [r|e| | |];
        [| exact I | | exact I | exact IH].
      * destruct IH as (seg & Hit & Hstop & Hfree).
        exists (PSEUDO_WAY_REVERSE_MARK :: w' :: seg).
        split; [simpl; f_equal; f_equal; exact Hit |].
        split; [exact Hstop |]. intros Hun.
        destruct (Hfree Hun) as [Hmf Hlast].
        destruct (stored_unmarked s w' nl Hun Hat) as [Hw1 Hw2].
        split; [constructor; [reflexivity | constructor; assumption] |].
        rewrite !last_cons.
        destruct (last seg) as [x|]; [exact Hlast | congruence].
      * rewrite !last_cons, IH. reflexivity.
    + destruct (WayStore.at_ (ways s) w) as [nl|e] eqn:Hat;
        cbn [lift bind]; [| exact I].
      destruct (fill_cases s ring nl false) as [[ring' ->]|[->|[-> _]]];
        cbn [bind]; [| exact I | exact I].
      specialize (IH it ring' ltac:(simpl in Hlen; lia)).
      destruct (ring_loop s it ring') as [r|e| | |];
        [| exact I | | exact I | exact IH].
      * destruct IH as (seg & Hit & Hstop & Hfree).
        exists (w :: seg).
        split; [simpl; f_equal; exact Hit |].
        split; [exact Hstop |]. intros Hun.
        destruct (Hfree Hun) as [Hmf Hlast].
        split; [constructor; assumption |].
        rewrite last_cons.
        destruct (last seg) as [x|]; [exact Hlast | congruence].
      * rewrite last_cons, IH. reflexivity.
Qed.

Lemma occurrences_app (w : Z) (a b : list Z) :
  occurrences w (a ++ b) = (occurrences w a + occurrences w b)%nat.
Proof. induction a as [|x a IH]; simpl; [reflexivity | rewrite IH; lia]. Qed.

Lemma occurrences_mark_free (seg : list Z) (b : bool) :
  mark_free seg -> occurrences (mark b) seg = 0%nat.
Proof.
  induction 1 as [|x seg Hx _ IH]; [reflexivity |]. cbn [occurrences].
  rewrite IH. unfold is_ring_end in Hx. apply orb_false_elim in Hx as [Ho Hi].
  destruct b; cbn [mark]; [rewrite Ho | rewrite Hi]; reflexivity.
Qed.

Lemma add_inner_counts (mp mp' : list Polygon) (ring : list Point) :
  add_inner mp ring = Done mp' ->
  length mp' = length mp /\ inner_rings mp' = S (inner_rings mp).
Proof.
  unfold add_inner. destruct (last mp) as [poly|] eqn:Hlast; [| discriminate].
  intros [= <-]. split; [apply length_insert |].
  apply last_Some in Hlast as [mp0 ->].
  rewrite length_app. simpl.
  replace (pred (length mp0 + 1)) with (length mp0) by lia.
  rewrite (insert_middle mp0 [] poly) by reflexivity.
  unfold inner_rings. rewrite !sum_list_with_app. simpl.
  rewrite length_app. simpl. lia.
Qed.

(** The loop over the rings: a polygon for the first ring and for every
    outer mark, an inner ring for every inner mark. *)
Lemma mp_loop_counts s :
  marks_unused s ->
  forall (rounds : nat) (it : list Z) (isOuter : bool) (mp mp' : list Polygon),
    (isOuter = false -> ring_stop it) ->
    mp_loop rounds s it isOuter mp = Done mp' ->
    length mp'
    = (length mp + (if isOuter then 1 else 0)
       + occurrences PSEUDO_WAY_OUTER_MARK it)%nat /\
    inner_rings mp'
    = (inner_rings mp + occurrences PSEUDO_WAY_INNER_MARK it)%nat /\
    last it <> Some PSEUDO_WAY_REVERSE_MARK.
Proof.
  intros Hun. induction rounds as [|rounds IH];
    intros it isOuter mp mp' Hhead Hrun; [discriminate |].
  cbn [mp_loop] in Hrun.
  apply bind_Done in Hrun as ([b it1] & Hst & Hrun).
  apply bind_Done in Hrun as ([r rest] & Hring & Hrun).
  apply bind_Done in Hrun as (mp1 & Hmp1 & Hrun).
  cbn [fst snd] in *.
  assert (Hhd : exists dout din : nat,
            occurrences PSEUDO_WAY_OUTER_MARK it
            = (dout + occurrences PSEUDO_WAY_OUTER_MARK it1)%nat /\
            occurrences PSEUDO_WAY_INNER_MARK it
            = (din + occurrences PSEUDO_WAY_INNER_MARK it1)%nat /\
            length mp1
            = (length mp + (if isOuter then 1 else 0) + dout)%nat /\
            inner_rings mp1 = (inner_rings mp + din)%nat /\
            (last it1 <> Some PSEUDO_WAY_REVERSE_MARK ->
             last it <> Some PSEUDO_WAY_REVERSE_MARK)).
  { destruct isOuter.
    - injection Hst as <- <-. injection Hmp1 as <-.
      exists 0%nat, 0%nat. rewrite length_app. unfold inner_rings.
      rewrite sum_list_with_app. simpl.
      split; [lia |]. split; [lia |]. split; [lia |]. split; [lia | auto].
    - destruct it as [|w it]; [discriminate |].
      injection Hst as <- <-. specialize (Hhead eq_refl). simpl in Hhead.
      cbn [occurrences].
      assert (Hlast' : last it <> Some PSEUDO_WAY_REVERSE_MARK ->
                       last (w :: it) <> Some PSEUDO_WAY_REVERSE_MARK).
      { intros Hl1. rewrite last_cons. destruct (last it) as [x|]; [exact Hl1 |].
        intros [= ->]. discriminate. }
      destruct (Z.eqb_spec w PSEUDO_WAY_OUTER_MARK) as [->|Hne].
      + injection Hmp1 as <-. exists 1%nat, 0%nat.
        rewrite length_app. unfold inner_rings.
        rewrite sum_list_with_app. simpl.
        split; [lia |]. split; [lia |]. split; [lia |]. split; [lia | auto].
      + assert (Hw : (w =? PSEUDO_WAY_INNER_MARK) = true).
        { unfold is_ring_end in Hhead.
          apply orb_true_iff in Hhead as [Ho'|Hi'];
            [apply Z.eqb_eq in Ho'; contradiction | exact Hi']. }
        rewrite Hw. destruct (add_inner_counts _ _ _ Hmp1) as [Hl2 Hi2].
        exists 0%nat, 1%nat.
        split; [lia |]. split; [lia |]. split; [lia |]. split; [lia | auto]. }
  clear Hst Hmp1.
  pose proof (ring_loop_parts s (length it1) it1 [] ltac:(lia)) as Hparts.
  rewrite Hring in Hparts. destruct Hparts as (seg & Hit1 & Hstop & Hfree).
  destruct (Hfree Hun) as [Hmf Hlast]. cbn [snd] in *.
  assert (Hrest : length mp'
                  = (length mp1 + occurrences PSEUDO_WAY_OUTER_MARK rest)%nat /\
                  inner_rings mp'
                  = (inner_rings mp1
                     + occurrences PSEUDO_WAY_INNER_MARK rest)%nat /\
                  last rest <> Some PSEUDO_WAY_REVERSE_MARK).
  { destruct rest as [|w rest].
    - inversion Hrun; subst. simpl. split; [lia |]. split; [lia | discriminate].
    - destruct (IH _ _ _ _ (fun _ => Hstop) Hrun) as (Hl & Hi & Hla).
      split; [lia |]. split; [lia | exact Hla]. }
  destruct Hrest as (Hl & Hi & Hla).
  assert (Hseg : occurrences PSEUDO_WAY_OUTER_MARK it1
                 = occurrences PSEUDO_WAY_OUTER_MARK rest /\
                 occurrences PSEUDO_WAY_INNER_MARK it1
                 = occurrences PSEUDO_WAY_INNER_MARK rest /\
                 (it1 <> [] -> last it1 <> Some PSEUDO_WAY_REVERSE_MARK) /\
                 last it1 <> Some PSEUDO_WAY_REVERSE_MARK).
  { rewrite Hit1, !occurrences_app.
    pose proof (occurrences_mark_free seg true Hmf) as Hso.
    pose proof (occurrences_mark_free seg false Hmf) as Hsi.
    cbn [mark] in Hso, Hsi. rewrite Hso, Hsi.
    split; [reflexivity |]. split; [reflexivity |].
    assert (Hl1 : last (seg ++ rest) <> Some PSEUDO_WAY_REVERSE_MARK).
    { rewrite last_app. destruct (last rest); [exact Hla | exact Hlast]. }
    split; [intros _; exact Hl1 | exact Hl1]. }
  destruct Hseg as (Ho & Hin & _ & Hl1).
  destruct Hhd as (dout & din & Hdo & Hdi & Hl2 & Hi2 & Hlast2).
  split; [lia |]. split; [lia | auto].
Qed.

(** The loop over the rings calls [back] on a multipolygon that has a
    polygon and reads the mark of a ring inside the way list. *)
Lemma mp_loop_Undefined s :
  forall (rounds : nat) (it : list Z) (isOuter : bool) (mp : list Polygon),
    (isOuter = false -> it <> [] /\ mp <> []) ->
    mp_loop rounds s it isOuter mp = Undefined ->
    last it = Some PSEUDO_WAY_REVERSE_MARK.
Proof.
  induction rounds as [|rounds IH]; intros it isOuter mp Hhead Hrun;
    [discriminate |].
  cbn [mp_loop] in Hrun.
  assert (Hst : exists b it1,
            (if isOuter then Done (true, it)
             else match it with
                  | [] => Undefined
                  | w :: it' => Done (w =? PSEUDO_WAY_OUTER_MARK, it')
                  end) = Done (b, it1) /\
            (b = false -> mp <> []) /\
            (last it1 = Some PSEUDO_WAY_REVERSE_MARK ->
             last it = Some PSEUDO_WAY_REVERSE_MARK)).
  { destruct isOuter.
    - exists true, it. split; [reflexivity |]. split; [discriminate | auto].
    - destruct (Hhead eq_refl) as [Hne Hmp].
      destruct it as [|w it']; [congruence |].
      eexists _, it'. split; [reflexivity |]. split; [auto |].
      intros Hl. rewrite last_cons, Hl. reflexivity. }
  destruct Hst as (b & it1 & Hst & Hb & Hl). rewrite Hst in Hrun.
  cbn [bind fst snd] in Hrun.
  pose proof (ring_loop_parts s (length it1) it1 [] ltac:(lia)) as Hparts.
  destruct (ring_loop s it1 []) as [[r rest]|e| | |];
    cbn [bind fst snd] in Hrun;
    [| discriminate | exact (Hl Hparts) | discriminate | contradiction].
  destruct Hparts as (seg & Hit1 & _ & _). cbn [snd] in Hit1.
  assert (Hmp1 : exists mp1,
            (if b then Done (mp ++ [mkPolygon r []]) else add_inner mp r)
            = Done mp1 /\ mp1 <> []).
  { destruct b.
    - eexists. split; [reflexivity |]. intros Hnil.
      apply app_eq_nil in Hnil as [_ Hnil]. discriminate.
    - apply add_inner_Done. auto. }
  destruct Hmp1 as (mp1 & Hmp1 & Hne1). rewrite Hmp1 in Hrun.
  cbn [bind] in Hrun.
  destruct rest as [|w rest]; [discriminate |].
  apply Hl. rewrite Hit1, last_app.
  rewrite (IH (w :: rest) false mp1); [reflexivity | | exact Hrun].
  intros _. split; [discriminate | exact Hne1].
Qed.

End RingMoreFacts.

Section RingExtras.
Import OsmStore Spec.
Context `{Geometry}.

Lemma correct_multipolygon_counts (mp : list Polygon) :
  length (correct_multipolygon mp) = length mp /\
  inner_rings (correct_multipolygon mp) = inner_rings mp.
Proof.
  unfold correct_multipolygon. split; [apply length_map |].
  unfold inner_rings. induction mp as [|p mp IH]; [reflexivity |].
  simpl. rewrite IH, length_map. reflexivity.
Qed.

(** X10.  In a store that holds no way under a mark, the multipolygon
    that [wayListMultiPolygon] returns for a way list that is not empty
    has one polygon more than the list has outer marks, and as many inner
    rings, over all its polygons, as the list has inner marks: every ring
    of the encoded sequence is in the result, the empty ones too.  For the
    empty way list it is empty.  The overload that takes a relation ID
    does the same with the way list stored under the ID. *)
Theorem wayListMultiPolygon_counts_rings (s : OSMStore) :
  marks_unused s ->
  (forall (W : WayVec) (mp : MultiPolygon),
     wayListMultiPolygon s W = Done mp ->
     (W = [] -> mp = []) /\
     (W <> [] ->
      length mp = S (occurrences PSEUDO_WAY_OUTER_MARK W) /\
      inner_rings mp = occurrences PSEUDO_WAY_INNER_MARK W)) /\
  (forall (relId : WayID) (mp : MultiPolygon),
     wayListMultiPolygon_rel s relId = Done mp ->
     exists W, RelationStore.at_ (relations s) relId = Ret W /\
       wayListMultiPolygon s W = Done mp).
Proof.
  intros Hun. split.
  - intros W mp Hrun. unfold wayListMultiPolygon in Hrun.
    destruct W as [|w W].
    { split; [intros _; congruence | congruence]. }
    split; [discriminate |]. intros _.
    apply bind_Done in Hrun as (mp0 & Hrings & Hrun).
    injection Hrun as <-.
    destruct (correct_multipolygon_counts mp0) as [-> ->].
    unfold wayListRings in Hrings.
    destruct (mp_loop_counts s Hun _ (w :: W) true [] mp0
                ltac:(intros; discriminate) Hrings) as (Hl & Hi & _).
    change (inner_rings []) with 0%nat in Hi. cbn [length] in Hl.
    cbv iota in Hl. split; [lia | lia].
  - intros relId mp Hrun. unfold wayListMultiPolygon_rel in Hrun.
    apply bind_Done in Hrun as (W & Hat & Hrun).
    exists W. split; [| exact Hrun].
    destruct (RelationStore.at_ (relations s) relId); simpl in Hat; congruence.
Qed.

(** X11.  [wayListMultiPolygon] stays inside the way list and calls
    [back] only on a multipolygon that has a polygon, with one exception:
    a way list that ends with a reverse mark, after which it reads the
    element past the end.  In a store that holds no way under a mark such
    a way list never gives a multipolygon.  The relation overload throws
    [out_of_range] for an ID that the store does not hold. *)
Theorem wayListMultiPolygon_reads_inside (s : OSMStore) (W : WayVec) :
  (wayListMultiPolygon s W = Undefined ->
   last W = Some PSEUDO_WAY_REVERSE_MARK) /\
  (marks_unused s -> last W = Some PSEUDO_WAY_REVERSE_MARK ->
   forall mp, wayListMultiPolygon s W <> Done mp) /\
  (forall relId, RelationStore.count (relations s) relId = 0%nat ->
     wayListMultiPolygon_rel s relId = Raise out_of_range).
Proof.
  split; [| split].
  - unfold wayListMultiPolygon, wayListRings.
    destruct W as [|w W]; [discriminate |]. intros Hrun.
    apply (mp_loop_Undefined s (S (length (w :: W))) (w :: W) true []);
      [intros; discriminate |].
    destruct (mp_loop (S (length (w :: W))) s (w :: W) true []);
      simpl in Hrun; congruence.
  - intros Hun Hlast mp Hrun. unfold wayListMultiPolygon in Hrun.
    destruct W as [|w W]; [discriminate |].
    apply bind_Done in Hrun as (mp0 & Hrings & _).
    unfold wayListRings in Hrings.
    destruct (mp_loop_counts s Hun _ (w :: W) true [] mp0
                ltac:(intros; discriminate) Hrings) as (_ & _ & Hl).
    contradiction.
  - intros relId Hc. unfold wayListMultiPolygon_rel, RelationStore.at_.
    unfold RelationStore.count in Hc.
    unfold map_at. rewrite (map_count_0 _ _ Hc). reflexivity.
Qed.

End RingExtras.

Lemma wayListMultiPolygon_counts_rings_witness :
  @OsmStore.wayListMultiPolygon Sample.box_geometry Sample.sample_store
    [10; OsmStore.PSEUDO_WAY_INNER_MARK; 20; OsmStore.PSEUDO_WAY_OUTER_MARK;
     11]
  = OsmStore.Done [OsmStore.mkPolygon Sample.square_a [Sample.triangle];
                   OsmStore.mkPolygon Sample.square_b []] /\
  length [OsmStore.mkPolygon Sample.square_a [Sample.triangle];
          OsmStore.mkPolygon Sample.square_b []] = 2%nat /\
  Spec.inner_rings [OsmStore.mkPolygon Sample.square_a [Sample.triangle];
                    OsmStore.mkPolygon Sample.square_b []] = 1%nat.
Proof.
  split; [vm_compute; reflexivity |].
  apply (proj1 (@wayListMultiPolygon_counts_rings Sample.box_geometry
                  Sample.sample_store
                  (store_ok_marks_unused _ sample_store_ok))
           [10; OsmStore.PSEUDO_WAY_INNER_MARK; 20;
            OsmStore.PSEUDO_WAY_OUTER_MARK; 11]);
    [vm_compute; reflexivity | discriminate].
Defined.

Lemma wayListMultiPolygon_reads_inside_witness :
  last [OsmStore.PSEUDO_WAY_REVERSE_MARK]
  = Some OsmStore.PSEUDO_WAY_REVERSE_MARK /\
  forall mp,
    @OsmStore.wayListMultiPolygon Sample.box_geometry Sample.sample_store
      [10; OsmStore.PSEUDO_WAY_REVERSE_MARK] <> OsmStore.Done mp.
Proof.
  split.
  - apply (@wayListMultiPolygon_reads_inside Sample.box_geometry
             Sample.sample_store [OsmStore.PSEUDO_WAY_REVERSE_MARK]).
    vm_compute. reflexivity.
  - apply (@wayListMultiPolygon_reads_inside Sample.box_geometry
             Sample.sample_store [10; OsmStore.PSEUDO_WAY_REVERSE_MARK]).
    + exact (store_ok_marks_unused _ sample_store_ok).
    + reflexivity.
Defined.

(** ** The encoded sequence of the assembly, and what it decodes to *)

Section DecodeFacts.
Import OsmStore Spec.

Lemma raw_ring_Done s (wv : list Z) (r : list Point) :
  ways_ring s wv [] = Done r -> raw_ring s wv = r.
Proof. unfold raw_ring. intros ->. reflexivity. Qed.

Lemma ways_ok_raw_ring s (wv : list Z) :
  store_ok s -> ways_ok s wv -> starts_forward s wv ->
  ways_ring s wv [] = Done (raw_ring s wv).
Proof.
  intros Hok Hwv Hsf.
  destruct (ways_ring_ok s wv Hok Hwv [] (or_intror Hsf)) as (r & Hr & _).
  rewrite (raw_ring_Done s wv r Hr). exact Hr.
Qed.

(** The inner rings of a block join the polygon placed last. *)
Lemma place_kids s :
  store_ok s ->
  forall (inner : list (list Z)) (mp : list Polygon) (poly : Polygon)
         (rest : list (bool * list Z)),
    Forall (ways_ok s) inner -> Forall (starts_forward s) inner ->
    place_groups s (mp ++ [poly])
      (map (fun wv => (false, wv)) inner ++ rest)
    = place_groups s
        (mp ++ [mkPolygon (outer poly)
                  (inners poly ++ map (raw_ring s) inner)]) rest.
Proof.
  intros Hok. induction inner as [|wv inner IH]; intros mp poly rest Hin Hsf.
  - simpl. rewrite app_nil_r. destruct poly; reflexivity.
  - apply Forall_cons in Hin as [Hwv Hin].
    apply Forall_cons in Hsf as [Hswv Hsf].
    cbn [map app place_groups fst snd].
    rewrite (ways_ok_raw_ring s wv Hok Hwv Hswv). cbn [bind].
    rewrite add_inner_last. cbn [bind].
    rewrite IH by assumption. cbn [outer inners].
    rewrite <- app_assoc. reflexivity.
Qed.

(** The blocks placed one after the other give their polygons. *)
Lemma place_blocks s :
  store_ok s ->
  forall (bl : list (list Z * list (list Z))) (mp : list Polygon),
    Forall (block_ok s) bl ->
    place_groups s mp (ring_groups bl) = Done (mp ++ polygons_of s bl).
Proof.
  intros Hok. induction bl as [|b bl IH]; intros mp Hbl.
  - simpl. rewrite app_nil_r. reflexivity.
  - apply Forall_cons in Hbl as [(Ho & _ & Hi & Hso & Hsi) Hbl].
    cbn [ring_groups flat_map app place_groups fst snd].
    rewrite (ways_ok_raw_ring s (fst b) Hok Ho Hso). cbn [bind].
    rewrite (place_kids s Hok (snd b) mp _ _ Hi Hsi). cbn [outer inners app].
    fold (ring_groups bl). rewrite IH by exact Hbl.
    rewrite <- app_assoc. reflexivity.
Qed.

Lemma flat_map_inner (inner : list (list Z)) :
  flat_map (fun g : bool * list Z => mark (fst g) :: snd g)
    (map (fun wv => (false, wv)) inner)
  = flat_map (fun wv => PSEUDO_WAY_INNER_MARK :: wv) inner.
Proof.
  induction inner as [|wv inner IH]; [reflexivity |].
  cbn [map flat_map fst snd mark]. rewrite IH. reflexivity.
Qed.

Lemma encode_blocks_from (bl : list (list Z * list (list Z))) (i : nat) :
  concat
    (imap (fun j b =>
             (if (0 <? S i + j)%nat then [PSEUDO_WAY_OUTER_MARK] else [])
             ++ fst b
             ++ flat_map (fun wv => PSEUDO_WAY_INNER_MARK :: wv) (snd b))
          bl)
  = flat_map (fun g => mark (fst g) :: snd g) (ring_groups bl).
Proof.
  revert i. induction bl as [|b bl IH]; intros i; [reflexivity |].
  rewrite imap_cons. cbn [concat ring_groups flat_map].
  fold (ring_groups bl). rewrite flat_map_app.
  rewrite <- (IH (S i)). cbn [flat_map app mark fst snd].
  rewrite flat_map_inner.
  change (0 <? S i + 0)%nat with true. cbn [app]. f_equal.
Qed.

(** The encoded sequence of blocks, read as a first ring and the groups
    that follow it. *)
Lemma encode_blocks_join (b : list Z * list (list Z))
    (bl : list (list Z * list (list Z))) :
  encode_blocks (b :: bl)
  = join_rings (fst b)
      (map (fun wv => (false, wv)) (snd b) ++ ring_groups bl).
Proof.
  unfold encode_blocks, join_rings. rewrite imap_cons.
  cbn [concat]. change (0 <? 0)%nat with false. cbn [app].
  rewrite <- app_assoc. f_equal. rewrite flat_map_app, flat_map_inner.
  f_equal. apply (encode_blocks_from bl 0).
Qed.

Lemma length_flat_groups (groups : list (bool * list Z)) :
  (length groups
   <= length (flat_map (fun g => mark (fst g) :: snd g) groups))%nat.
Proof.
  induction groups as [|g groups IH]; [reflexivity |].
  cbn [flat_map]. rewrite length_app. simpl. lia.
Qed.

Lemma ring_groups_mark_free s (bl : list (list Z * list (list Z))) :
  store_ok s -> Forall (block_ok s) bl ->
  Forall (fun g => mark_free (snd g)) (ring_groups bl).
Proof.
  intros Hok. induction 1 as [|b bl (Ho & _ & Hi & _) _ IH]; [constructor |].
  cbn [ring_groups flat_map]. constructor.
  - eapply ways_ok_mark_free; eauto.
  - apply Forall_app. split; [| exact IH].
    apply Forall_map. eapply Forall_impl; [exact Hi |].
    intros wv Hwv. eapply ways_ok_mark_free; eauto.
Qed.

(** The loop over the rings, on the encoded sequence of blocks, gives the
    polygons of the blocks. *)
Lemma wayListRings_blocks s (bl : list (list Z * list (list Z))) :
  store_ok s -> Forall (block_ok s) bl ->
  wayListRings s (encode_blocks bl) = Done (polygons_of s bl).
Proof.
  intros Hok Hbl. destruct bl as [|b bl]; [reflexivity |].
  pose proof (place_blocks s Hok (b :: bl) [] Hbl) as Hplace.
  pose proof (ring_groups_mark_free s (b :: bl) Hok Hbl) as Hfree.
  set (groups := map (fun wv : list Z => (false, wv)) (snd b)
                 ++ ring_groups bl).
  change (ring_groups (b :: bl)) with ((true, fst b) :: groups)
    in Hplace, Hfree.
  apply Forall_cons in Hfree as [Hseg Hgroups].
  assert (Hloop : mp_loop (S (length (encode_blocks (b :: bl)))) s
                    (encode_blocks (b :: bl)) true []
                  = Done (polygons_of s (b :: bl))).
  { apply (mp_loop_groups s groups _ true (fst b) [] _ true);
      try assumption.
    - rewrite encode_blocks_join. unfold join_rings. rewrite length_app.
      pose proof (length_flat_groups groups). subst groups. lia.
    - left. split; [reflexivity |]. split; [reflexivity |].
      apply encode_blocks_join. }
  unfold wayListRings.
  destruct (encode_blocks (b :: bl)) as [|w W] eqn:HW; [| exact Hloop].
  exfalso. rewrite encode_blocks_join in HW. unfold join_rings in HW.
  apply app_eq_nil in HW as [HW _].
  apply Forall_cons in Hbl as [(_ & Hne & _) _]. contradiction.
Qed.

End DecodeFacts.

Section AssemblyFacts.
Import OsmStore Spec.
Context `{Geometry}.

Lemma walk_body_ways (wayVec : list Z) (endCoordsVec : list (LatpLon * LatpLon))
    (startIdx : nat) (startCoord : LatpLon) (st st' : walk_state) :
  walk_body wayVec endCoordsVec startIdx startCoord st = Done st' ->
  exists w, wayVec !! nextIdx st = Some w /\
    currentWayVec st'
    = currentWayVec st
      ++ (if w_reverse st then [PSEUDO_WAY_REVERSE_MARK] else []) ++ [w].
Proof.
  unfold walk_body.
  destruct (wayVec !! nextIdx st) as [w|]; [| discriminate].
  destruct (endCoordsVec !! nextIdx st) as [ends|]; [| discriminate].
  intros Hrun. apply bind_Done in Hrun as (found & _ & Hrun).
  inversion Hrun; subst. exists w. split; reflexivity.
Qed.

(** The ways that a walk collects are ways of the bag, some after a
    reverse mark, and they are at least one. *)
Lemma walk_ways (wayVec : list Z) (endCoordsVec : list (LatpLon * LatpLon))
    (startIdx : nat) (startCoord : LatpLon) :
  forall (rounds : nat) (st st' : walk_state),
    walk rounds wayVec endCoordsVec startIdx startCoord st = Done st' ->
    (forall w, w ∈ currentWayVec st ->
               w = PSEUDO_WAY_REVERSE_MARK \/ w ∈ wayVec) ->
    currentWayVec st' <> [] /\
    forall w, w ∈ currentWayVec st' ->
              w = PSEUDO_WAY_REVERSE_MARK \/ w ∈ wayVec.
Proof.
  induction rounds as [|rounds IH]; intros st st' Hrun Hst; [discriminate |].
  cbn [walk] in Hrun. apply bind_Done in Hrun as (st1 & Hbody & Hrun).
  destruct (walk_body_ways _ _ _ _ _ _ Hbody) as (w & Hw & Hcur).
  assert (Hst1 : forall x, x ∈ currentWayVec st1 ->
                           x = PSEUDO_WAY_REVERSE_MARK \/ x ∈ wayVec).
  { intros x Hx. rewrite Hcur in Hx.
    apply elem_of_app in Hx as [Hx|Hx]; [auto |].
    apply elem_of_app in Hx as [Hx|Hx].
    - destruct (w_reverse st); [| apply elem_of_nil in Hx; contradiction].
      apply list_elem_of_singleton in Hx. auto.
    - apply list_elem_of_singleton in Hx. subst x. right.
      eapply list_elem_of_lookup_2; eauto. }
  destruct (nextIdx st1 =? startIdx)%nat.
  - inversion Hrun; subst st'. split; [| exact Hst1].
    rewrite Hcur. intros Hnil. apply app_eq_nil in Hnil as [_ Hnil].
    apply app_eq_nil in Hnil as [_ Hnil]. discriminate.
  - eapply IH; eauto.
Qed.

(** The rings that the construction keeps: valid, corrected, and made of
    ways of the bag. *)
Lemma construct_rings_ring_ok s (wayVec : list Z) (rs : rings) :
  construct_rings s wayVec = Done rs ->
  Forall2 (ring_ok s wayVec) (wayVecVec rs) (ringVec rs).
Proof.
  unfold construct_rings. intros Hrun.
  apply bind_Done in Hrun as (st & _ & Hrun).
  apply bind_Done in Hrun as (st' & Hloop & Hrun).
  inversion Hrun; subst rs. unfold for_range in Hloop.
  apply (for_range_from_inv
           (fun t : list bool * rings =>
              Forall2 (ring_ok s wayVec) (wayVecVec (snd t)) (ringVec (snd t)))
           (construct_ring s wayVec (snd st)) ) with (n := length wayVec)
           (i := 0%nat) (s := (fst st, mkRings [] [])); [| constructor | exact Hloop].
  intros j t t' Ht Hbody. unfold construct_ring in Hbody.
  destruct (fst t !! j) as [m|]; [| discriminate].
  destruct (snd st !! j) as [ends|]; [| discriminate].
  destruct m; [inversion Hbody; subst; exact Ht |].
  apply bind_Done in Hbody as (w' & Hwalk & Hbody).
  apply bind_Done in Hbody as (ring & Hring & Hbody).
  destruct (is_valid_ring (correct_ring ring)) eqn:Hvalid;
    simpl in Hbody; inversion Hbody; subst t'; cbn [snd wayVecVec ringVec];
    [| exact Ht].
  apply Forall2_app; [exact Ht |]. constructor; [| constructor].
  destruct (walk_ways _ _ _ _ _ _ _ Hwalk) as [Hne Hin].
  { intros w Hw. apply elem_of_nil in Hw. contradiction. }
  unfold ring_ok. rewrite (raw_ring_Done s _ ring Hring). auto.
Qed.

Lemma kids_stored (outerRingVec : list (list Point)) (rs : rings) (j : nat)
    (wv : list Z) :
  wv ∈ kids outerRingVec (pairs_of rs) j -> wv ∈ wayVecVec rs.
Proof.
  unfold kids, pairs_of. intros Hwv.
  apply list_elem_of_fmap in Hwv as ([r wv'] & -> & Hp).
  apply list_elem_of_filter in Hp as [_ Hp].
  apply elem_of_zip_r in Hp. exact Hp.
Qed.

Lemma blocks_ok s (outerWayVec innerWayVec : list Z) (outers inners : rings) :
  Forall (ways_ok s) (wayVecVec outers) ->
  Forall (starts_forward s) (wayVecVec outers) ->
  Forall (ways_ok s) (wayVecVec inners) ->
  Forall (starts_forward s) (wayVecVec inners) ->
  Forall2 (ring_ok s outerWayVec) (wayVecVec outers) (ringVec outers) ->
  Forall (block_ok s) (blocks outers (pairs_of inners)).
Proof.
  intros Ho Hso Hi Hsi Hrings. apply Forall_lookup. intros j b Hb.
  unfold blocks in Hb. rewrite list_lookup_imap in Hb.
  destruct (wayVecVec outers !! j) as [o|] eqn:Hj; [| discriminate].
  inversion Hb; subst b.
  split; [| split; [| split; [| split]]]; cbn [fst snd].
  - exact (Forall_lookup_1 _ _ _ _ Ho Hj).
  - destruct (Forall2_lookup_l _ _ _ _ _ Hrings Hj) as (r & _ & Hne & _).
    exact Hne.
  - apply Forall_forall. intros wv Hwv. apply kids_stored in Hwv.
    rewrite Forall_forall in Hi. auto.
  - exact (Forall_lookup_1 _ _ _ _ Hso Hj).
  - apply Forall_forall. intros wv Hwv. apply kids_stored in Hwv.
    rewrite Forall_forall in Hsi. auto.
Qed.

Lemma groups_elem (groups : list (bool * list Z)) (w : Z) :
  w ∈ flat_map (fun g : bool * list Z => mark (fst g) :: snd g) groups ->
  is_ring_end w = true \/ exists g, g ∈ groups /\ w ∈ snd g.
Proof.
  induction groups as [|g groups IH]; cbn [flat_map]; intros Hw.
  - apply elem_of_nil in Hw. contradiction.
  - apply elem_of_app in Hw as [Hw|Hw].
    + apply elem_of_cons in Hw as [->|Hw].
      * left. apply mark_is_ring_end.
      * right. exists g. split; [left | exact Hw].
    + destruct (IH Hw) as [Hm|(g' & Hg' & Hw')]; [auto |].
      right. exists g'. split; [right; exact Hg' | exact Hw'].
Qed.

Lemma ring_groups_elem (bl : list (list Z * list (list Z)))
    (g : bool * list Z) :
  g ∈ ring_groups bl ->
  exists b, b ∈ bl /\ (snd g = fst b \/ snd g ∈ snd b).
Proof.
  induction bl as [|b bl IH]; cbn [ring_groups flat_map]; intros Hg.
  - apply elem_of_nil in Hg. contradiction.
  - apply elem_of_cons in Hg as [->|Hg].
    { exists b. split; [left | left; reflexivity]. }
    apply elem_of_app in Hg as [Hg|Hg].
    + apply list_elem_of_fmap in Hg as (wv & -> & Hwv).
      exists b. split; [left | right; exact Hwv].
    + destruct (IH Hg) as (b' & Hb' & Hor).
      exists b'. split; [right; exact Hb' | exact Hor].
Qed.

(** Every element of the encoded sequence is a mark or a way of a ring of
    a block. *)
Lemma encode_blocks_elem (bl : list (list Z * list (list Z))) (w : Z) :
  w ∈ encode_blocks bl ->
  is_ring_end w = true \/
  exists b, b ∈ bl /\ (w ∈ fst b \/ exists wv, wv ∈ snd b /\ w ∈ wv).
Proof.
  destruct bl as [|b bl].
  { intros Hw. apply elem_of_nil in Hw. contradiction. }
  rewrite encode_blocks_join. unfold join_rings. intros Hw.
  apply elem_of_app in Hw as [Hw|Hw].
  { right. exists b. split; [left | left; exact Hw]. }
  apply groups_elem in Hw as [Hm|(g & Hg & Hw)]; [auto |]. right.
  apply elem_of_app in Hg as [Hg|Hg].
  - apply list_elem_of_fmap in Hg as (wv & -> & Hwv).
    exists b. split; [left |]. right. exists wv. auto.
  - apply ring_groups_elem in Hg as (b' & Hb' & [Heq|Hin]).
    + exists b'. split; [right; exact Hb' |]. left. rewrite <- Heq. exact Hw.
    + exists b'. split; [right; exact Hb' |]. right. eauto.
Qed.

(** The assembly, step by step, on a store that satisfies the invariants
    of the data model. *)
Lemma assembly_blocks s (outerWayVec innerWayVec : list Z) :
  store_ok s ->
  exists outers inners,
    construct_rings s outerWayVec = Done outers /\
    construct_rings s innerWayVec = Done inners /\
    Forall2 (ring_ok s outerWayVec) (wayVecVec outers) (ringVec outers) /\
    Forall2 (ring_ok s innerWayVec) (wayVecVec inners) (ringVec inners) /\
    Forall (block_ok s) (blocks outers (pairs_of inners)) /\
    correctMultiPolygonRelation s outerWayVec innerWayVec
    = Done (encode_blocks (blocks outers (pairs_of inners))) /\
    wayListMultiPolygon s (encode_blocks (blocks outers (pairs_of inners)))
    = Done (correct_multipolygon
              (polygons_of s (blocks outers (pairs_of inners)))).
Proof.
  intros Hok.
  destruct (construct_rings_Done s outerWayVec Hok)
    as (outers & Ho & Hwo & Hso & Hlo).
  destruct (construct_rings_Done s innerWayVec Hok)
    as (inners & Hi & Hwi & Hsi & Hli).
  pose proof (construct_rings_ring_ok s _ _ Ho) as Hro.
  pose proof (construct_rings_ring_ok s _ _ Hi) as Hri.
  pose proof (blocks_ok s outerWayVec innerWayVec outers inners
                Hwo Hso Hwi Hsi Hro) as Hbl.
  assert (Hdec : wayListMultiPolygon s
                   (encode_blocks (blocks outers (pairs_of inners)))
                 = Done (correct_multipolygon
                           (polygons_of s (blocks outers (pairs_of inners))))).
  { unfold wayListMultiPolygon.
    pose proof (wayListRings_blocks s _ Hok Hbl) as Hrings.
    destruct (encode_blocks (blocks outers (pairs_of inners))) as [|w W] eqn:HW.
    - simpl in Hrings. inversion Hrings as [Hnil]. reflexivity.
    - rewrite Hrings. reflexivity. }
  exists outers, inners.
  split; [exact Ho |]. split; [exact Hi |]. split; [exact Hro |].
  split; [exact Hri |]. split; [exact Hbl |]. split; [| exact Hdec].
  unfold correctMultiPolygonRelation. rewrite Ho, Hi. cbn [bind].
  rewrite <- (rings_of_pairs_of inners Hli) at 1.
  rewrite (encode_rings_blocks outers (pairs_of inners) Hlo). cbn [bind].
  rewrite Hdec. reflexivity.
Qed.

End AssemblyFacts.

Section AssemblyExtras.
Import OsmStore Spec.
Context `{Geometry}.

Lemma ring_end_is_mark (w : Z) : is_ring_end w = true -> is_mark w = true.
Proof. unfold is_mark. intros ->. reflexivity. Qed.

Lemma ring_ok_stored s (wayVec : list Z) (rs : rings) (wv : list Z) :
  Forall2 (ring_ok s wayVec) (wayVecVec rs) (ringVec rs) ->
  wv ∈ wayVecVec rs ->
  forall w, w ∈ wv -> w = PSEUDO_WAY_REVERSE_MARK \/ w ∈ wayVec.
Proof.
  intros Hrings Hwv. apply list_elem_of_lookup in Hwv as [i Hi].
  destruct (Forall2_lookup_l _ _ _ _ _ Hrings Hi) as (r & _ & _ & _ & _ & Hin).
  exact Hin.
Qed.

(** X12.  On a store that satisfies the invariants of the data model,
    [correctMultiPolygonRelation] returns the encoded sequence of the
    rings it keeps: the rings found in the outer bag that are valid, in
    the order in which they are found, each followed by the inner rings
    whose parent it is, in the order in which those are found; an outer
    mark stands before every outer ring but the first and an inner mark
    before every inner ring.  Every ring kept is valid, is the corrected
    ring of its ways and has at least one way; and every element of the
    sequence is a mark or a way of one of the two bags. *)
Theorem correctMultiPolygonRelation_encoding (s : OSMStore)
    (outerWayVec innerWayVec : WayVec) :
  store_ok s ->
  exists outers inners,
    construct_rings s outerWayVec = Done outers /\
    construct_rings s innerWayVec = Done inners /\
    correctMultiPolygonRelation s outerWayVec innerWayVec
    = Done (encode_blocks (blocks outers (pairs_of inners))) /\
    Forall2 (ring_ok s outerWayVec) (wayVecVec outers) (ringVec outers) /\
    Forall2 (ring_ok s innerWayVec) (wayVecVec inners) (ringVec inners) /\
    forall w, w ∈ encode_blocks (blocks outers (pairs_of inners)) ->
      is_mark w = true \/ w ∈ outerWayVec \/ w ∈ innerWayVec.
Proof.
  intros Hok.
  destruct (assembly_blocks s outerWayVec innerWayVec Hok)
    as (outers & inners & Ho & Hi & Hro & Hri & _ & Hrun & _).
  exists outers, inners.
  split; [exact Ho |]. split; [exact Hi |]. split; [exact Hrun |].
  split; [exact Hro |]. split; [exact Hri |].
  intros w Hw.
  apply encode_blocks_elem in Hw as [Hm|(b & Hb & Hw)];
    [left; apply ring_end_is_mark; exact Hm |].
  apply list_elem_of_lookup in Hb as [j Hj].
  unfold blocks in Hj. rewrite list_lookup_imap in Hj.
  destruct (wayVecVec outers !! j) as [o|] eqn:Hoj; [| discriminate].
  inversion Hj; subst b. cbn [fst snd] in Hw.
  destruct Hw as [Hw|(wv & Hwv & Hw)].
  - destruct (ring_ok_stored s _ _ o Hro
                (list_elem_of_lookup_2 _ _ _ Hoj) w Hw) as [->|Hin];
      [left; reflexivity | right; left; exact Hin].
  - apply kids_stored in Hwv.
    destruct (ring_ok_stored s _ _ wv Hri Hwv w Hw) as [->|Hin];
      [left; reflexivity | right; right; exact Hin].
Qed.

(** X13.  On such a store the sequence that
    [correctMultiPolygonRelation] returns is read back by
    [wayListMultiPolygon] as the rings it was made from: the multipolygon
    has one polygon for every outer ring kept, in their order, with that
    ring as its exterior ring; the interior rings of the polygon are the
    inner rings whose parent the outer ring is, corrected as interior
    rings; and each of them, as the assembly saw it, is within that
    exterior ring. *)
Theorem correctMultiPolygonRelation_round_trip (s : OSMStore)
    (outerWayVec innerWayVec result : WayVec) :
  store_ok s ->
  correctMultiPolygonRelation s outerWayVec innerWayVec = Done result ->
  exists outers inners mp,
    construct_rings s outerWayVec = Done outers /\
    construct_rings s innerWayVec = Done inners /\
    wayListMultiPolygon s result = Done mp /\
    map outer mp = ringVec outers /\
    (forall j poly, mp !! j = Some poly ->
       OsmStore.inners poly
       = map (fun wv => correct_interior (raw_ring s wv))
           (kids (ringVec outers) (pairs_of inners) j)) /\
    (forall j wv, wv ∈ kids (ringVec outers) (pairs_of inners) j ->
       exists o, ringVec outers !! j = Some o /\
         within (correct_ring (raw_ring s wv)) o = true).
Proof.
  intros Hok Hres.
  destruct (assembly_blocks s outerWayVec innerWayVec Hok)
    as (outers & inners & Ho & Hi & Hro & Hri & _ & Hrun & Hdec).
  rewrite Hrun in Hres. injection Hres as <-.
  exists outers, inners, (correct_multipolygon
                            (polygons_of s (blocks outers (pairs_of inners)))).
  split; [exact Ho |]. split; [exact Hi |]. split; [exact Hdec |].
  split; [| split].
  - apply list_eq. intros j.
    unfold correct_multipolygon, polygons_of, blocks.
    rewrite !list_lookup_fmap, list_lookup_imap.
    destruct (wayVecVec outers !! j) as [o|] eqn:Hoj.
    + destruct (Forall2_lookup_l _ _ _ _ _ Hro Hoj) as (r & -> & _ & -> & _).
      reflexivity.
    + symmetry. apply lookup_ge_None.
      rewrite <- (Forall2_length _ _ _ Hro). apply lookup_ge_None. exact Hoj.
  - intros j poly Hpoly.
    unfold correct_multipolygon, polygons_of, blocks in Hpoly.
    rewrite !list_lookup_fmap, list_lookup_imap in Hpoly.
    destruct (wayVecVec outers !! j) as [o|]; [| discriminate].
    inversion Hpoly; subst poly. cbn [correct_polygon OsmStore.inners fst snd].
    rewrite map_map. reflexivity.
  - intros j wv Hwv. unfold kids in Hwv.
    apply list_elem_of_fmap in Hwv as ([r wv'] & -> & Hp).
    apply list_elem_of_filter in Hp as [Hparent Hp]. cbn [fst snd] in *.
    unfold pairs_of in Hp. apply list_elem_of_lookup in Hp as [i Hi'].
    apply lookup_zip_Some in Hi' as [Hr Hwv].
    pose proof (Forall2_lookup_lr _ _ _ _ _ _ Hri Hwv Hr) as (_ & Heq & _).
    rewrite <- Heq.
    destruct (find_parent_spec r (ringVec outers)) as (parent & Hfind & Hinv).
    unfold parent_of in Hparent. rewrite Hfind in Hparent. subst parent.
    simpl in Hinv. destruct Hinv as (_ & op & Hop & Hin & _).
    exists op. split; assumption.
Qed.

End AssemblyExtras.

Lemma correctMultiPolygonRelation_encoding_witness :
  exists outers inners,
    @OsmStore.construct_rings Sample.box_geometry Sample.sample_store [10; 11]
    = OsmStore.Done outers /\
    @OsmStore.construct_rings Sample.box_geometry Sample.sample_store [20]
    = OsmStore.Done inners /\
    @OsmStore.correctMultiPolygonRelation Sample.box_geometry
      Sample.sample_store [10; 11] [20]
    = OsmStore.Done
        (Spec.encode_blocks
           (@Spec.blocks Sample.box_geometry outers (Spec.pairs_of inners))) /\
    Forall2 (@Spec.ring_ok Sample.box_geometry Sample.sample_store [10; 11])
      (OsmStore.wayVecVec outers) (OsmStore.ringVec outers) /\
    Forall2 (@Spec.ring_ok Sample.box_geometry Sample.sample_store [20])
      (OsmStore.wayVecVec inners) (OsmStore.ringVec inners) /\
    forall w,
      w ∈ Spec.encode_blocks
            (@Spec.blocks Sample.box_geometry outers (Spec.pairs_of inners)) ->
      Spec.is_mark w = true \/ w ∈ [10; 11] \/ w ∈ [20].
Proof.
  exact (@correctMultiPolygonRelation_encoding Sample.box_geometry
           Sample.sample_store [10; 11] [20] sample_store_ok).
Defined.

Lemma correctMultiPolygonRelation_round_trip_witness :
  exists outers inners mp,
    @OsmStore.construct_rings Sample.box_geometry Sample.sample_store [10; 11]
    = OsmStore.Done outers /\
    @OsmStore.construct_rings Sample.box_geometry Sample.sample_store [20]
    = OsmStore.Done inners /\
    @OsmStore.wayListMultiPolygon Sample.box_geometry Sample.sample_store
      [10; OsmStore.PSEUDO_WAY_INNER_MARK; 20; OsmStore.PSEUDO_WAY_OUTER_MARK;
       11]
    = OsmStore.Done mp /\
    map OsmStore.outer mp = OsmStore.ringVec outers /\
    (forall j poly, mp !! j = Some poly ->
       OsmStore.inners poly
       = map (fun wv => @OsmStore.correct_interior Sample.box_geometry
                          (Spec.raw_ring Sample.sample_store wv))
           (@Spec.kids Sample.box_geometry (OsmStore.ringVec outers)
              (Spec.pairs_of inners) j)) /\
    (forall j wv,
       wv ∈ @Spec.kids Sample.box_geometry (OsmStore.ringVec outers)
              (Spec.pairs_of inners) j ->
       exists o, OsmStore.ringVec outers !! j = Some o /\
         @OsmStore.within Sample.box_geometry
           (@OsmStore.correct_ring Sample.box_geometry
              (Spec.raw_ring Sample.sample_store wv)) o = true).
Proof.
  apply (@correctMultiPolygonRelation_round_trip Sample.box_geometry
           Sample.sample_store [10; 11] [20]
           [10; OsmStore.PSEUDO_WAY_INNER_MARK; 20;
            OsmStore.PSEUDO_WAY_OUTER_MARK; 11] sample_store_ok).
  vm_compute. reflexivity.
Defined.

(** ** The ring walk: the choice of the next way *)

Section NearestFacts.
Import OsmStore Spec.




End NearestFacts.

Section NearestExtras.
Import OsmStore Spec.


End NearestExtras.


(** ** The assembly on bags without available ways, and on a single way *)

Section EdgeFacts.
Import OsmStore Spec.
Context `{Geometry}.

(** A bag none of whose ways is in the store gives no ring. *)
Lemma construct_rings_unavailable s (wayVec : list Z) :
  Forall (fun w => WayStore.count (ways s) w = 0%nat) wayVec ->
  construct_rings s wayVec = Done (mkRings [] []).
Proof.
  intros Hun. unfold construct_rings, for_range.
  destruct (for_range_from_Done
              (fun j (st : list bool * list (LatpLon * LatpLon)) =>
                 length (fst st) = length wayVec /\
                 length (snd st) = length wayVec /\
                 forall i, (i < j)%nat -> fst st !! i = Some true)
              (remember_ends s wayVec) (length wayVec) 0
              (replicate (length wayVec) false,
               replicate (length wayVec) no_coords))
    as ([m ends] & -> & Hm & Hends & Hall).
  - cbn [fst snd]. rewrite !length_replicate.
    split; [reflexivity |]. split; [reflexivity |]. intros i Hi. lia.
  - intros j [mj ej] Hj (Hl1 & Hl2 & Hlt). cbn [fst snd] in *.
    unfold remember_ends.
    destruct (lookup_lt_is_Some_2 wayVec j) as [w Hw]; [lia |].
    rewrite Hw. rewrite (Forall_lookup_1 _ _ _ _ Hun Hw).
    change (0 =? 0)%nat with true. cbv iota.
    eexists. split; [reflexivity |]. cbn [fst snd].
    split; [rewrite length_insert; exact Hl1 |]. split; [exact Hl2 |].
    intros i Hi. destruct (decide (i = j)) as [->|Hne].
    + apply list_lookup_insert_eq. lia.
    + rewrite list_lookup_insert_ne by congruence. apply Hlt. lia.
  - cbn [bind fst snd] in *.
    destruct (for_range_from_Done
                (fun (_ : nat) (st : list bool * rings) =>
                   st = (m, mkRings [] []))
                (construct_ring s wayVec ends) (length wayVec) 0
                (m, mkRings [] [])) as (st' & -> & ->); [reflexivity | |].
    + intros j t Hj ->. unfold construct_ring. cbn [fst snd].
      rewrite (Hall j) by lia.
      destruct (lookup_lt_is_Some_2 ends j) as [e ->]; [lia |].
      eexists. split; reflexivity.
    + reflexivity.
Qed.

Lemma way_at_count (ws : WayStore.t) (w : Z) (nodeList : list Z) :
  WayStore.at_ ws w = Ret nodeList -> WayStore.count ws w = 1%nat.
Proof.
  unfold WayStore.at_, WayStore.count, map_at, map_count.
  destruct (WayStore.mNodeLists ws !! w); [reflexivity | discriminate].
Qed.

(** The bag of one stored way gives the ring of the way, if it is
    valid. *)
Lemma construct_rings_single s (w : Z) (nodeList : list Z) :
  store_ok s -> WayStore.at_ (ways s) w = Ret nodeList -> nodeList <> [] ->
  construct_rings s [w]
  = Done (if is_valid_ring (correct_ring (raw_ring s [w]))
          then mkRings [[w]] [correct_ring (raw_ring s [w])]
          else mkRings [] []).
Proof.
  intros Hok Hat Hne.
  destruct (Hok w nodeList Hat) as [Hmark Hres].
  destruct (stored_not_mark s w nodeList Hok Hat) as [_ Hrev].
  assert (Hring : ways_ring s [w] [] = Done (raw_ring s [w])).
  { apply ways_ok_raw_ring; [exact Hok | | simpl; eauto].
    eapply ways_ok_way; [exact Hat | constructor]. }
  destruct nodeList as [|front nodeList]; [congruence |].
  destruct (last (front :: nodeList)) as [back|] eqn:Hlast;
    [| apply last_None in Hlast; discriminate].
  destruct (resolvable_at s (front :: nodeList) front Hres) as [cf Hcf];
    [left |].
  destruct (resolvable_at s (front :: nodeList) back Hres) as [cb Hcb];
    [apply last_Some_elem_of; exact Hlast |].
  unfold construct_rings, for_range.
  cbn [length for_range_from replicate]. unfold remember_ends at 1.
  cbn [lookup list_lookup].
  change ([w] !! 0%nat) with (Some w).
  rewrite (way_at_count _ _ _ Hat). change (1 =? 0)%nat with false. cbv iota.
  rewrite Hat. cbn [lift bind]. rewrite Hlast, Hcf, Hcb.
  cbn [lift bind fst snd list_insert insert].
  unfold construct_ring at 1. cbn [fst snd].
  change ([false] !! 0%nat) with (Some false).
  change ([(cf, cb)] !! 0%nat) with (Some (cf, cb)). cbv iota.
  cbn [length walk]. unfold walk_body at 1.
  cbn [nextIdx matched currentWayVec w_reverse].
  change ([w] !! 0%nat) with (Some w).
  change ([(cf, cb)] !! 0%nat) with (Some (cf, cb)). cbv iota beta zeta.
  unfold for_range. cbn [length for_range_from].
  unfold search_body at 1.
  change (<[0%nat:=true]> [false] !! 0%nat) with (Some true).
  change ([(cf, cb)] !! 0%nat) with (Some (cf, cb)). cbv iota.
  cbn [bind s_nextIdx s_reverse nextIdx]. change (0 =? 0)%nat with true.
  cbv iota. cbn [bind currentWayVec app]. rewrite Hring. cbn [bind].
  destruct (is_valid_ring (correct_ring (raw_ring s [w]))); reflexivity.
Qed.

End EdgeFacts.

Section EdgeExtras.
Import OsmStore Spec.
Context `{Geometry}.

(** X15.  When none of the ways of the outer bag is in the store,
    [correctMultiPolygonRelation] returns the empty sequence: without
    store lookups other than [count] if the same holds for the inner bag
    (so also for two empty bags), and on a store that satisfies the
    invariants of the data model whatever the inner bag is: inner rings
    are dropped when there is no outer ring. *)
Theorem unavailable_outer_ways_give_nothing (s : OSMStore)
    (outerWayVec innerWayVec : WayVec) :
  Forall (fun w => WayStore.count (ways s) w = 0%nat) outerWayVec ->
  (Forall (fun w => WayStore.count (ways s) w = 0%nat) innerWayVec ->
   correctMultiPolygonRelation s outerWayVec innerWayVec = Done []) /\
  (store_ok s ->
   correctMultiPolygonRelation s outerWayVec innerWayVec = Done []).
Proof.
  intros Ho. pose proof (construct_rings_unavailable s _ Ho) as Houter.
  split.
  - intros Hi. unfold correctMultiPolygonRelation.
    rewrite Houter, (construct_rings_unavailable s _ Hi). reflexivity.
  - intros Hok.
    destruct (assembly_blocks s outerWayVec innerWayVec Hok)
      as (outers & inners & Ho' & _ & _ & _ & _ & Hrun & _).
    rewrite Houter in Ho'. injection Ho' as <-. exact Hrun.
Qed.

(** X16.  For a bag of one way that is in the store with at least one
    node, and an empty inner bag, [correctMultiPolygonRelation] on a store
    that satisfies the invariants of the data model returns the way alone
    if the corrected ring of its points is valid, and the empty sequence
    otherwise; the ring is made of the points of the nodes of the way,
    without equal neighbours.  A way without nodes gives the empty
    sequence. *)
Theorem single_way_relation (s : OSMStore) (w : WayID) (nodeList : NodeVec) :
  store_ok s -> WayStore.at_ (ways s) w = Ret nodeList ->
  raw_ring s [w] = pushed s nodeList dummy /\
  (nodeList <> [] ->
   correctMultiPolygonRelation s [w] []
   = Done (if is_valid_ring (correct_ring (raw_ring s [w])) then [w]
           else [])) /\
  (nodeList = [] -> correctMultiPolygonRelation s [w] [] = Done []).
Proof.
  intros Hok Hat.
  destruct (Hok w nodeList Hat) as [_ Hres].
  destruct (stored_not_mark s w nodeList Hok Hat) as [_ Hrev].
  split; [| split].
  - apply raw_ring_Done. cbn [ways_ring]. rewrite Hrev, Hat. cbn [lift bind].
    rewrite fill_forward by exact Hres. reflexivity.
  - intros Hne.
    destruct (assembly_blocks s [w] [] Hok)
      as (outers & inners & Ho & Hi & _ & _ & _ & Hrun & _).
    rewrite (construct_rings_single s w nodeList Hok Hat Hne) in Ho.
    injection Ho as <-. change (construct_rings s []) with
      (Done (mkRings [] [])) in Hi. injection Hi as <-.
    rewrite Hrun.
    destruct (is_valid_ring (correct_ring (raw_ring s [w]))); reflexivity.
  - intros ->.
    destruct (assembly_blocks s [w] [] Hok)
      as (outers & inners & Ho & _ & _ & _ & _ & Hrun & _).
    rewrite Hrun. f_equal.
    assert (Hnone : construct_rings s [w] = Done (mkRings [] [])).
    { unfold construct_rings, for_range.
      cbn [length for_range_from replicate]. unfold remember_ends at 1.
      cbn [lookup list_lookup].
      rewrite (way_at_count _ _ _ Hat). change (1 =? 0)%nat with false.
      cbv iota. rewrite Hat. reflexivity. }
    rewrite Hnone in Ho. injection Ho as <-. reflexivity.
Qed.

End EdgeExtras.

Lemma unavailable_outer_ways_give_nothing_witness :
  @OsmStore.correctMultiPolygonRelation Sample.box_geometry
    Sample.sample_store [500; 501] [20]
  = OsmStore.Done [].
Proof.
  apply (@unavailable_outer_ways_give_nothing Sample.box_geometry
           Sample.sample_store [500; 501] [20]).
  - repeat (constructor; [vm_compute; reflexivity |]). constructor.
  - exact sample_store_ok.
Defined.

Lemma single_way_relation_witness :
  @OsmStore.correctMultiPolygonRelation Sample.box_geometry
    Sample.sample_store [10] []
  = OsmStore.Done
      (if @OsmStore.is_valid_ring Sample.box_geometry
            (@OsmStore.correct_ring Sample.box_geometry
               (Spec.raw_ring Sample.sample_store [10]))
       then [10] else []).
Proof.
  apply (@single_way_relation Sample.box_geometry Sample.sample_store 10
           [1; 2; 3; 4; 1] sample_store_ok).
  - vm_compute. reflexivity.
  - discriminate.
Defined.

(** ** The assembly on a store with missing nodes *)

Section SafetyFacts.
Import OsmStore Spec.
Context `{Geometry}.

Lemma rot_bind {A B} (Q : A -> Prop) (P : B -> Prop) (r : run A)
    (f : A -> run B) :
  returns_or_throws Q r ->
  (forall a, Q a -> returns_or_throws P (f a)) ->
  returns_or_throws P (bind r f).
Proof. destruct r; simpl; auto. Qed.

Lemma rot_lift {A} (P : A -> Prop) (r : res A) :
  (forall a, r = Ret a -> P a) -> returns_or_throws P (lift r).
Proof. destruct r; simpl; auto. Qed.

(** A call returns or throws unless it is one with [reverse] on an empty
    sink; when it returns, the sink holds a point if it held one before or
    the node sequence is not empty. *)
Lemma rot_fill s points nodeList rev :
  (rev = true -> points <> []) ->
  returns_or_throws
    (fun ring => points <> [] \/ nodeList <> [] -> ring <> [])
    (fill s points nodeList rev).
Proof.
  intros Hrev.
  destruct (fill_cases s points nodeList rev)
    as [[ring Hfill]|[->|(_ & -> & ->)]];
    [| exact I | exfalso; apply Hrev; reflexivity].
  rewrite Hfill. cbn [returns_or_throws]. intros Hne.
  apply (fill_nonempty s points nodeList rev ring Hfill).
  destruct points as [|p points]; [| left; discriminate].
  right. destruct Hne as [Hne|Hne]; [contradiction |].
  split; [| exact Hne].
  destruct rev; [exfalso; apply Hrev; reflexivity | reflexivity].
Qed.

(** A [for] loop whose body returns or throws, within the index range and
    under the invariant, returns or throws. *)
Lemma for_range_from_rot {St} (P : nat -> St -> Prop)
    (body : nat -> St -> run St) :
  forall n i s,
    P i s ->
    (forall j t, (i <= j < i + n)%nat -> P j t ->
                 returns_or_throws (P (S j)) (body j t)) ->
    returns_or_throws (P (i + n)%nat) (for_range_from i n body s).
Proof.
  induction n as [|n IH]; intros i s Hs Hbody; cbn [for_range_from].
  - simpl. rewrite Nat.add_0_r. exact Hs.
  - apply (rot_bind (P (S i))); [apply Hbody; [lia | exact Hs] |].
    intros t Ht. replace (i + S n)%nat with (S i + n)%nat by lia.
    apply IH; [exact Ht |]. intros j u Hj Hu. apply Hbody; [lia | exact Hu].
Qed.

(** The loop that remembers the ends of the ways reads every vector inside
    its bounds; the ways it leaves unconsumed are stored with at least one
    node. *)
Lemma remember_loop_rot s (wayVec : list Z) :
  returns_or_throws
    (fun st : list bool * list (LatpLon * LatpLon) =>
       length (fst st) = length wayVec /\ length (snd st) = length wayVec /\
       unmatched_filled s wayVec (fst st))
    (for_range (length wayVec) (remember_ends s wayVec)
       (replicate (length wayVec) false,
        replicate (length wayVec) no_coords)).
Proof.
  unfold for_range.
  pose proof (for_range_from_rot
                (fun j (st : list bool * list (LatpLon * LatpLon)) =>
                   length (fst st) = length wayVec /\
                   length (snd st) = length wayVec /\
                   forall i, (i < j)%nat -> fst st !! i = Some false ->
                     exists w nodeList, wayVec !! i = Some w /\
                       WayStore.at_ (ways s) w = Ret nodeList /\
                       nodeList <> [])
                (remember_ends s wayVec) (length wayVec) 0
                (replicate (length wayVec) false,
                 replicate (length wayVec) no_coords)) as Hloop.
  match type of Hloop with
  | ?A -> ?B -> _ => assert (Ha : A); [| assert (Hb : B);
                                          [| specialize (Hloop Ha Hb)]]
  end.
  - simpl. rewrite !length_replicate. repeat split; try reflexivity.
    intros i Hi. lia.
  - intros j [m ends] Hj (Hlen1 & Hlen2 & Hstored). simpl in *.
    unfold remember_ends. cbn [fst snd].
    destruct (lookup_lt_is_Some_2 wayVec j) as [w Hw]; [lia |]. rewrite Hw.
    assert (Hmark : returns_or_throws
              (fun t' : list bool * list (LatpLon * LatpLon) =>
                 length (fst t') = length wayVec /\
                 length (snd t') = length wayVec /\
                 forall i, (i < S j)%nat -> fst t' !! i = Some false ->
                   exists w nodeList, wayVec !! i = Some w /\
                     WayStore.at_ (ways s) w = Ret nodeList /\
                     nodeList <> [])
              (Done (<[j:=true]> m, ends))).
    { cbn [returns_or_throws fst snd].
      rewrite length_insert. repeat split; try assumption.
      intros i Hi Hfalse.
      destruct (decide (i = j)) as [->|Hne].
      - rewrite list_lookup_insert_eq in Hfalse by lia. discriminate.
      - rewrite list_lookup_insert_ne in Hfalse by auto.
        apply Hstored; [lia | exact Hfalse]. }
    destruct (WayStore.count (ways s) w =? 0)%nat eqn:Hcount;
      [exact Hmark |].
    destruct (map_count_at _ _ Hcount) as [nl Hnl].
    change (WayStore.at_ (ways s) w)
      with (map_at (WayStore.mNodeLists (ways s)) w).
    rewrite Hnl. cbn [lift bind].
    destruct nl as [|front nl]; [exact Hmark |].
    destruct (last (front :: nl)) as [back|] eqn:Hlast; [| exact Hmark].
    apply (rot_bind (fun _ => True)); [apply rot_lift; auto |].
    intros cf _.
    apply (rot_bind (fun _ => True)); [apply rot_lift; auto |].
    intros cb _. cbn [returns_or_throws fst snd].
    rewrite length_insert. repeat split; try assumption.
    intros i Hi Hfalse.
    destruct (decide (i = j)) as [->|Hne].
    + exists w, (front :: nl).
      split; [exact Hw |]. split; [exact Hnl | discriminate].
    + apply Hstored; [lia | exact Hfalse].
  - cbn [Nat.add] in Hloop.
    destruct (for_range_from 0 (length wayVec) (remember_ends s wayVec)
                (replicate (length wayVec) false,
                 replicate (length wayVec) no_coords))
      as [st|e| | |]; cbn [returns_or_throws] in *; try exact Hloop.
    destruct Hloop as (Hlen1 & Hlen2 & Hstored).
    repeat split; try assumption.
    intros i Hfalse. apply Hstored; [| exact Hfalse].
    rewrite <- Hlen1. eapply lookup_lt_Some, Hfalse.
Qed.

(** The loop of a ring, on the ways of a ring followed by the rings that
    come after it, returns the part after the ways, or throws: the first
    way gives the sink a point before a way is joined in reverse. *)
Lemma ring_loop_rot s (seg rest : list Z) :
  marks_unused s -> ways_ok s seg -> ring_stop rest ->
  forall ring0, ring0 <> [] \/ starts_forward s seg ->
    returns_or_throws (fun r => snd r = rest)
      (ring_loop s (seg ++ rest) ring0).
Proof.
  intros Hun Hseg Hstop.
  induction Hseg as [|w nl seg Hat _ IH|w nl seg Hat _ IH];
    intros ring0 Hstart.
  - cbn [app]. destruct rest as [|m rest]; [reflexivity |].
    cbn [ring_loop]. simpl in Hstop. rewrite Hstop. reflexivity.
  - cbn [app ring_loop].
    destruct (stored_unmarked s w nl Hun Hat) as [-> Hrev].
    apply Z.eqb_neq in Hrev. rewrite Hrev, Hat. cbn [lift bind].
    apply (rot_bind (fun ring => ring0 <> [] \/ nl <> [] -> ring <> []));
      [apply rot_fill; discriminate |].
    intros ring Hring. apply IH. left. apply Hring.
    destruct Hstart as [Hne|(nl' & Hat' & Hne)]; [left; exact Hne |].
    right. congruence.
  - assert (Hne0 : ring0 <> []).
    { destruct Hstart as [Hne|(nl' & Hat' & _)]; [exact Hne |].
      destruct (stored_unmarked s _ nl' Hun Hat') as [_ Hrev].
      contradiction. }
    cbn [app ring_loop].
    change (is_ring_end PSEUDO_WAY_REVERSE_MARK) with false.
    change (PSEUDO_WAY_REVERSE_MARK =? PSEUDO_WAY_REVERSE_MARK) with true.
    cbv iota. rewrite Hat. cbn [lift bind].
    apply (rot_bind (fun ring => ring0 <> [] \/ nl <> [] -> ring <> []));
      [apply rot_fill; intros _; exact Hne0 |].
    intros ring Hring. apply IH. left. apply Hring. left. exact Hne0.
Qed.

Lemma ways_ring_rot s (ws : list Z) :
  marks_unused s -> ways_ok s ws ->
  forall ring0, ring0 <> [] \/ starts_forward s ws ->
    returns_or_throws (fun _ => True) (ways_ring s ws ring0).
Proof.
  intros Hun Hws.
  induction Hws as [|w nl rest Hat _ IH|w nl rest Hat _ IH];
    intros ring0 Hstart.
  - exact I.
  - cbn [ways_ring].
    destruct (stored_unmarked s w nl Hun Hat) as [_ Hrev].
    apply Z.eqb_neq in Hrev. rewrite Hrev, Hat. cbn [lift bind].
    apply (rot_bind (fun ring => ring0 <> [] \/ nl <> [] -> ring <> []));
      [apply rot_fill; discriminate |].
    intros ring Hring. apply IH. left. apply Hring.
    destruct Hstart as [Hne|(nl' & Hat' & Hne)]; [left; exact Hne |].
    right. congruence.
  - assert (Hne0 : ring0 <> []).
    { destruct Hstart as [Hne|(nl' & Hat' & _)]; [exact Hne |].
      destruct (stored_unmarked s _ nl' Hun Hat') as [_ Hrev].
      contradiction. }
    cbn [ways_ring].
    change (PSEUDO_WAY_REVERSE_MARK =? PSEUDO_WAY_REVERSE_MARK) with true.
    cbv iota. rewrite Hat. cbn [lift bind].
    apply (rot_bind (fun ring => ring0 <> [] \/ nl <> [] -> ring <> []));
      [apply rot_fill; intros _; exact Hne0 |].
    intros ring Hring. apply IH. left. apply Hring. left. exact Hne0.
Qed.

(** The construction of the rings of a bag returns rings made of stored
    ways, the first of each with a node, or throws. *)
Lemma construct_rings_rot s (wayVec : list Z) :
  marks_unused s ->
  returns_or_throws
    (fun rs => Forall (ways_ok s) (wayVecVec rs) /\
               Forall (starts_forward s) (wayVecVec rs) /\
               length (wayVecVec rs) = length (ringVec rs))
    (construct_rings s wayVec).
Proof.
  intros Hun. unfold construct_rings.
  eapply rot_bind; [apply remember_loop_rot |].
  intros [m ends] (Hlen1 & Hlen2 & Hfilled). cbn [fst snd] in *.
  eapply rot_bind.
  - unfold for_range.
    apply (for_range_from_rot
             (fun (_ : nat) st =>
                rings_ok s wayVec st /\
                unmatched_filled s wayVec (fst st) /\
                Forall (starts_forward s) (wayVecVec (snd st)))
             (construct_ring s wayVec ends) (length wayVec) 0
             (m, mkRings [] [])).
    + split; [| split; [exact Hfilled | constructor]].
      split; [exact Hlen1 |].
      split; [apply unmatched_filled_stored; exact Hfilled |].
      split; [constructor | reflexivity].
    + intros j [mj rsj] Hj ((Hl & Hst & Hw & Hls) & Hfl & Hsf).
      cbn [fst snd] in *.
      unfold construct_ring. cbn [fst snd].
      destruct (lookup_lt_is_Some_2 mj j) as [b Hb]; [lia |]. rewrite Hb.
      destruct (lookup_lt_is_Some_2 ends j) as [e ->]; [lia |].
      destruct b.
      { cbn [returns_or_throws].
        split; [| split; assumption].
        split; [exact Hl |]. split; [exact Hst |]. split; assumption. }
      destruct (walk_total s wayVec ends j (fst e) Hlen2 ltac:(lia)
                  (length wayVec) (mkWalk mj [] j false))
        as (st' & Hwalk & [Hl' Hn' Hst' Hw']).
      * split; simpl; [exact Hl | lia | exact Hst | constructor].
      * exact Hb.
      * simpl. pose proof (unmatched_le_length mj). lia.
      * destruct (walk_started_Done s _ _ _ _ _ _ _ Hwalk)
          as [(Hfl' & Hsf' & _) _].
        { split; [exact Hfl |]. split; [exact I | reflexivity]. }
        { exact Hb. }
        rewrite Hwalk. cbn [bind].
        apply (rot_bind (fun _ => True));
          [apply ways_ring_rot; [assumption | assumption | right; exact Hsf'] |].
        intros ring _.
        destruct (negb (is_valid_ring (correct_ring ring)));
          unfold rings_ok; cbn [returns_or_throws fst snd wayVecVec ringVec].
        -- split; [| split; assumption].
           split; [exact Hl' |]. split; [exact Hst' |]. split; assumption.
        -- split; [| split; [exact Hfl' |]].
           ++ split; [exact Hl' |]. split; [exact Hst' |]. split.
              ** apply Forall_app. split; [exact Hw |]. repeat constructor.
                 exact Hw'.
              ** rewrite !length_app, Hls. reflexivity.
           ++ apply Forall_app. split; [exact Hsf |]. repeat constructor.
              exact Hsf'.
  - intros [m' rs] ((_ & _ & Hways & Hlens) & _ & Hstarts).
    cbn [returns_or_throws snd]. repeat split; assumption.
Qed.

(** The loop over the rings returns or throws on the rings that follow the
    first. *)
Lemma mp_loop_tail_rot s :
  marks_unused s ->
  forall rest : list Z, tail_ok s rest ->
    forall (rounds : nat) (mp : list Polygon),
      rest <> [] -> mp <> [] -> (length rest <= rounds)%nat ->
      returns_or_throws (fun _ => True) (mp_loop rounds s rest false mp).
Proof.
  intros Hun rest Hrest.
  induction Hrest as [|b seg rest Hseg Hsseg Htail IH];
    intros rounds mp Hne Hmp Hlen; [congruence |].
  destruct rounds as [|rounds]; [simpl in Hlen; lia |].
  cbn [mp_loop bind fst snd]. rewrite mark_is_outer.
  apply (rot_bind (fun r : list Point * list Z => snd r = rest)).
  { apply ring_loop_rot;
      [exact Hun | exact Hseg | apply (tail_ok_stop s); exact Htail |].
    right. exact Hsseg. }
  intros [ring rest'] Hr. cbn [fst snd] in *. subst rest'.
  apply (rot_bind (fun mp' : list Polygon => mp' <> [])).
  { destruct b.
    - cbn [returns_or_throws]. intros Hnil.
      apply app_eq_nil in Hnil as [_ Hnil]. discriminate.
    - destruct (add_inner_Done mp ring Hmp) as (mp' & -> & Hmp').
      exact Hmp'. }
  intros mp' Hmp'. destruct rest as [|w rest]; [exact I |].
  apply IH; [discriminate | exact Hmp' |].
  simpl in Hlen. rewrite length_app in Hlen. simpl in *. lia.
Qed.

(** The multipolygon of an encoded way sequence is built, unless a node
    is missing. *)
Lemma wayListMultiPolygon_rot s (W : list Z) :
  marks_unused s -> encoded_ok s W ->
  returns_or_throws (fun _ => True) (wayListMultiPolygon s W).
Proof.
  intros Hun (seg & rest & -> & Hseg & Hsseg & Hrest).
  unfold wayListMultiPolygon, wayListRings.
  destruct (seg ++ rest) as [|w W] eqn:HW; [exact I |]. rewrite <- HW.
  apply (rot_bind (fun _ => True)); [| intros; exact I].
  cbn [mp_loop bind fst snd].
  apply (rot_bind (fun r : list Point * list Z => snd r = rest)).
  { apply ring_loop_rot;
      [exact Hun | exact Hseg | apply (tail_ok_stop s); exact Hrest |].
    right. exact Hsseg. }
  intros [ring rest'] Hr. cbn [fst snd bind app] in *. subst rest'.
  destruct rest as [|m rest]; [exact I |].
  apply (mp_loop_tail_rot s Hun (m :: rest) Hrest);
    [discriminate | discriminate |].
  rewrite length_app. lia.
Qed.

(** A store that holds no way under a mark satisfies the invariants of
    the data model unless it lacks a node of a way it holds. *)
Lemma store_ok_or_missing s :
  marks_unused s ->
  store_ok s \/
  exists w nodeList n,
    WayStore.at_ (ways s) w = Ret nodeList /\ n ∈ nodeList /\
    NodeStore.count (nodes s) n <> 1%nat.
Proof.
  intros Hun.
  destruct (decide (map_Forall
                      (fun (_ : Z) (nl : list Z) =>
                         Forall (fun n => NodeStore.count (nodes s) n = 1%nat)
                           nl)
                      (WayStore.mNodeLists (ways s)))) as [Hall|Hnot].
  - left. intros w nl Hat.
    destruct (stored_unmarked s w nl Hun Hat) as [Hend Hrev].
    split.
    + unfold is_mark. rewrite Hend. apply Z.eqb_neq. exact Hrev.
    + apply map_at_Ret in Hat. exact (Hall w nl Hat).
  - right. apply map_not_Forall in Hnot as (w & nl & Hw & Hnl);
      [| apply _].
    apply not_Forall_Exists in Hnl; [| apply _].
    apply Exists_exists in Hnl as (n & Hn & Hc).
    exists w, nl, n. split; [| split; assumption].
    unfold WayStore.at_, map_at. rewrite Hw. reflexivity.
Qed.

(** The assembly returns or throws. *)
Lemma correctMultiPolygonRelation_rot s (outerWayVec innerWayVec : list Z) :
  marks_unused s ->
  returns_or_throws (fun _ => True)
    (correctMultiPolygonRelation s outerWayVec innerWayVec).
Proof.
  intros Hun. unfold correctMultiPolygonRelation.
  eapply rot_bind; [apply construct_rings_rot; exact Hun |].
  intros outers (Ho & Hso & Hlo).
  eapply rot_bind; [apply construct_rings_rot; exact Hun |].
  intros inners (Hi & Hsi & Hli).
  destruct (encode_rings_Done s outers inners Ho Hso Hlo Hi Hsi Hli)
    as (result & -> & Henc).
  cbn [bind].
  apply (rot_bind (fun _ => True)); [| intros; exact I].
  apply wayListMultiPolygon_rot; assumption.
Qed.

End SafetyFacts.

Section SafetyExtras.
Import OsmStore Spec.
Context `{Geometry}.

(** X17.  On every store that holds no way under a mark, whatever nodes
    it lacks, [correctMultiPolygonRelation] returns a sequence or throws
    [out_of_range]: it indexes no vector outside its bounds, dereferences
    no end iterator, and ends.  It throws only if the store lacks a node
    of a way it holds. *)
Theorem correctMultiPolygonRelation_returns_or_throws (s : OSMStore)
    (outerWayVec innerWayVec : WayVec) :
  marks_unused s ->
  ((exists result,
      correctMultiPolygonRelation s outerWayVec innerWayVec = Done result) \/
   correctMultiPolygonRelation s outerWayVec innerWayVec
   = Raise out_of_range) /\
  (correctMultiPolygonRelation s outerWayVec innerWayVec = Raise out_of_range ->
   exists w nodeList n,
     WayStore.at_ (ways s) w = Ret nodeList /\ n ∈ nodeList /\
     NodeStore.count (nodes s) n <> 1%nat).
Proof.
  intros Hun.
  pose proof (correctMultiPolygonRelation_rot s outerWayVec innerWayVec Hun)
    as Hrot.
  split.
  - destruct (correctMultiPolygonRelation s outerWayVec innerWayVec)
      as [result|[]| | |]; simpl in Hrot; [eauto | auto | contradiction..].
  - intros Hraise.
    destruct (store_ok_or_missing s Hun) as [Hok|Hbad]; [| exact Hbad].
    destruct (correctMultiPolygonRelation_Done s outerWayVec innerWayVec Hok)
      as (result & Hrun & _).
    congruence.
Qed.

End SafetyExtras.

Lemma marks_unused_intro (s : OsmStore.OSMStore) :
  OsmStore.WayStore.count (OsmStore.ways s) OsmStore.PSEUDO_WAY_OUTER_MARK
  = 0%nat ->
  OsmStore.WayStore.count (OsmStore.ways s) OsmStore.PSEUDO_WAY_INNER_MARK
  = 0%nat ->
  OsmStore.WayStore.count (OsmStore.ways s) OsmStore.PSEUDO_WAY_REVERSE_MARK
  = 0%nat ->
  Spec.marks_unused s.
Proof.
  intros Ho Hi Hr w Hm. unfold Spec.is_mark, OsmStore.is_ring_end in Hm.
  apply orb_true_iff in Hm as [Hm|Hm];
    [apply orb_true_iff in Hm as [Hm|Hm] |];
    apply Z.eqb_eq in Hm; subst w; assumption.
Qed.

Lemma correctMultiPolygonRelation_returns_or_throws_witness :
  @OsmStore.correctMultiPolygonRelation Sample.box_geometry
    Sample.broken_store [50] []
  = OsmStore.Raise out_of_range /\
  exists w nodeList n,
    OsmStore.WayStore.at_ (OsmStore.ways Sample.broken_store) w
    = Ret nodeList /\
    n ∈ nodeList /\
    OsmStore.NodeStore.count (OsmStore.nodes Sample.broken_store) n <> 1%nat.
Proof.
  assert (Hun : Spec.marks_unused Sample.broken_store)
    by (apply marks_unused_intro; vm_compute; reflexivity).
  assert (Hraise : @OsmStore.correctMultiPolygonRelation Sample.box_geometry
                     Sample.broken_store [50] []
                   = OsmStore.Raise out_of_range)
    by (vm_compute; reflexivity).
  split; [exact Hraise |].
  exact (proj2 (@correctMultiPolygonRelation_returns_or_throws
                  Sample.box_geometry Sample.broken_store [50] [] Hun)
           Hraise).
Defined.

(** ** No way is used twice *)

Section OnceFacts.
Import OsmStore Spec.
Context `{Geometry}.

Lemma consumed_le (w : Z) (wayVec : list Z) :
  forall m, (consumed w wayVec m <= occurrences w wayVec)%nat.
Proof.
  induction wayVec as [|x wayVec IH]; intros [|b m]; simpl; try lia.
  specialize (IH m). destruct b, (x =? w); simpl; lia.
Qed.

Lemma consumed_insert (w : Z) (wayVec : list Z) :
  forall (m : list bool) (i : nat) (x : Z),
    m !! i = Some false -> wayVec !! i = Some x ->
    consumed w wayVec (<[i:=true]> m)
    = (consumed w wayVec m + (if (x =? w)%Z then 1 else 0))%nat.
Proof.
  induction wayVec as [|y wayVec IH]; intros [|b m] [|i] x Hm Hx;
    try discriminate.
  - simpl in Hm, Hx. inversion Hm; subst b. inversion Hx; subst y.
    simpl. destruct (x =? w); lia.
  - simpl in Hm, Hx. cbn [list_insert insert consumed].
    rewrite <- Nat.add_assoc. f_equal. exact (IH m i x Hm Hx).
Qed.

Lemma occurrences_reverse_mark (w : Z) (rev : bool) :
  is_mark w = false ->
  occurrences w (if rev then [PSEUDO_WAY_REVERSE_MARK] else []) = 0%nat.
Proof.
  intros Hm. destruct rev; [| reflexivity]. cbn [occurrences].
  unfold is_mark in Hm. apply orb_false_elim in Hm as [_ Hm].
  rewrite Z.eqb_sym, Hm. reflexivity.
Qed.

(** A walk adds to the ways of the ring the ways it consumes, each
    once. *)
Lemma walk_consumed (wayVec : list Z) (endCoordsVec : list (LatpLon * LatpLon))
    (startIdx : nat) (startCoord : LatpLon) (w : Z) :
  is_mark w = false ->
  forall (rounds : nat) (st st' : walk_state),
    walk rounds wayVec endCoordsVec startIdx startCoord st = Done st' ->
    matched st !! nextIdx st = Some false ->
    (consumed w wayVec (matched st) + occurrences w (currentWayVec st')
     = consumed w wayVec (matched st') + occurrences w (currentWayVec st))%nat.
Proof.
  intros Hw. induction rounds as [|rounds IH]; intros st st' Hrun Hfree;
    [discriminate |].
  cbn [walk] in Hrun. apply bind_Done in Hrun as (st1 & Hbody & Hrun).
  destruct (walk_body_ways _ _ _ _ _ _ Hbody) as (x & Hx & Hcur).
  destruct (walk_body_Done _ _ _ _ _ _ Hbody) as [Hm Hnext].
  assert (Hstep : (consumed w wayVec (matched st)
                   + occurrences w (currentWayVec st1)
                   = consumed w wayVec (matched st1)
                     + occurrences w (currentWayVec st))%nat).
  { rewrite Hm, (consumed_insert w wayVec _ _ x Hfree Hx), Hcur.
    rewrite !occurrences_app, (occurrences_reverse_mark w _ Hw).
    simpl. lia. }
  destruct (nextIdx st1 =? startIdx)%nat eqn:Hend.
  - inversion Hrun; subst st'. exact Hstep.
  - apply Nat.eqb_neq in Hend.
    destruct Hnext as [Heq|Hfree1]; [contradiction |].
    specialize (IH st1 st' Hrun Hfree1). lia.
Qed.

Lemma occurrences_concat_snoc (w : Z) (l : list (list Z)) (x : list Z) :
  occurrences w (concat (l ++ [x]))
  = (occurrences w (concat l) + occurrences w x)%nat.
Proof.
  rewrite concat_app, occurrences_app. simpl. rewrite app_nil_r. reflexivity.
Qed.

(** The rings of a bag use no way of the bag twice. *)
Lemma construct_rings_once s (wayVec : list Z) (rs : rings) (w : Z) :
  is_mark w = false ->
  construct_rings s wayVec = Done rs ->
  (occurrences w (concat (wayVecVec rs)) <= occurrences w wayVec)%nat.
Proof.
  intros Hw Hrun. unfold construct_rings in Hrun.
  apply bind_Done in Hrun as (st & _ & Hrun).
  apply bind_Done in Hrun as (st' & Hloop & Hrun).
  inversion Hrun; subst rs. unfold for_range in Hloop.
  pose proof (consumed_le w wayVec (fst st')) as Hle.
  enough (occurrences w (concat (wayVecVec (snd st')))
          <= consumed w wayVec (fst st'))%nat by lia.
  apply (for_range_from_inv
           (fun t : list bool * rings =>
              (occurrences w (concat (wayVecVec (snd t)))
               <= consumed w wayVec (fst t))%nat)
           (construct_ring s wayVec (snd st))) with (n := length wayVec)
           (i := 0%nat) (s := (fst st, mkRings [] []));
    [| simpl; lia | exact Hloop].
  intros j t t' Ht Hbody. unfold construct_ring in Hbody.
  destruct (fst t !! j) as [m|] eqn:Hj; [| discriminate].
  destruct (snd st !! j) as [ends|]; [| discriminate].
  destruct m; [inversion Hbody; subst; exact Ht |].
  apply bind_Done in Hbody as (w' & Hwalk & Hbody).
  apply bind_Done in Hbody as (ring & _ & Hbody).
  pose proof (walk_consumed _ _ _ _ w Hw _ _ _ Hwalk Hj) as Hcons.
  cbn [matched currentWayVec] in Hcons. simpl in Hcons.
  destruct (negb (is_valid_ring (correct_ring ring)));
    inversion Hbody; subst t'; cbn [fst snd wayVecVec].
  - lia.
  - rewrite occurrences_concat_snoc. lia.
Qed.

Lemma occurrences_concat_insert (w : Z) (l : list (list Z)) (q : nat)
    (cur extra : list Z) :
  l !! q = Some cur ->
  occurrences w (concat (<[q := cur ++ extra]> l))
  = (occurrences w (concat l) + occurrences w extra)%nat.
Proof.
  revert q. induction l as [|x l IH]; intros [|q] Hq; try discriminate.
  - simpl in Hq. inversion Hq; subst x. simpl.
    rewrite !occurrences_app. lia.
  - simpl in Hq. cbn [list_insert insert concat].
    rewrite !occurrences_app, <- Nat.add_assoc. f_equal. exact (IH q Hq).
Qed.

(** The loop over the inner rings adds to the ways kept for the outer
    rings no more than the ways of the inner rings. *)
Lemma assign_all_once (outerRingVec : list (list Point)) (w : Z) :
  is_mark w = false ->
  forall (pairs : list (list Point * list Z)) (iw iw' : list (list Z)),
    assign_all outerRingVec pairs iw = Done iw' ->
    length iw' = length iw /\
    (occurrences w (concat iw')
     <= occurrences w (concat iw)
        + occurrences w (concat (map snd pairs)))%nat.
Proof.
  intros Hw. induction pairs as [|p pairs IH]; intros iw iw' Hrun.
  - inversion Hrun; subst. simpl. split; [reflexivity | lia].
  - cbn [assign_all] in Hrun. apply bind_Done in Hrun as (iw1 & Hone & Hrun).
    destruct (IH _ _ Hrun) as [Hlen Hocc].
    cbn [map concat]. rewrite occurrences_app.
    unfold assign_one in Hone.
    apply bind_Done in Hone as (parent & _ & Hone).
    destruct parent as [q|]; [| inversion Hone; subst iw1; split; [exact Hlen | lia]].
    destruct (iw !! q) as [cur|] eqn:Hq; [| discriminate].
    inversion Hone; subst iw1. rewrite length_insert in Hlen.
    split; [exact Hlen |].
    rewrite (occurrences_concat_insert w iw q cur _ Hq) in Hocc.
    cbn [occurrences] in Hocc.
    unfold is_mark, is_ring_end in Hw.
    apply orb_false_elim in Hw as [Hw _].
    apply orb_false_elim in Hw as [_ Hw].
    rewrite Z.eqb_sym, Hw in Hocc. simpl in Hocc. lia.
Qed.

(** The ways of the concatenation of the outer rings. *)
Lemma flatten_once (w : Z) :
  is_mark w = false ->
  forall (ovv iw : list (list Z)) (k : nat),
    length ovv = length iw ->
    occurrences w
      (concat (imap (fun j o =>
                       (if (0 <? k + j)%nat then [PSEUDO_WAY_OUTER_MARK]
                        else [])
                       ++ o ++ default [] (iw !! j)) ovv))
    = (occurrences w (concat ovv) + occurrences w (concat iw))%nat.
Proof.
  intros Hw.
  assert (Hout : forall b : bool,
            occurrences w (if b then [PSEUDO_WAY_OUTER_MARK] else []) = 0%nat).
  { intros [|]; [| reflexivity]. cbn [occurrences].
    unfold is_mark, is_ring_end in Hw.
    apply orb_false_elim in Hw as [Hw _].
    apply orb_false_elim in Hw as [Hw _].
    rewrite Z.eqb_sym, Hw. reflexivity. }
  induction ovv as [|o ovv IH]; intros [|x iw] k Hlen; try discriminate.
  - reflexivity.
  - rewrite imap_cons. cbn [concat lookup list_lookup default].
    injection Hlen as Hlen.
    assert (Hext : imap ((fun j o0 =>
                            (if (0 <? k + j)%nat
                             then [PSEUDO_WAY_OUTER_MARK] else [])
                            ++ o0 ++ default [] ((x :: iw) !! j)) ∘ S) ovv
                   = imap (fun j o0 =>
                             (if (0 <? S k + j)%nat
                              then [PSEUDO_WAY_OUTER_MARK] else [])
                             ++ o0 ++ default [] (iw !! j)) ovv).
    { apply imap_ext. intros j y _. unfold compose.
      replace (k + S j)%nat with (S k + j)%nat by lia. reflexivity. }
    rewrite Hext, !occurrences_app, Hout, (IH iw (S k) Hlen).
    unfold id. lia.
Qed.

(** The encoded sequence uses no way more often than the rings do. *)
Lemma encode_rings_once (outers : rings)
    (pairs : list (list Point * list Z)) (result : list Z) (w : Z) :
  is_mark w = false ->
  encode_rings outers (rings_of pairs) = Done result ->
  (occurrences w result
   <= occurrences w (concat (wayVecVec outers))
      + occurrences w (concat (map snd pairs)))%nat.
Proof.
  intros Hw Hrun. rewrite encode_rings_pairs in Hrun.
  apply bind_Done in Hrun as (iw & Hassign & Hflat).
  destruct (assign_all_once (ringVec outers) w Hw _ _ _ Hassign)
    as [Hlen Hocc].
  rewrite length_replicate in Hlen.
  assert (Hnil : forall n : nat,
            occurrences w (concat (replicate n (@nil Z))) = 0%nat).
  { induction n as [|n IH]; [reflexivity |]. simpl. exact IH. }
  rewrite Hnil in Hocc.
  unfold for_range in Hflat.
  pose proof (flatten_loop (wayVecVec outers) iw
                (fun j => default [] (iw !! j))) as Hloop.
  specialize (Hloop ltac:(intros j Hj;
                          destruct (lookup_lt_is_Some_2 iw j) as [x ->];
                          [lia | reflexivity])
                    (wayVecVec outers) [] [] eq_refl).
  cbn [length app Nat.add] in Hloop. rewrite Hloop in Hflat.
  injection Hflat as <-.
  pose proof (flatten_once w Hw (wayVecVec outers) iw 0 ltac:(lia)) as Hf.
  cbn [Nat.add] in Hf. rewrite Hf. lia.
Qed.

(** The assembly uses no way more often than the bags hold it. *)
Lemma correctMultiPolygonRelation_once s (outerWayVec innerWayVec : list Z)
    (result : list Z) (w : Z) :
  is_mark w = false ->
  correctMultiPolygonRelation s outerWayVec innerWayVec = Done result ->
  (occurrences w result
   <= occurrences w outerWayVec + occurrences w innerWayVec)%nat.
Proof.
  intros Hw Hrun. unfold correctMultiPolygonRelation in Hrun.
  apply bind_Done in Hrun as (outers & Ho & Hrun).
  apply bind_Done in Hrun as (inners & Hi & Hrun).
  apply bind_Done in Hrun as (result' & Henc & Hrun).
  apply bind_Done in Hrun as (mp & _ & Hrun).
  injection Hrun as <-.
  pose proof (construct_rings_once s _ _ w Hw Ho) as Hoo.
  pose proof (construct_rings_once s _ _ w Hw Hi) as Hii.
  pose proof (Forall2_length _ _ _ (construct_rings_ring_ok s _ _ Hi)) as Hli.
  rewrite <- (rings_of_pairs_of inners Hli) in Henc.
  pose proof (encode_rings_once outers _ _ w Hw Henc) as Hocc.
  unfold pairs_of in Hocc.
  change (map snd (zip (ringVec inners) (wayVecVec inners)))
    with ((zip (ringVec inners) (wayVecVec inners)).*2) in Hocc.
  rewrite snd_zip in Hocc by lia. lia.
Qed.

End OnceFacts.

Section OnceExtras.
Import OsmStore Spec.
Context `{Geometry}.

(** X18.  Whatever the store holds, a sequence that
    [correctMultiPolygonRelation] returns uses no way twice: a way ID
    that is not a mark occurs in it at most as often as in the two bags
    together.  In particular a way that the bags hold once is part of at
    most one ring. *)
Theorem correctMultiPolygonRelation_uses_ways_once (s : OSMStore)
    (outerWayVec innerWayVec result : WayVec) (w : WayID) :
  correctMultiPolygonRelation s outerWayVec innerWayVec = Done result ->
  is_mark w = false ->
  (occurrences w result
   <= occurrences w outerWayVec + occurrences w innerWayVec)%nat /\
  ((occurrences w outerWayVec + occurrences w innerWayVec)%nat = 0%nat ->
   w ∉ result).
Proof.
  intros Hrun Hw.
  pose proof (correctMultiPolygonRelation_once s _ _ _ w Hw Hrun) as Hocc.
  split; [exact Hocc |]. intros Hzero Hin.
  assert (Hpos : forall l : list Z, w ∈ l -> (0 < occurrences w l)%nat).
  { induction l as [|x l IH]; intros Hl.
    - apply elem_of_nil in Hl. contradiction.
    - apply elem_of_cons in Hl as [<-|Hl].
      + simpl. rewrite Z.eqb_refl. lia.
      + simpl. specialize (IH Hl). lia. }
  specialize (Hpos result Hin). lia.
Qed.

End OnceExtras.

Lemma correctMultiPolygonRelation_uses_ways_once_witness :
  le (Spec.occurrences 10
        [10; OsmStore.PSEUDO_WAY_INNER_MARK; 20;
         OsmStore.PSEUDO_WAY_OUTER_MARK; 11])
     (Nat.add (Spec.occurrences 10 [10; 11])
              (Spec.occurrences 10 [20])) /\
  (Nat.add (Spec.occurrences 10 [10; 11]) (Spec.occurrences 10 [20])
   = 0%nat ->
   10 ∉ [10; OsmStore.PSEUDO_WAY_INNER_MARK; 20;
         OsmStore.PSEUDO_WAY_OUTER_MARK; 11]).
Proof.
  apply (@correctMultiPolygonRelation_uses_ways_once Sample.box_geometry
           Sample.sample_store [10; 11] [20]
           [10; OsmStore.PSEUDO_WAY_INNER_MARK; 20;
            OsmStore.PSEUDO_WAY_OUTER_MARK; 11] 10).
  - vm_compute. reflexivity.
  - reflexivity.
Defined.

(** ** Reading the ways and the members of a relation *)

Section ReadFacts.
Import OsmStore Tilemaker Spec.

Lemma int64_ok_range (z : Z) :
  -9223372036854775808 <= z < 9223372036854775808 -> int64_ok z = true.
Proof. unfold int64_ok. intros Hz. apply andb_true_intro. split; lia. Qed.

Lemma decode_refs_deltas (ids : list Z) :
  Forall (fun i => 0 <= i < 9223372036854775808) ids ->
  forall (prev : Z) (nodeVec : list Z),
    decode_refs prev (deltas prev ids) nodeVec = Done (nodeVec ++ ids).
Proof.
  induction 1 as [|i ids Hi _ IH]; intros prev nodeVec.
  - simpl. rewrite app_nil_r. reflexivity.
  - cbn [deltas decode_refs].
    replace (prev + (i - prev)) with i by lia.
    rewrite int64_ok_range by lia. rewrite IH.
    unfold to_NodeID. rewrite Z.mod_small by lia.
    rewrite <- app_assoc. reflexivity.
Qed.

Lemma deltas_lookup (pre post : list Z) (x prev : Z) :
  deltas prev (pre ++ x :: post) !! length pre
  = Some (x - default prev (last pre)).
Proof.
  revert prev. induction pre as [|y pre IH]; intros prev; [reflexivity |].
  cbn [app deltas length]. rewrite lookup_cons. rewrite IH.
  rewrite last_cons. destruct (last pre); reflexivity.
Qed.

Lemma length_deltas (ids : list Z) (prev : Z) :
  length (deltas prev ids) = length ids.
Proof.
  revert prev. induction ids as [|i ids IH]; intros prev; [reflexivity |].
  simpl. rewrite IH. reflexivity.
Qed.

Lemma ways_with_cons (inner : bool) (innerKey : Z) (m : member)
    (ms : list member) :
  ways_with inner innerKey (m :: ms)
  = (if is_way m && eqb (m_role m =? innerKey) inner then [m_id m] else [])
    ++ ways_with inner innerKey ms.
Proof.
  unfold ways_with. cbn [List.filter].
  destruct (is_way m && eqb (m_role m =? innerKey) inner); reflexivity.
Qed.

(** The loop over the members, from the member after [pre] on. *)
Lemma members_loop (innerKey : Z) (ms : list member) :
  Forall (fun m => 0 <= m_id m < 4294967296) ms ->
  forall (post pre : list member) (outerVec innerVec : list Z),
    ms = pre ++ post ->
    for_range_from (length pre) (length post)
      (member_body (deltas 0 (map m_id ms)) (map m_type ms) (map m_role ms)
         innerKey)
      (mkMembers (default 0 (last (map m_id pre))) outerVec innerVec)
    = Done (mkMembers (default 0 (last (map m_id ms)))
              (outerVec ++ ways_with false innerKey post)
              (innerVec ++ ways_with true innerKey post)).
Proof.
  intros Hms. induction post as [|m post IH];
    intros pre outerVec innerVec Hpre.
  - rewrite app_nil_r in Hpre. subst pre. simpl.
    rewrite !app_nil_r. reflexivity.
  - assert (Hm : 0 <= m_id m < 4294967296).
    { rewrite Forall_forall in Hms. apply Hms. rewrite Hpre.
      apply elem_of_app. right. left. }
    assert (Hlast : 0 <= default 0 (last (map m_id pre)) < 4294967296).
    { destruct (last (map m_id pre)) as [x|] eqn:Hx; [| simpl; lia].
      apply last_Some_elem_of, list_elem_of_fmap in Hx as (m' & -> & Hm').
      rewrite Forall_forall in Hms. apply Hms. rewrite Hpre.
      apply elem_of_app. left. exact Hm'. }
    assert (Hd : deltas 0 (map m_id ms) !! length pre
                 = Some (m_id m - default 0 (last (map m_id pre)))).
    { rewrite Hpre, map_app. cbn [map].
      rewrite <- (length_map m_id pre). apply deltas_lookup. }
    assert (Ht : map m_type ms !! length pre = Some (m_type m)).
    { rewrite Hpre, map_app. cbn [map].
      apply list_lookup_middle. rewrite length_map. reflexivity. }
    assert (Hr : map m_role ms !! length pre = Some (m_role m)).
    { rewrite Hpre, map_app. cbn [map].
      apply list_lookup_middle. rewrite length_map. reflexivity. }
    cbn [length for_range_from]. unfold member_body at 1.
    cbn [lastID outerWayVec innerWayVec]. rewrite Hd, Ht, Hr.
    replace (default 0 (last (map m_id pre))
             + (m_id m - default 0 (last (map m_id pre)))) with (m_id m)
      by lia.
    rewrite int64_ok_range by lia. cbn [negb].
    rewrite !ways_with_cons. unfold is_way.
    unfold to_uint32. rewrite Z.mod_small by exact Hm.
    assert (Hnext : default 0 (last (map m_id (pre ++ [m]))) = m_id m).
    { rewrite map_app. simpl. rewrite last_snoc. reflexivity. }
    replace (S (length pre)) with (length (pre ++ [m]))
      by (rewrite length_app; simpl; lia).
    assert (Hpre' : ms = (pre ++ [m]) ++ post)
      by (rewrite <- app_assoc; exact Hpre).
    destruct (m_type m); cbn [bind andb app].
    + rewrite <- Hnext at 1. rewrite (IH _ _ _ Hpre'). reflexivity.
    + destruct (m_role m =? innerKey); cbn [bind eqb app].
      * rewrite <- Hnext at 1. rewrite (IH _ _ _ Hpre').
        rewrite <- !app_assoc. reflexivity.
      * rewrite <- Hnext at 1. rewrite (IH _ _ _ Hpre').
        rewrite <- !app_assoc. reflexivity.
    + rewrite <- Hnext at 1. rewrite (IH _ _ _ Hpre'). reflexivity.
Qed.

End ReadFacts.

Section ReadExtras.
Import OsmStore Tilemaker Spec.

(** X19.  The loops that read a PBF block undo its delta coding.  For a
    way whose nodes have identifiers below 2^63, the node list assembled
    from the coded [refs] is the list of the identifiers.  For a relation
    whose members have identifiers below 2^32, the members that are ways
    are split by role: those whose role is [inner] go to the inner bag,
    all the others, whatever their role, to the outer bag, each bag in the
    order of the members; the members that are not ways go to neither,
    and the identifiers of the ways after them are still right. *)
Theorem delta_decoding :
  (forall ids : list Z,
     Forall (fun i => 0 <= i < 9223372036854775808) ids ->
     decode_refs 0 (deltas 0 ids) [] = Done ids) /\
  (forall (ms : list member) (innerKey : Z),
     Forall (fun m => 0 <= m_id m < 4294967296) ms ->
     exists st,
       read_members (deltas 0 (map m_id ms)) (map m_type ms)
         (map m_role ms) innerKey = Done st /\
       outerWayVec st = ways_with false innerKey ms /\
       innerWayVec st = ways_with true innerKey ms).
Proof.
  split.
  - intros ids Hids. apply (decode_refs_deltas ids Hids 0 []).
  - intros ms innerKey Hms. unfold read_members, for_range.
    rewrite length_deltas, length_map.
    pose proof (members_loop innerKey ms Hms ms [] [] [] eq_refl) as Hloop.
    cbn [length map last default app] in Hloop. rewrite Hloop.
    eexists. split; [reflexivity |]. split; reflexivity.
Qed.

Lemma delta_decoding_witness :
  decode_refs 0 (deltas 0 [100; 103; 101]) [] = Done [100; 103; 101] /\
  exists st,
    read_members
      (deltas 0 (map m_id [mkMember 10 WAY 7; mkMember 5 NODE 0;
                           mkMember 20 WAY 3; mkMember 11 WAY 9]))
      (map m_type [mkMember 10 WAY 7; mkMember 5 NODE 0;
                   mkMember 20 WAY 3; mkMember 11 WAY 9])
      (map m_role [mkMember 10 WAY 7; mkMember 5 NODE 0;
                   mkMember 20 WAY 3; mkMember 11 WAY 9]) 3
    = Done st /\
    outerWayVec st
    = ways_with false 3 [mkMember 10 WAY 7; mkMember 5 NODE 0;
                         mkMember 20 WAY 3; mkMember 11 WAY 9] /\
    innerWayVec st
    = ways_with true 3 [mkMember 10 WAY 7; mkMember 5 NODE 0;
                        mkMember 20 WAY 3; mkMember 11 WAY 9].
Proof.
  destruct delta_decoding as [Hrefs Hmembers]. split.
  - apply Hrefs. repeat (constructor; [lia |]). constructor.
  - apply Hmembers. repeat (constructor; [simpl; lia |]). constructor.
Defined.

End ReadExtras.
